(** * junction-caps: XEP-0115 entity capabilities middleware

    A shallow embedding of [lib/util.js], [lib/cache/memory.js],
    [lib/middleware/capabilitiesParser.js] and
    [lib/middleware/capabilities.js], and the properties of the capability
    discovery coordinator ([Handler]) that the specification states.

    Conventions of the embedding:
    - a JS object used as a dictionary is the [gmap] of its own properties.
      A bare [{}] answers for the names it inherits from [Object.prototype]
      too ([constructor], [toString], ...): where the key of a read comes
      off the wire (the id of a response, the name of an extension, a raw
      feature) the read goes through [get], which knows the inherited
      members. Fingerprints ([node#ver], or ['undefined']) are never such
      names, and [_pendingBuddies] is only read under keys it was written
      under, so these reads are plain lookups;
    - JS objects that are shared by reference and mutated (the per-buddy
      records and the arrays of waiting buddies) live in an explicit heap,
      a list indexed by allocation order;
    - a handler runs in the monad [M]: it threads the [Handler] instance and
      may stop with a JS exception, keeping the writes made so far;
    - the outgoing IQ queries and the emitted events are logged in order. *)

From Stdlib Require Import String Ascii.
From stdpp Require Import gmap strings list fin_maps pretty.

Open Scope string_scope.
Open Scope list_scope.
Open Scope nat_scope.

(** ** JavaScript values that occur as array elements *)

(** An element of a [rawFeatures] array: the [var] attribute of a
    [<feature/>] (a string, or [undefined] when the attribute is missing);
    [null] appears after a JSON round trip. A member inherited from
    [Object.prototype] gets into such an array when it is read in place of
    a cached extension: a native function, by its name, or an object that
    has no enumerable property of its own ([Object.prototype] itself). *)
Inductive jsval :=
  | JUndefined
  | JNull
  | JStr (s : string)
  | JFun (name : string)
  | JObj.

#[global] Instance jsval_eq_dec : EqDecision jsval.
Proof. solve_decision. Defined.

(** Property-key coercion, as in [obj[v]]; a native function reads
    [function name() { [native code] }]. *)
Definition toKey (v : jsval) : string :=
  match v with
  | JUndefined => "undefined"
  | JNull => "null"
  | JStr s => s
  | JFun name => "function " +:+ name +:+ "() { [native code] }"
  | JObj => "[object Object]"
  end.

(** ** Objects used as dictionaries *)

(** The property names that every object inherits from [Object.prototype]:
    [obj[k]] answers for them on a bare [{}] too, and an assignment to
    ['__proto__'] replaces the prototype instead of storing a value. *)
Definition objectPrototype : list string :=
  [ "constructor"; "hasOwnProperty"; "isPrototypeOf"; "propertyIsEnumerable";
    "toLocaleString"; "toString"; "valueOf"; "__proto__";
    "__defineGetter__"; "__defineSetter__"; "__lookupGetter__"; "__lookupSetter__" ].

(** A key for which a JS object used as a dictionary behaves as a map. *)
Definition plainKey (k : string) : bool := bool_decide (k ∉ objectPrototype).

(** The member that a bare object inherits under the name [k]: a native
    function (the constructor is [Object]), and [Object.prototype] itself
    under ['__proto__']. *)
Definition member (k : string) : jsval :=
  if decide (k = "__proto__") then JObj
  else JFun (if decide (k = "constructor") then "Object" else k).

(** What [obj[k]] reads: a property of the object's own, a member
    inherited from [Object.prototype], or [undefined]. *)
Inductive slot (A : Type) :=
  | Own (a : A)
  | Inherited (v : jsval)
  | Absent.
Arguments Own {A} a.
Arguments Inherited {A} v.
Arguments Absent {A}.

(** [obj[k]] on an object created as [{}] whose own properties are [obj]. *)
Definition get {A} (obj : gmap string A) (k : string) : slot A :=
  match obj !! k with
  | Some a => Own a
  | None => if plainKey k then Absent else Inherited (member k)
  end.

(** [a + '#' + b] on attribute values: an absent attribute reads
    ["undefined"]. *)
Definition str (o : option string) : string := default "undefined" o.

(** [s.split(sep)] for a one-character separator. *)
Fixpoint split (sep : ascii) (s : string) : list string :=
  match s with
  | EmptyString => [EmptyString]
  | String c s' =>
      if Ascii.eqb c sep then EmptyString :: split sep s'
      else match split sep s' with
           | w :: ws => String c w :: ws
           | [] => [String c EmptyString]
           end
  end.

(** [l.indexOf(x)], [None] standing for [-1]. *)
Fixpoint indexOf `{EqDecision A} (x : A) (l : list A) : option nat :=
  match l with
  | [] => None
  | y :: l' => if decide (y = x) then Some 0 else S <$> indexOf x l'
  end.

(** [l.splice(l.indexOf(x), 1)]: a start of [-1] counts from the end, so
    the last element is removed when [x] does not occur. *)
Definition splice_indexOf `{EqDecision A} (x : A) (l : list A) : list A :=
  match indexOf x l with
  | Some i => delete i l
  | None => removelast l
  end.

(** The resolved capability data attached to a discovery response
    ([stanza.capabilities] of an IQ stanza). *)
Record Caps := mkCaps {
  node : option string;
  rawFeatures : list jsval;
  features : gmap string bool;
  clientName : option string
}.

(** ** lib/util.js *)
Module Util.

(** [removeDuplicates(data)]: the loop runs [i] from [data.length - 1] down
    to [0]; [n] is [i + 1]. [seen] holds the keys [k] for which [seen[k]]
    is truthy. An element whose key was seen further right is spliced out,
    so the last occurrence of each key survives. *)
Fixpoint removeDuplicates_loop (n : nat) (data : list jsval) (seen : gset string)
  : list jsval :=
  match n with
  | 0 => data
  | S i =>
      match data !! i with
      | Some x =>
          if decide (toKey x ∈ seen) then removeDuplicates_loop i (delete i data) seen
          else removeDuplicates_loop i data ({[toKey x]} ∪ seen)
      | None => removeDuplicates_loop i data ({["undefined"]} ∪ seen)
      end
  end.

(** The loop starts with [seen = {}], for which the names inherited from
    [Object.prototype] read truthy already: an element with such a key is
    spliced out wherever it stands. *)
Definition removeDuplicates (data : list jsval) : list jsval :=
  removeDuplicates_loop (length data) data (list_to_set objectPrototype).

(** [JSON.parse(JSON.stringify(v))] on an array element: [undefined] and
    functions are written as [null], an object without enumerable
    properties as [{}]. *)
Definition json_elem (v : jsval) : jsval :=
  match v with
  | JUndefined => JNull
  | JFun _ => JNull
  | v => v
  end.

(** [deepClone(data)] on a capability record: properties holding
    [undefined] are dropped (and read [undefined] again), [undefined] array
    elements come back as [null]. *)
Definition deepClone (data : Caps) : Caps :=
  {| node := node data;
     rawFeatures := json_elem <$> rawFeatures data;
     features := features data;
     clientName := clientName data |}.

End Util.

(** ** lib/middleware/capabilitiesParser.js *)
Module CapabilitiesParser.

(** Simple names for commonly used XMPP features. *)
Definition commonFeatures : list (string * string) :=
  [ ("jabber:iq:last", "lastActivity");
    ("http://jabber.org/protocol/muc", "muc");
    ("http://jabber.org/protocol/ibb", "byteStreams");
    ("http://jabber.org/protocol/xhtml-im", "xhtml");
    ("urn:xmpp:avatar:metadata+notify", "avatar");
    ("jabber:iq:version", "version");
    ("http://jabber.org/protocol/si/profile/file-transfer", "siFileTransfer");
    ("http://jabber.org/protocol/mood+notify", "mood");
    ("urn:xmpp:jingle:apps:rtp:0", "rtpv0");
    ("urn:xmpp:jingle:apps:rtp:1", "rtpv1");
    ("urn:xmpp:jingle:apps:rtp:audio", "rtpaudio");
    ("urn:xmpp:jingle:apps:rtp:video", "rtpvideo");
    ("urn:xmpp:attention:0", "attention");
    ("urn:xmpp:bob", "bob");
    ("http://www.google.com/xmpp/protocol/camera/v1", "googleCamera");
    ("http://www.google.com/xmpp/protocol/video/v1", "googleVideo");
    ("http://www.google.com/xmpp/protocol/voice/v1", "googleVoice");
    ("google:mail:notify", "gmailNotify") ].

Fixpoint assoc (k : string) (t : list (string * string)) : option string :=
  match t with
  | [] => None
  | (k', v) :: t' => if decide (k' = k) then Some v else assoc k t'
  end.

(** [commonFeatures[k]], if truthy, as the property key it is then used
    as: the simple name of a common feature; for a name inherited from
    [Object.prototype], the string form of the inherited member. *)
Definition commonFeature (k : string) : option string :=
  match assoc k commonFeatures with
  | Some name => Some name
  | None => if plainKey k then None else Some (toKey (member k))
  end.

(** [parseCommonFeatures(rawFeatures)]: every common feature starts
    [false]; the ones that occur among the raw features become [true]. *)
Definition parseCommonFeatures (rawFeatures : list jsval) : gmap string bool :=
  foldl (λ features rawFeature,
           match commonFeature (toKey rawFeature) with
           | Some name => <[name := true]> features
           | None => features
           end)
        (foldl (λ features kv, <[kv.2 := false]> features) ∅ commonFeatures)
        rawFeatures.

(** The [<c xmlns='http://jabber.org/protocol/caps'/>] child of a presence
    stanza, by its attributes. *)
Record CElem := mkCElem {
  c_node : option string;
  c_ver : option string;
  c_hash : option string;
  c_ext : option string
}.

(** What a presence stanza announces ([stanza.caps]). *)
Record PCaps := mkPCaps {
  pc_node : option string;
  pc_ver : option string;
  pc_hash : option string;
  pc_ext : option (list string)
}.

(** [c.attrs.ext || '']: an absent and an empty attribute both give ['']. *)
Definition ext_or_empty (a : option string) : string :=
  match a with
  | Some (String c s) => String c s
  | _ => EmptyString
  end.

(** [handlePresence(stanza)]: the value stored in [stanza.caps]; [None]
    when the stanza has no [<c/>] child and is left alone. *)
Definition handlePresence (c : option CElem) : option PCaps :=
  match c with
  | None => None
  | Some c =>
      Some {| pc_node := c_node c;
              pc_ver := c_ver c;
              pc_hash := c_hash c;
              pc_ext := Some (split " " (ext_or_empty (c_ext c))) |}
  end.

(** The [<query xmlns='http://jabber.org/protocol/disco#info'/>] child of an
    IQ stanza. *)
Record QueryElem := mkQueryElem {
  qe_node : option string;
  qe_identity : option (option string);  (* <identity/>, by its name attribute *)
  qe_features : list (option string)     (* <feature/> children, by their var *)
}.

(** An IQ stanza as the parser reads it. Every IQ stanza bears an [id]
    (RFC 6120, 8.1.3), which is what [handleIQ] relies on when it calls
    [stanza.attrs.id.substr]. *)
Record RawIQ := mkRawIQ {
  attrs_id : string;
  attrs_type : option string;
  query : option QueryElem
}.

(** [handleIQ(stanza)]: the value stored in [stanza.capabilities]; [None]
    when the parser returns early and the stanza is left alone. *)
Definition handleIQ (stanza : RawIQ) : option Caps :=
  match query stanza with
  | None => None
  | Some query =>
      if bool_decide (attrs_id stanza ≠ "caps")
         && bool_decide (substring 0 9 (attrs_id stanza) ≠ "caps-ext-")
      then None
      else if bool_decide (attrs_type stanza = Some "error") then None
      else
        let rawFeatures :=
          (λ var, match var with Some v => JStr v | None => JUndefined end)
            <$> qe_features query in
        Some {| node := qe_node query;
                rawFeatures := rawFeatures;
                features := parseCommonFeatures rawFeatures;
                clientName := match qe_identity query with
                              | Some name => name
                              | None => None
                              end |}
  end.

End CapabilitiesParser.

(** ** lib/cache/memory.js *)
Module MemoryCache.

Record t := mk {
  _capsCache : gmap string Caps;
  _extCache : gmap string (gmap string (list jsval))
}.

Definition new : t := {| _capsCache := ∅; _extCache := ∅ |}.

(** [getCapabilities(node, callback)]: the value handed to the callback. *)
Definition getCapabilities (node : string) (c : t) : option Caps :=
  _capsCache c !! node.

Definition saveCapabilities (node : string) (caps : Caps) (c : t) : t :=
  {| _capsCache := <[node := caps]> (_capsCache c); _extCache := _extCache c |}.

(** [getExtensions(node, exts, callback)]: the cached extensions and the
    list of uncached ones, as handed to the callback. *)
Definition getExtensions (node : string) (exts : list string) (c : t)
  : gmap string (list jsval) * list string :=
  let extCache := default ∅ (_extCache c !! node) in
  foldl (λ '(cached, notCached) ext,
           match extCache !! ext with
           | Some fs => (<[ext := fs]> cached, notCached)
           | None => (cached, notCached ++ [ext])
           end)
        (∅, []) exts.

Definition saveExtension (node ext : string) (features : list jsval) (c : t) : t :=
  {| _capsCache := _capsCache c;
     _extCache := <[node := <[ext := features]> (default ∅ (_extCache c !! node))]>
                    (_extCache c) |}.

End MemoryCache.

(** ** lib/middleware/capabilities.js *)
Module Handler.
Import CapabilitiesParser.

(** A presence stanza as the middleware reads it: [stanza.from] and
    [stanza.caps] (set by the parser, [undefined] otherwise). Sending on
    [stanza.connection] is logged in [sent]. *)
Record Presence := mkPresence {
  from : string;
  caps : option PCaps
}.

(** An IQ stanza as the middleware reads it: [stanza.attrs.id] and
    [stanza.capabilities]. *)
Record IQ := mkIQ {
  id : string;
  capabilities : option Caps
}.

Inductive Stanza :=
  | SPresence (stanza : Presence)
  | SIq (stanza : IQ)
  | SOther.

(** The [extraData] of a request: [{ type: 'caps' }] or
    [{ type: 'ext', ext: ext }]. *)
Inductive ReqType :=
  | TCaps
  | TExt (ext : string).

#[global] Instance ReqType_eq_dec : EqDecision ReqType.
Proof. solve_decision. Defined.

(** An entry of [_iqRequests]. *)
Record Request := mkRequest {
  type : ReqType;
  r_node : option string;
  r_ver : option string;
  fullNode : string
}.

(** An entry of [_pending]. *)
Record PendingCaps := mkPendingCaps {
  p_node : option string;
  p_ver : option string;
  buddies : list string
}.

(** References into the two heaps. *)
Abbreviation buddy_ref := nat.
Abbreviation array_ref := nat.

(** A pending-buddy object [{ jid, pendingExts, originalPresence }];
    [pendingExts] holds references to arrays of [_pendingExt]. *)
Record Buddy := mkBuddy {
  jid : string;
  pendingExts : list array_ref;
  originalPresence : Presence
}.

(** An outgoing [<iq type='get'/>] with its disco#info query node. *)
Record Query := mkQuery {
  q_to : string;
  q_id : string;
  q_node : string
}.

(** One [this.emit('capabilities', presence.from, mainCaps)]; the log keeps
    the presence the event was raised for. *)
Record Event := mkEvent {
  ev_presence : Presence;
  ev_caps : Caps
}.

Definition ev_jid (e : Event) : string := from (ev_presence e).

(** The [Handler] instance, the heaps of the objects it shares by
    reference, and the two logs. [_cache] may hold [undefined] under a key
    (a response without capabilities is stored as it is). *)
Record Handler := mkHandler {
  _cache : gmap string (option Caps);
  _extCache : gmap string (gmap string (list jsval));
  _pending : gmap string PendingCaps;
  _pendingExt : gmap string (gmap string array_ref);
  _pendingBuddies : gmap string buddy_ref;
  _iqRequests : gmap string Request;
  _iqCount : nat;
  buddyHeap : list Buddy;
  arrayHeap : list (list buddy_ref);
  sent : list Query;
  emitted : list Event
}.

Definition new : Handler :=
  {| _cache := ∅; _extCache := ∅; _pending := ∅; _pendingExt := ∅;
     _pendingBuddies := ∅; _iqRequests := ∅; _iqCount := 0;
     buddyHeap := []; arrayHeap := []; sent := []; emitted := [] |}.

Definition set_cache (f : gmap string (option Caps) → gmap string (option Caps))
  (s : Handler) : Handler :=
  mkHandler (f (_cache s)) (_extCache s) (_pending s) (_pendingExt s)
    (_pendingBuddies s) (_iqRequests s) (_iqCount s) (buddyHeap s) (arrayHeap s)
    (sent s) (emitted s).
Definition set_extCache
  (f : gmap string (gmap string (list jsval)) → gmap string (gmap string (list jsval)))
  (s : Handler) : Handler :=
  mkHandler (_cache s) (f (_extCache s)) (_pending s) (_pendingExt s)
    (_pendingBuddies s) (_iqRequests s) (_iqCount s) (buddyHeap s) (arrayHeap s)
    (sent s) (emitted s).
Definition set_pending (f : gmap string PendingCaps → gmap string PendingCaps)
  (s : Handler) : Handler :=
  mkHandler (_cache s) (_extCache s) (f (_pending s)) (_pendingExt s)
    (_pendingBuddies s) (_iqRequests s) (_iqCount s) (buddyHeap s) (arrayHeap s)
    (sent s) (emitted s).
Definition set_pendingExt
  (f : gmap string (gmap string array_ref) → gmap string (gmap string array_ref))
  (s : Handler) : Handler :=
  mkHandler (_cache s) (_extCache s) (_pending s) (f (_pendingExt s))
    (_pendingBuddies s) (_iqRequests s) (_iqCount s) (buddyHeap s) (arrayHeap s)
    (sent s) (emitted s).
Definition set_pendingBuddies (f : gmap string buddy_ref → gmap string buddy_ref)
  (s : Handler) : Handler :=
  mkHandler (_cache s) (_extCache s) (_pending s) (_pendingExt s)
    (f (_pendingBuddies s)) (_iqRequests s) (_iqCount s) (buddyHeap s) (arrayHeap s)
    (sent s) (emitted s).
Definition set_iqRequests (f : gmap string Request → gmap string Request)
  (s : Handler) : Handler :=
  mkHandler (_cache s) (_extCache s) (_pending s) (_pendingExt s)
    (_pendingBuddies s) (f (_iqRequests s)) (_iqCount s) (buddyHeap s) (arrayHeap s)
    (sent s) (emitted s).
Definition set_iqCount (f : nat → nat) (s : Handler) : Handler :=
  mkHandler (_cache s) (_extCache s) (_pending s) (_pendingExt s)
    (_pendingBuddies s) (_iqRequests s) (f (_iqCount s)) (buddyHeap s) (arrayHeap s)
    (sent s) (emitted s).
Definition set_buddyHeap (f : list Buddy → list Buddy) (s : Handler) : Handler :=
  mkHandler (_cache s) (_extCache s) (_pending s) (_pendingExt s)
    (_pendingBuddies s) (_iqRequests s) (_iqCount s) (f (buddyHeap s)) (arrayHeap s)
    (sent s) (emitted s).
Definition set_arrayHeap (f : list (list buddy_ref) → list (list buddy_ref))
  (s : Handler) : Handler :=
  mkHandler (_cache s) (_extCache s) (_pending s) (_pendingExt s)
    (_pendingBuddies s) (_iqRequests s) (_iqCount s) (buddyHeap s) (f (arrayHeap s))
    (sent s) (emitted s).
Definition set_sent (f : list Query → list Query) (s : Handler) : Handler :=
  mkHandler (_cache s) (_extCache s) (_pending s) (_pendingExt s)
    (_pendingBuddies s) (_iqRequests s) (_iqCount s) (buddyHeap s) (arrayHeap s)
    (f (sent s)) (emitted s).
Definition set_emitted (f : list Event → list Event) (s : Handler) : Handler :=
  mkHandler (_cache s) (_extCache s) (_pending s) (_pendingExt s)
    (_pendingBuddies s) (_iqRequests s) (_iqCount s) (buddyHeap s) (arrayHeap s)
    (sent s) (f (emitted s)).

(** *** The handler monad *)

(** How a call can stop early. [Dangling] is not a JS exception: it marks a
    reference with no object behind it, which no JS state has (and no state
    reached from [new] either, see [Inv]). *)
Inductive JsError :=
  | TypeError
  | SyntaxError
  | Dangling.

Inductive outcome (A : Type) :=
  | Ret (a : A)
  | Throw (e : JsError).
Arguments Ret {A} a.
Arguments Throw {A} e.

Definition M (A : Type) : Type := Handler → outcome A * Handler.

Definition ret {A} (a : A) : M A := λ s, (Ret a, s).
Definition throw {A} (e : JsError) : M A := λ s, (Throw e, s).
Definition bind {A B} (m : M A) (k : A → M B) : M B :=
  λ s, match m s with
       | (Ret a, s') => k a s'
       | (Throw e, s') => (Throw e, s')
       end.
Definition gets {A} (f : Handler → A) : M A := λ s, (Ret (f s), s).
Definition modify (f : Handler → Handler) : M unit := λ s, (Ret tt, f s).

Notation "'do' x <- c ; k" := (bind c (λ x, k))
  (at level 10, x name, c at level 100, k at level 200).
Notation "'run' c ; k" := (bind c (λ _, k))
  (at level 10, c at level 100, k at level 200).

(** [l.forEach(f)]; an exception in [f] ends the loop. *)
Fixpoint forEach {A} (f : A → M unit) (l : list A) : M unit :=
  match l with
  | [] => ret tt
  | x :: l' => run f x ; forEach f l'
  end.

(** Reading a property of a value that may be [undefined]. *)
Definition defined {A} (o : option A) : M A :=
  match o with
  | Some a => ret a
  | None => throw TypeError
  end.

Definition derefBuddy (l : buddy_ref) : M Buddy :=
  λ s, match buddyHeap s !! l with
       | Some b => (Ret b, s)
       | None => (Throw Dangling, s)
       end.

Definition derefArray (a : array_ref) : M (list buddy_ref) :=
  λ s, match arrayHeap s !! a with
       | Some bs => (Ret bs, s)
       | None => (Throw Dangling, s)
       end.

(** A new object literal: stored at the next free reference. *)
Definition allocBuddy (b : Buddy) : M buddy_ref :=
  λ s, (Ret (length (buddyHeap s)), set_buddyHeap (λ h, h ++ [b]) s).

Definition allocArray (bs : list buddy_ref) : M array_ref :=
  λ s, (Ret (length (arrayHeap s)), set_arrayHeap (λ h, h ++ [bs]) s).

(** [caps.node + '#' + caps.ver] *)
Definition fullNodeOf (caps : PCaps) : string :=
  str (pc_node caps) +:+ "#" +:+ str (pc_ver caps).

(** Truthiness of [this._cache[fullNode]]. *)
Definition cached (s : Handler) (fullNode : string) : option Caps :=
  mjoin (_cache s !! fullNode).

(** Truthiness of
    [this._extCache[fullNode] && this._extCache[fullNode][ext]]: a feature
    array is truthy even when empty, and so is a member inherited from
    [Object.prototype], once [this._extCache[fullNode]] exists. *)
Definition readsCached (s : Handler) (fullNode ext : string) : bool :=
  match _extCache s !! fullNode with
  | Some exts => match get exts ext with
                 | Absent => false
                 | _ => true
                 end
  | None => false
  end.

(** [a.concat(x)]: the elements of an array [x], or [x] itself when it is
    not an array ([undefined], or an inherited member). *)
Definition concat (a : list jsval) (x : slot (list jsval)) : list jsval :=
  match x with
  | Own b => a ++ b
  | Inherited v => a ++ [v]
  | Absent => a ++ [JUndefined]
  end.

(** The loop of [_emitCapabilitiesEvent] over [caps.ext]; [None] is the
    TypeError of reading [this._extCache[fullNode][ext]] when
    [this._extCache[fullNode]] is [undefined]. *)
Fixpoint addExtensions (exts : option (gmap string (list jsval)))
  (raw : list jsval) (ext : list string) : option (list jsval) :=
  match ext with
  | [] => Some raw
  | e :: ext' =>
      match exts with
      | Some m => addExtensions exts (concat raw (get m e)) ext'
      | None => None
      end
  end.

(** [_emitCapabilitiesEvent(presence)]. [deepClone] of an [undefined] cache
    entry is [JSON.parse(undefined)], a SyntaxError. *)
Definition _emitCapabilitiesEvent (presence : Presence) : M unit :=
  do caps <- defined (caps presence) ;
  let fullNode := fullNodeOf caps in
  do entry <- gets (λ s, cached s fullNode) ;
  match entry with
  | None => throw SyntaxError
  | Some entry =>
      let mainCaps := Util.deepClone entry in
      do exts <- gets (λ s, _extCache s !! fullNode) ;
      do raw <- match pc_ext caps with
                | Some ext => defined (addExtensions exts (rawFeatures mainCaps) ext)
                | None => ret (rawFeatures mainCaps)
                end ;
      let raw := Util.removeDuplicates raw in
      modify (set_emitted (λ l, l ++
        [ {| ev_presence := presence;
             ev_caps := {| node := node mainCaps;
                           rawFeatures := raw;
                           features := parseCommonFeatures raw;
                           clientName := clientName mainCaps |} |} ]))
  end.

(** [_emitEventIfFullyLoaded(jid)] *)
Definition _emitEventIfFullyLoaded (jid : string) : M unit :=
  do ref <- gets (λ s, _pendingBuddies s !! jid) ;
  do ref <- defined ref ;
  do pendingBuddy <- derefBuddy ref ;
  let presence := originalPresence pendingBuddy in
  do caps <- defined (caps presence) ;
  let fullCapsNode := fullNodeOf caps in
  do entry <- gets (λ s, cached s fullCapsNode) ;
  if bool_decide (is_Some entry) && bool_decide (length (pendingExts pendingBuddy) = 0)
  then _emitCapabilitiesEvent presence
  else ret tt.

(** ['caps-' + this._iqCount] *)
Definition requestId (count : nat) : string := "caps-" +:+ pretty count.

(** [_sendDiscoQuery(stanza, node, extraData)]. Every caller has read
    [stanza.caps] before the call. *)
Definition _sendDiscoQuery (stanza : Presence) (node : string) (extraData : ReqType)
  : M string :=
  run modify (set_iqCount S) ;
  do count <- gets _iqCount ;
  let id := requestId count in
  do caps <- defined (caps stanza) ;
  run modify (set_iqRequests
        <[id := {| type := extraData;
                   r_node := pc_node caps;
                   r_ver := pc_ver caps;
                   fullNode := fullNodeOf caps |}]>) ;
  run modify (set_sent (λ l, l ++ [ {| q_to := from stanza; q_id := id; q_node := node |} ])) ;
  ret id.

(** [_getExtensionFromPresence(stanza, ext)]; it is only called right after
    [_handlePresence] stored the buddy's record and made sure that
    [this._pendingExt[fullNode]] exists. For a name inherited from
    [Object.prototype] the test [!this._pendingExt[fullNode][ext]] fails, so
    no query is sent, and [this._pendingExt[fullNode][ext].push] is then
    [undefined]: calling it is the TypeError of the second read below.
    Were [pendingBuddy] undefined, JS would push it on the array and then
    throw on [pendingBuddy.pendingExts]; here the TypeError comes before
    the push, the arrays holding references only. *)
Definition _getExtensionFromPresence (stanza : Presence) (ext : string) : M unit :=
  do caps <- defined (caps stanza) ;
  let fullNode := fullNodeOf caps in
  do pendingBuddy <- gets (λ s, _pendingBuddies s !! from stanza) ;
  do exts <- gets (λ s, _pendingExt s !! fullNode) ;
  do exts <- defined exts ;
  run match get exts ext with
      | Absent =>
          do a <- allocArray [] ;
          run modify (set_pendingExt (alter <[ext := a]> fullNode)) ;
          run _sendDiscoQuery stanza (str (pc_node caps) +:+ "#" +:+ ext) (TExt ext) ;
          ret tt
      | _ => ret tt
      end ;
  do a <- gets (λ s, _pendingExt s !! fullNode ≫= (.!! ext)) ;
  do a <- defined a ;
  do pendingBuddy <- defined pendingBuddy ;
  run derefArray a ;
  run modify (set_arrayHeap (alter (λ bs, bs ++ [pendingBuddy]) a)) ;
  run derefBuddy pendingBuddy ;
  modify (set_buddyHeap (alter
    (λ b, {| jid := jid b;
             pendingExts := pendingExts b ++ [a];
             originalPresence := originalPresence b |}) pendingBuddy)).

(** [_getCapabilitiesFromPresence(stanza)] *)
Definition _getCapabilitiesFromPresence (stanza : Presence) : M unit :=
  do caps <- defined (caps stanza) ;
  let fullNode := fullNodeOf caps in
  do p <- gets (λ s, _pending s !! fullNode) ;
  run match p with
      | None =>
          run modify (set_pending
                <[fullNode := {| p_node := pc_node caps;
                                 p_ver := pc_ver caps;
                                 buddies := [] |}]>) ;
          run _sendDiscoQuery stanza fullNode TCaps ;
          ret tt
      | Some _ => ret tt
      end ;
  modify (set_pending (alter
    (λ p, {| p_node := p_node p; p_ver := p_ver p;
             buddies := buddies p ++ [from stanza] |}) fullNode)).

(** [_handlePresence(stanza)] *)
Definition _handlePresence (stanza : Presence) : M unit :=
  match caps stanza with
  | None => ret tt
  | Some caps =>
      let fullNode := fullNodeOf caps in
      do uncachedExts <- gets (λ s,
        match pc_ext caps with
        | Some ext => filter (λ e, readsCached s fullNode e = false) ext
        | None => []
        end) ;
      do entry <- gets (λ s, cached s fullNode) ;
      if bool_decide (is_Some entry) && bool_decide (length uncachedExts = 0)
      then _emitCapabilitiesEvent stanza
      else
        do ref <- allocBuddy {| jid := from stanza;
                                pendingExts := [];
                                originalPresence := stanza |} ;
        run modify (set_pendingBuddies <[from stanza := ref]>) ;
        run (if bool_decide (is_Some entry) then ret tt
             else _getCapabilitiesFromPresence stanza) ;
        if bool_decide (0 < length uncachedExts)
        then
          do exts <- gets (λ s, _pendingExt s !! fullNode) ;
          run match exts with
              | None => modify (set_pendingExt <[fullNode := ∅]>)
              | Some _ => ret tt
              end ;
          forEach (λ ext, _getExtensionFromPresence stanza ext) uncachedExts
        else ret tt
  end.

(** [_handleIQExt(stanza, request)], for a request of type ['ext'].
    [request.ext] is an extension that a query was sent for: it is never
    the name of a member of [Object.prototype], for which
    [_getExtensionFromPresence] sends none (see [ext_requests_pending]),
    so [this._pendingExt[fullNode][request.ext]] reads an entry of the
    object's own or [undefined]. *)
Definition _handleIQExt (stanza : IQ) (request : Request) (ext : string) : M unit :=
  let caps := capabilities stanza in
  let fullNode := fullNode request in
  do exts <- gets (λ s, _pendingExt s !! fullNode) ;
  do exts <- defined exts ;
  let pendingExt := exts !! ext in
  do cache <- gets (λ s, _extCache s !! fullNode) ;
  run match cache with
      | None => modify (set_extCache <[fullNode := ∅]>)
      | Some _ => ret tt
      end ;
  do caps <- defined caps ;
  run modify (set_extCache (alter <[ext := rawFeatures caps]> fullNode)) ;
  do pendingExt <- defined pendingExt ;
  do waiting <- derefArray pendingExt ;
  run forEach (λ buddy,
        run derefBuddy buddy ;
        run modify (set_buddyHeap (alter
              (λ b, {| jid := jid b;
                       pendingExts := splice_indexOf pendingExt (pendingExts b);
                       originalPresence := originalPresence b |}) buddy)) ;
        do b <- derefBuddy buddy ;
        _emitEventIfFullyLoaded (jid b)) waiting ;
  modify (set_pendingExt (alter (delete ext) fullNode)).

(** [_handleIQCaps(stanza, request)] *)
Definition _handleIQCaps (stanza : IQ) (request : Request) : M unit :=
  let caps := capabilities stanza in
  let node := fullNode request in
  run modify (set_cache <[node := caps]>) ;
  do p <- gets (λ s, _pending s !! node) ;
  match p with
  | Some p =>
      run forEach _emitEventIfFullyLoaded (buddies p) ;
      modify (set_pending (delete node))
  | None => ret tt
  end.

(** [this._iqRequests[id]] as [_handleIQ] uses it. A member inherited
    from [Object.prototype] is truthy; its [type] is not ['ext'] and its
    [node], [ver] and [fullNode] are [undefined], which as a key reads
    ['undefined']. *)
Definition asRequest (x : slot Request) : option Request :=
  match x with
  | Own request => Some request
  | Inherited _ => Some {| type := TCaps; r_node := None; r_ver := None;
                           fullNode := "undefined" |}
  | Absent => None
  end.

(** [_handleIQ(stanza)]; [delete this._iqRequests[id]] does nothing when
    the object has no property [id] of its own. *)
Definition _handleIQ (stanza : IQ) : M unit :=
  do request <- gets (λ s, asRequest (get (_iqRequests s) (id stanza))) ;
  match request with
  | None => ret tt
  | Some request =>
      run match type request with
          | TExt ext => _handleIQExt stanza request ext
          | TCaps => _handleIQCaps stanza request
          end ;
      modify (set_iqRequests (delete (id stanza)))
  end.

(** The middleware function returned by [capabilities(fn)]. *)
Definition capabilities_mw (stanza : Stanza) : M unit :=
  match stanza with
  | SPresence stanza => _handlePresence stanza
  | SIq stanza => _handleIQ stanza
  | SOther => ret tt
  end.

(** The handler after a stanza went through the middleware; an exception
    leaves the instance as it was when it was raised. *)
Definition step (s : Handler) (stanza : Stanza) : Handler :=
  (capabilities_mw stanza s).2.

Definition run_stanzas (stanzas : list Stanza) (s : Handler) : Handler :=
  foldl step s stanzas.

(** The states the middleware can be in: those reached from a fresh
    instance by any sequence of stanzas. *)
Definition reachable (s : Handler) : Prop :=
  ∃ stanzas, s = run_stanzas stanzas new.

(** *** Specifications of handlers *)

(** [wp m Q E s]: run from [s], [m] returns with [Q] or throws with [E]. *)
Definition wp {A} (m : M A) (Q : A → Handler → Prop)
  (E : JsError → Handler → Prop) (s : Handler) : Prop :=
  match m s with
  | (Ret a, s') => Q a s'
  | (Throw e, s') => E e s'
  end.

(** [preserves R m]: the final state of [m], returned or thrown from, is
    related to the initial one by the preorder [R]. *)
Definition preserves {A} (R : relation Handler) (m : M A) : Prop :=
  ∀ s, R s (m s).2.

End Handler.

(** ** The merge path of [_emitCapabilitiesEvent], by reference

    [Handler] keeps capability records by value. The merge path is the one
    place where the middleware writes into such records ([removeDuplicates]
    splices in place; [rawFeatures] and [features] of [mainCaps] are
    assigned), so it is modelled once more over a store of objects and
    arrays, where the caches hold references. *)
Module MergeRef.
Import CapabilitiesParser.

Abbreviation ref := nat.

(** A capability object; [rawFeatures] is a reference to an array. *)
Record CapsObj := mkCapsObj {
  o_node : option string;
  o_rawFeatures : ref;
  o_features : gmap string bool;
  o_clientName : option string
}.

Record Store := mkStore {
  objects : list CapsObj;
  arrays : list (list jsval)
}.

(** The capability record an object stands for. *)
Definition view (st : Store) (o : ref) : option Caps :=
  obj ← objects st !! o;
  raw ← arrays st !! o_rawFeatures obj;
  Some {| node := o_node obj; rawFeatures := raw;
          features := o_features obj; clientName := o_clientName obj |}.

(** [deepClone(data)]: a new object with a new array. *)
Definition deepClone (data : ref) (st : Store) : option (ref * Store) :=
  obj ← objects st !! data;
  raw ← arrays st !! o_rawFeatures obj;
  Some (length (objects st),
        {| objects := objects st
                      ++ [ {| o_node := o_node obj;
                              o_rawFeatures := length (arrays st);
                              o_features := o_features obj;
                              o_clientName := o_clientName obj |} ];
           arrays := arrays st ++ [Util.json_elem <$> raw] |}).

(** [a.concat(x)]: a new array. *)
Definition concat (a : ref) (x : slot ref) (st : Store) : option (ref * Store) :=
  l ← arrays st !! a;
  l' ← match x with
       | Own b => arrays st !! b
       | Inherited v => Some [v]
       | Absent => Some [JUndefined]
       end;
  Some (length (arrays st),
        {| objects := objects st; arrays := arrays st ++ [l ++ l'] |}).

(** [data.splice(i, 1)] *)
Definition splice (data : ref) (i : nat) (st : Store) : Store :=
  {| objects := objects st; arrays := alter (delete i) data (arrays st) |}.

(** [removeDuplicates(data)], in place. *)
Fixpoint removeDuplicates_loop (n : nat) (data : ref) (seen : gset string)
  (st : Store) : Store :=
  match n with
  | 0 => st
  | S i =>
      match arrays st !! data ≫= (.!! i) with
      | Some x =>
          if decide (toKey x ∈ seen)
          then removeDuplicates_loop i data seen (splice data i st)
          else removeDuplicates_loop i data ({[toKey x]} ∪ seen) st
      | None => removeDuplicates_loop i data ({["undefined"]} ∪ seen) st
      end
  end.

Definition removeDuplicates (data : ref) (st : Store) : option Store :=
  l ← arrays st !! data;
  Some (removeDuplicates_loop (length l) data (list_to_set objectPrototype) st).

(** [mainCaps.rawFeatures = a] *)
Definition set_rawFeatures (mainCaps : ref) (a : ref) (st : Store) : Store :=
  {| objects := alter (λ obj, {| o_node := o_node obj; o_rawFeatures := a;
                                 o_features := o_features obj;
                                 o_clientName := o_clientName obj |})
                  mainCaps (objects st);
     arrays := arrays st |}.

(** [mainCaps.features = features] *)
Definition set_features (mainCaps : ref) (features : gmap string bool) (st : Store)
  : Store :=
  {| objects := alter (λ obj, {| o_node := o_node obj;
                                 o_rawFeatures := o_rawFeatures obj;
                                 o_features := features;
                                 o_clientName := o_clientName obj |})
                  mainCaps (objects st);
     arrays := arrays st |}.

(** The loop over [caps.ext]. *)
Fixpoint addExtensions (exts : option (gmap string ref)) (mainCaps : ref)
  (ext : list string) (st : Store) : option Store :=
  match ext with
  | [] => Some st
  | e :: ext' =>
      m ← exts;
      obj ← objects st !! mainCaps;
      '(a, st) ← concat (o_rawFeatures obj) (get m e) st;
      addExtensions exts mainCaps ext' (set_rawFeatures mainCaps a st)
  end.

(** [_emitCapabilitiesEvent(presence)] over the caches [_cache] and
    [_extCache] of references: the object handed to the listeners and the
    store afterwards; [None] for an exception. *)
Definition _emitCapabilitiesEvent (_cache : gmap string ref)
  (_extCache : gmap string (gmap string ref)) (caps : PCaps) (st : Store)
  : option (ref * Store) :=
  let fullNode := Handler.fullNodeOf caps in
  entry ← _cache !! fullNode;
  '(mainCaps, st) ← deepClone entry st;
  st ← match pc_ext caps with
       | Some ext => addExtensions (_extCache !! fullNode) mainCaps ext st
       | None => Some st
       end;
  obj ← objects st !! mainCaps;
  st ← removeDuplicates (o_rawFeatures obj) st;
  raw ← arrays st !! o_rawFeatures obj;
  Some (mainCaps, set_features mainCaps (parseCommonFeatures raw) st).

(** The caches by value, as [Handler] has them. *)
Definition cacheView (st : Store) (_cache : gmap string ref) : gmap string (option Caps) :=
  (λ o, view st o) <$> _cache.

Definition extCacheView (st : Store) (_extCache : gmap string (gmap string ref))
  : gmap string (gmap string (list jsval)) :=
  (λ m : gmap string ref, omap (λ a, arrays st !! a) m) <$> _extCache.

(** Every reference held by the caches points into the store. *)
Definition cachesValid (st : Store) (_cache : gmap string ref)
  (_extCache : gmap string (gmap string ref)) : Prop :=
  (∀ F o, _cache !! F = Some o → is_Some (view st o))
  ∧ (∀ F m e a, _extCache !! F = Some m → m !! e = Some a → is_Some (arrays st !! a)).

(** [st'] extends [st]: what was allocated in [st] is unchanged. *)
Definition extends (st st' : Store) : Prop :=
  objects st `prefix_of` objects st' ∧ arrays st `prefix_of` arrays st'.

(** The state of the merge: [mainCaps] and its array were allocated after
    [st0], and the object reads as [c]. *)
Definition merging (st0 : Store) (mainCaps : ref) (c : Caps) (st : Store) : Prop :=
  extends st0 st
  ∧ length (objects st0) ≤ mainCaps
  ∧ ∃ obj, objects st !! mainCaps = Some obj
           ∧ length (arrays st0) ≤ o_rawFeatures obj
           ∧ arrays st !! o_rawFeatures obj = Some (rawFeatures c)
           ∧ o_node obj = node c ∧ o_features obj = features c
           ∧ o_clientName obj = clientName c.

End MergeRef.

(** * Definitions used by the statements *)

Import CapabilitiesParser Handler.

(** The record [_emitCapabilitiesEvent] hands to the listeners, given the
    cache entry and the raw features [raw] collected from it and from the
    extensions. *)
Definition mergedCaps (entry : Caps) (raw : list jsval) : Caps :=
  {| node := node (Util.deepClone entry);
     rawFeatures := Util.removeDuplicates raw;
     features := parseCommonFeatures (Util.removeDuplicates raw);
     clientName := clientName (Util.deepClone entry) |}.

Definition mergedEvent (presence : Presence) (entry : Caps) (raw : list jsval) : Event :=
  {| ev_presence := presence; ev_caps := mergedCaps entry raw |}.

(** The raw features collected for an announcement: the clone's, followed
    by those of each announced extension. *)
Definition mergeRaw (s : Handler) (pc : PCaps) (entry : Caps) : option (list jsval) :=
  match pc_ext pc with
  | Some ext =>
      addExtensions (_extCache s !! fullNodeOf pc) (rawFeatures (Util.deepClone entry)) ext
  | None => Some (rawFeatures (Util.deepClone entry))
  end.

(** The features of the extension [ext] of [fullNode] are in the cache:
    [this._extCache[fullNode]] has an entry of its own for [ext]. *)
Definition extCached (s : Handler) (fullNode ext : string) : bool :=
  match _extCache s !! fullNode with
  | Some exts => bool_decide (is_Some (exts !! ext))
  | None => false
  end.

(** An announcement is fully cached: its main capabilities and every
    extension it names are in the caches. *)
Definition fullyCached (s : Handler) (presence : Presence) : Prop :=
  ∃ pc, caps presence = Some pc
        ∧ is_Some (cached s (fullNodeOf pc))
        ∧ ∀ ext e, pc_ext pc = Some ext → e ∈ ext → extCached s (fullNodeOf pc) e = true.

(** An announcement none of whose extensions is named like a member of
    [Object.prototype]. *)
Definition plainExts (pc : PCaps) : bool :=
  match pc_ext pc with
  | Some ext => forallb plainKey ext
  | None => true
  end.

(** A stanza that names no member of [Object.prototype], neither as an
    extension of an announcement nor as the id of a response. *)
Definition plainStanza (stanza : Stanza) : bool :=
  match stanza with
  | SPresence stanza =>
      match caps stanza with
      | Some pc => plainExts pc
      | None => true
      end
  | SIq stanza => plainKey (id stanza)
  | SOther => true
  end.

(** The states reached from a fresh instance by such stanzas. *)
Definition reachablePlain (s : Handler) : Prop :=
  ∃ stanzas, forallb plainStanza stanzas = true ∧ s = run_stanzas stanzas new.

(** The waiter entry [_getCapabilitiesFromPresence] appends. *)
Definition addWaiter (jid : string) (p : PendingCaps) : PendingCaps :=
  {| p_node := p_node p; p_ver := p_ver p; buddies := buddies p ++ [jid] |}.

(** The instance after [_getCapabilitiesFromPresence(stanza)]: the query
    is sent if the fingerprint has no pending entry, and the announcer
    waits in any case. *)
Definition afterGetCapabilities (stanza : Presence) (pc : PCaps) (s : Handler) : Handler :=
  match _pending s !! fullNodeOf pc with
  | Some _ => set_pending (alter (addWaiter (from stanza)) (fullNodeOf pc)) s
  | None =>
      set_pending (alter (addWaiter (from stanza)) (fullNodeOf pc))
        (set_sent (λ l, l ++ [ {| q_to := from stanza;
                                  q_id := requestId (S (_iqCount s));
                                  q_node := fullNodeOf pc |} ])
           (set_iqRequests
              <[requestId (S (_iqCount s)) :=
                  {| type := TCaps; r_node := pc_node pc;
                     r_ver := pc_ver pc; fullNode := fullNodeOf pc |}]>
              (set_iqCount S
                 (set_pending
                    <[fullNodeOf pc := {| p_node := pc_node pc;
                                          p_ver := pc_ver pc;
                                          buddies := [] |}]> s))))
  end.

(** The record of a buddy after one more array is pushed on its
    [pendingExts]. *)
Definition addPendingExt (a : array_ref) (b : Buddy) : Buddy :=
  {| jid := jid b; pendingExts := pendingExts b ++ [a];
     originalPresence := originalPresence b |}.

(** Registering buddy [l] in the array [a]. *)
Definition register (l : buddy_ref) (a : array_ref) (s : Handler) : Handler :=
  set_buddyHeap (alter (addPendingExt a) l)
    (set_arrayHeap (alter (λ bs, bs ++ [l]) a) s).

(** The instance after [_getExtensionFromPresence(stanza, ext)] for the
    buddy record [l], [m] being [this._pendingExt[fullNode]]. *)
Definition afterGetExtension (stanza : Presence) (pc : PCaps) (ext : string)
  (l : buddy_ref) (m : gmap string array_ref) (s : Handler) : Handler :=
  match m !! ext with
  | Some a => register l a s
  | None =>
      register l (length (arrayHeap s))
        (set_sent (λ q, q ++ [ {| q_to := from stanza;
                                  q_id := requestId (S (_iqCount s));
                                  q_node := str (pc_node pc) +:+ "#" +:+ ext |} ])
           (set_iqRequests
              <[requestId (S (_iqCount s)) :=
                  {| type := TExt ext; r_node := pc_node pc;
                     r_ver := pc_ver pc; fullNode := fullNodeOf pc |}]>
              (set_iqCount S
                 (set_pendingExt (alter <[ext := length (arrayHeap s)]> (fullNodeOf pc))
                    (set_arrayHeap (λ h, h ++ [[]]) s)))))
  end.

Definition ex_announce (ext : option (list string)) : PCaps :=
  {| pc_node := Some "app"; pc_ver := Some "v1"; pc_hash := None; pc_ext := ext |}.

Definition ex_presence (jid : string) (ext : option (list string)) : Stanza :=
  SPresence {| from := jid; caps := Some (ex_announce ext) |}.

Definition ex_caps (raw : list string) : Caps :=
  {| node := Some "app#v1";
     rawFeatures := JStr <$> raw;
     features := parseCommonFeatures (JStr <$> raw);
     clientName := Some "client" |}.

Definition ex_response (id : string) (raw : list string) : Stanza :=
  SIq {| id := id; capabilities := Some (ex_caps raw) |}.

(** ["app#v1"] is cached: [p0] announced it and the response arrived. *)
Definition ex_main_cached : Handler :=
  run_stanzas [ex_presence "p0" (Some []); ex_response "caps-1" ["jabber:iq:version"]] new.

(** [p1] announced ["app#v1"] with the extension ["ext1"]; both responses
    arrived and [p1] got its event. *)
Definition ex_ext_resolved : Handler :=
  run_stanzas [ ex_presence "p1" (Some ["ext1"]);
                ex_response "caps-1" ["jabber:iq:version"];
                ex_response "caps-2" ["urn:xmpp:bob"] ] new.

(** [p1] announced ["app#v1"] with an extension named like a member of
    [Object.prototype], then [p2] announced ["app#v1"]: one query is out
    and both wait for its response. *)
Definition ex_starved : Handler :=
  run_stanzas [ ex_presence "p1" (Some ["toString"]); ex_presence "p2" (Some []) ] new.

(** An announcement of another fingerprint, without extensions. *)
Definition ex_announce_lib : PCaps :=
  {| pc_node := Some "lib"; pc_ver := Some "v2"; pc_hash := None; pc_ext := Some [] |}.

(** The IQ stanza as it reaches the capabilities middleware: the parser
    middleware ran first ([app.use(capabilitiesParser())] precedes
    [app.use(capabilities(...))]) and set [stanza.capabilities], or left it
    [undefined]. *)
Definition parsed (raw : RawIQ) : IQ :=
  {| id := attrs_id raw; capabilities := CapabilitiesParser.handleIQ raw |}.

(** [p1] announced ["app#v1"] with the extension ["ext1"], nothing being
    cached: the main query is [caps-1], the extension query [caps-2]. *)
Definition ex_ext_outstanding : Handler :=
  step new (ex_presence "p1" (Some ["ext1"])).

Definition ex_error (id : string) : RawIQ :=
  {| attrs_id := id; attrs_type := Some "error";
     query := Some {| qe_node := None; qe_identity := None; qe_features := [] |} |}.

(** Number of occurrences of [x] in [l]. *)
Definition occ `{EqDecision A} (x : A) (l : list A) : nat :=
  length (filter (λ y, y = x) l).

(** The ledger: buddy records, waiter lists and the arrays of
    [_pendingExt]. [todo l e] marks the extensions that a presence being
    handled has still to register for its new record [l]. *)
Record InvH (todo : buddy_ref → string → Prop) (s : Handler) : Prop := mkInvH {
  inv_buddy_ref : ∀ j l,
    _pendingBuddies s !! j = Some l → is_Some (buddyHeap s !! l);
  inv_heap : ∀ l b,
    buddyHeap s !! l = Some b →
    is_Some (caps (originalPresence b)) ∧ is_Some (_pendingBuddies s !! jid b);
  inv_pending : ∀ F p j,
    _pending s !! F = Some p → j ∈ buddies p → is_Some (_pendingBuddies s !! j);
  inv_array : ∀ F m e a,
    _pendingExt s !! F = Some m → m !! e = Some a →
    ∃ arr, arrayHeap s !! a = Some arr
           ∧ ∀ l, l ∈ arr → ∃ b, buddyHeap s !! l = Some b
                                 ∧ (occ l arr ≤ occ a (pendingExts b))%nat;
  inv_array_inj : ∀ F m e F' m' e' a,
    _pendingExt s !! F = Some m → m !! e = Some a →
    _pendingExt s !! F' = Some m' → m' !! e' = Some a →
    F = F' ∧ e = e';
  inv_exts : ∀ l b pc ext e,
    buddyHeap s !! l = Some b → caps (originalPresence b) = Some pc →
    pc_ext pc = Some ext → e ∈ ext →
    extCached s (fullNodeOf pc) e = true
    ∨ (∃ m a, _pendingExt s !! fullNodeOf pc = Some m ∧ m !! e = Some a
              ∧ a ∈ pendingExts b)
    ∨ todo l e
}.

(** The request tracker: ids are fresh, every tracked request has its
    pending entry and targets data that is not cached, and no two tracked
    requests have the same type and fingerprint. *)
Record InvR (s : Handler) : Prop := mkInvR {
  inv_ids : ∀ id r,
    _iqRequests s !! id = Some r → ∃ k, id = requestId k ∧ (k ≤ _iqCount s)%nat;
  inv_req_caps : ∀ id r,
    _iqRequests s !! id = Some r → type r = TCaps →
    is_Some (_pending s !! fullNode r) ∧ cached s (fullNode r) = None;
  inv_req_ext : ∀ id r e,
    _iqRequests s !! id = Some r → type r = TExt e →
    (∃ m, _pendingExt s !! fullNode r = Some m ∧ is_Some (m !! e))
    ∧ extCached s (fullNode r) e = false;
  inv_unique : ∀ id1 id2 r1 r2,
    _iqRequests s !! id1 = Some r1 → _iqRequests s !! id2 = Some r2 →
    type r1 = type r2 → fullNode r1 = fullNode r2 → id1 = id2
}.

(** Every event in the log was raised for a fully cached announcement. *)
Definition InvE (s : Handler) : Prop :=
  ∀ ev, ev ∈ emitted s → fullyCached s (ev_presence ev).

Definition no_todo : buddy_ref → string → Prop := λ _ _, False.

Record Inv (s : Handler) : Prop := mkInv {
  inv_H : InvH no_todo s;
  inv_R : InvR s;
  inv_E : InvE s
}.

(** What [_emitEventIfFullyLoaded] relies on: the record of every pending
    buddy is there, and an empty [pendingExts] means that all the
    announced extensions are cached. *)
Definition emit_ready (s : Handler) : Prop :=
  ∀ j l, _pendingBuddies s !! j = Some l →
    ∃ b pc, buddyHeap s !! l = Some b ∧ caps (originalPresence b) = Some pc
      ∧ (pendingExts b = [] → ∀ ext e, pc_ext pc = Some ext → e ∈ ext →
           extCached s (fullNodeOf pc) e = true).

(** [s'] is [s] with some events appended, all for announcements that are
    fully cached in [s]. *)
Definition emits (s s' : Handler) : Prop :=
  ∃ evs, s' = set_emitted (λ l, l ++ evs) s
         ∧ ∀ ev, ev ∈ evs → fullyCached s (ev_presence ev).

(** The buddy record [l] after [pendingExts.splice(indexOf(a), 1)]. *)
Definition spliceExt (a : array_ref) (b : Buddy) : Buddy :=
  {| jid := jid b; pendingExts := splice_indexOf a (pendingExts b);
     originalPresence := originalPresence b |}.

(** The cache of extensions after [features] are stored for [(F, e)]. *)
Definition storeExt (F e : string) (features : list jsval)
  (cache : gmap string (gmap string (list jsval))) : gmap string (gmap string (list jsval)) :=
  alter <[e := features]> F
    (match cache !! F with Some _ => cache | None => <[F := ∅]> cache end).

(** The instance once the request [id] for [(F, e)] is resolved. *)
Definition resolved (id F e : string) (s : Handler) : Handler :=
  set_iqRequests (delete id) (set_pendingExt (alter (delete e) F) s).

(** While the waiters [rest] of the array [a] are still to be visited,
    each of them has [a] in its [pendingExts] as often as it occurs in
    [rest]. *)
Definition waiting (a : array_ref) (rest : list buddy_ref) (s : Handler) : Prop :=
  ∀ l, l ∈ rest → ∃ b, buddyHeap s !! l = Some b
                       ∧ (occ l rest ≤ occ a (pendingExts b))%nat.

Definition not_live (a : array_ref) (s : Handler) : Prop :=
  ∀ F m e, _pendingExt s !! F = Some m → m !! e ≠ Some a.

(** The invariant of the loop of [_handleIQExt] over the waiters of the
    array [a]. *)
Definition ext_loop (s0 : Handler) (id F e : string) (a : array_ref)
  (rest : list buddy_ref) (s : Handler) : Prop :=
  Inv (resolved id F e s) ∧ waiting a rest s ∧ not_live a (resolved id F e s)
  ∧ _cache s = _cache s0 ∧ _extCache s = _extCache s0 ∧ sent s = sent s0
  ∧ _pendingBuddies s = _pendingBuddies s0 ∧ _iqRequests s = _iqRequests s0
  ∧ _pendingExt s = _pendingExt s0.

(** The extensions of an announcement that are not cached yet. *)
Definition uncachedExts (s : Handler) (pc : PCaps) : list string :=
  match pc_ext pc with
  | Some ext => filter (λ e, extCached s (fullNodeOf pc) e = false) ext
  | None => []
  end.

(** The new record of the announcing peer. *)
Definition newBuddy (stanza : Presence) : Buddy :=
  {| jid := from stanza; pendingExts := []; originalPresence := stanza |}.

Definition addBuddy (stanza : Presence) (s : Handler) : Handler :=
  set_pendingBuddies <[from stanza := length (buddyHeap s)]>
    (set_buddyHeap (λ h, h ++ [newBuddy stanza]) s).

(** The extensions the record [l0] has still to be registered for. *)
Definition todo_of (l0 : buddy_ref) (rest : list string) : buddy_ref → string → Prop :=
  λ l e, l = l0 ∧ e ∈ rest.

(** The invariant of the loop of [_handlePresence] over the uncached
    extensions, [l0] being the new record of the announcing peer. *)
Definition presence_loop (s0 : Handler) (stanza : Presence) (pc : PCaps)
  (l0 : buddy_ref) (rest : list string) (s : Handler) : Prop :=
  InvH (todo_of l0 rest) s ∧ InvR s
  ∧ _pendingBuddies s !! from stanza = Some l0
  ∧ (∃ b, buddyHeap s !! l0 = Some b ∧ originalPresence b = stanza)
  ∧ is_Some (_pendingExt s !! fullNodeOf pc)
  ∧ (∀ e, e ∈ rest → extCached s (fullNodeOf pc) e = false ∧ plainKey e = true)
  ∧ _cache s = _cache s0 ∧ _extCache s = _extCache s0 ∧ emitted s = emitted s0.

(** The instance after the slow path of [_handlePresence] has stored the
    new record and, if needed, asked for the main capabilities. *)
Definition afterRegistration (stanza : Presence) (pc : PCaps) (s : Handler) : Handler :=
  match cached s (fullNodeOf pc) with
  | Some _ => addBuddy stanza s
  | None => afterGetCapabilities stanza pc (addBuddy stanza s)
  end.

Definition announce (pc : PCaps) (jid : string) : Presence :=
  {| from := jid; caps := Some pc |}.

(** The request recorded for the main query of an announcement. *)
Definition mainRequest (pc : PCaps) : Request :=
  {| type := TCaps; r_node := pc_node pc; r_ver := pc_ver pc;
     fullNode := fullNodeOf pc |}.

(** The peers [js] announced [pc] since [s0], where its fingerprint was
    neither cached nor pending: one query is out and they all wait. *)
Record coalesced (s0 : Handler) (pc : PCaps) (js : list string) (s : Handler) : Prop := {
  co_cache : _cache s = _cache s0;
  co_extCache : _extCache s = _extCache s0;
  co_emitted : emitted s = emitted s0;
  co_sent : ∃ j0, head js = Some j0
      ∧ sent s = sent s0 ++ [ {| q_to := j0; q_id := requestId (S (_iqCount s0));
                                 q_node := fullNodeOf pc |} ];
  co_request : _iqRequests s !! requestId (S (_iqCount s0)) = Some (mainRequest pc);
  co_pending : ∃ p, _pending s !! fullNodeOf pc = Some p ∧ buddies p = js;
  co_buddies : ∀ j, j ∈ js →
      ∃ l, _pendingBuddies s !! j = Some l
           ∧ buddyHeap s !! l = Some (newBuddy (announce pc j))
}.

(** Every identity recorded in [_pendingBuddies] of [s] is still recorded
    in [s']. *)
Definition keeps_buddies (s s' : Handler) : Prop :=
  ∀ j, is_Some (_pendingBuddies s !! j) → is_Some (_pendingBuddies s' !! j).

(** [s'] is [s] with events appended to the log; nothing else differs. *)
Definition only_emits (s s' : Handler) : Prop :=
  ∃ evs, s' = set_emitted (λ l, l ++ evs) s.

(** The log of events of [s'] starts with the log of [s]. *)
Definition log_grows (s s' : Handler) : Prop :=
  emitted s `prefix_of` emitted s'.

(** [p1] announces the uncached ["app#v1"] twice, then the response to
    the single query arrives. *)
Definition ex_announced_twice : list Stanza :=
  [ ex_presence "p1" (Some []); ex_presence "p1" (Some []);
    ex_response "caps-1" ["jabber:iq:version"] ].

(** What handling a response with capabilities [c] to the tracked request
    [r] writes: the key is the request's, the value the response's. *)
Definition written (r : Request) (c : Caps) (s s' : Handler) : Prop :=
  match type r with
  | TCaps =>
      _cache s' = <[fullNode r := Some c]> (_cache s) ∧ _extCache s' = _extCache s
  | TExt ext =>
      _cache s' = _cache s
      ∧ _extCache s' = storeExt (fullNode r) ext (rawFeatures c) (_extCache s)
  end.

(** A store with the capabilities of ["app#v1"] and of its extension
    ["ext1"], and the caches that refer to them. *)
Definition ex_store : MergeRef.Store :=
  {| MergeRef.objects :=
       [ {| MergeRef.o_node := Some "app#v1"; MergeRef.o_rawFeatures := 0;
            MergeRef.o_features := parseCommonFeatures [JStr "jabber:iq:version"];
            MergeRef.o_clientName := Some "client" |} ];
     MergeRef.arrays := [ [JStr "jabber:iq:version"];
                          [JStr "urn:xmpp:bob"; JStr "jabber:iq:version"] ] |}.

Definition ex_cache : gmap string MergeRef.ref := {[ "app#v1" := 0 ]}.

Definition ex_extCache : gmap string (gmap string MergeRef.ref) :=
  {[ "app#v1" := {[ "ext1" := 1 ]} ]}.

(** ** Definitions for the further properties *)

(** A value that JSON writes as itself: neither [undefined] nor a
    function. *)
Definition jsonValue (v : jsval) : bool :=
  match v with
  | JUndefined | JFun _ => false
  | _ => true
  end.

(** [this._extCache[node] || {}] *)
Definition extensionsOf (node : string) (c : MemoryCache.t) : gmap string (list jsval) :=
  default ∅ (MemoryCache._extCache c !! node).

(** The record handed to the listeners is well formed: no two raw features
    with the same key, and a features hash that is the one of the raw
    features. *)
Definition wellFormed (ev : Event) : Prop :=
  NoDup (toKey <$> rawFeatures (ev_caps ev))
  ∧ features (ev_caps ev) = parseCommonFeatures (rawFeatures (ev_caps ev)).

(** If the log of [s] holds well-formed records only, so does that of
    [s']. *)
Definition keeps_wellFormed (s s' : Handler) : Prop :=
  Forall wellFormed (emitted s) → Forall wellFormed (emitted s').

(** The ids of the queries sent so far are ['caps-1'], ['caps-2'], ... in
    this order, and every tracked request bears one of them. *)
Definition ids_in_sequence (s : Handler) : Prop :=
  q_id <$> sent s = requestId <$> seq 1 (_iqCount s)
  ∧ ∀ id, is_Some (_iqRequests s !! id) → id ∈ (q_id <$> sent s).

(** If the ids are in sequence in [s], they are in [s']. *)
Definition keeps_ids (s s' : Handler) : Prop :=
  ids_in_sequence s → ids_in_sequence s'.

(** The cached features of the extension [e] of [F]; none when it is not
    cached. *)
Definition extFeatures (s : Handler) (F e : string) : list jsval :=
  default [] (_extCache s !! F ≫= (.!! e)).

(** The raw features of a merged record before the duplicates are removed:
    those of the clone of the main entry, then those of each announced
    extension, in the order of the announcement. *)
Definition mergedRaw (s : Handler) (pc : PCaps) (entry : Caps) : list jsval :=
  rawFeatures (Util.deepClone entry)
  ++ (default [] (pc_ext pc) ≫= extFeatures s (fullNodeOf pc)).

(** [if (!this._pendingExt[fullNode]) this._pendingExt[fullNode] = {}] *)
Definition ensurePendingExt (F : string) (s : Handler) : Handler :=
  match _pendingExt s !! F with
  | Some _ => s
  | None => set_pendingExt <[F := ∅]> s
  end.

(** The instance after the slow path of [_handlePresence] for a presence
    with one uncached extension [e]. *)
Definition slowPath (stanza : Presence) (pc : PCaps) (e : string) (s : Handler) : Handler :=
  afterGetExtension stanza pc e (length (buddyHeap s))
    (default ∅ (_pendingExt s !! fullNodeOf pc))
    (ensurePendingExt (fullNodeOf pc) (afterRegistration stanza pc s)).

(** The request recorded for the query about the extension [e]. *)
Definition extRequest (pc : PCaps) (e : string) : Request :=
  {| type := TExt e; r_node := pc_node pc; r_ver := pc_ver pc;
     fullNode := fullNodeOf pc |}.

(** A stanza as it arrives, before any middleware has looked at it: a
    presence by its [from] and its [<c/>] child, an IQ by what the parser
    reads of it. *)
Inductive RawStanza :=
  | RPresence (from : string) (c : option CElem)
  | RIq (stanza : RawIQ)
  | ROther.

(** The middleware returned by [capabilitiesParser()]: the stanza as the
    next middleware gets it. *)
Definition capabilitiesParser (stanza : RawStanza) : Stanza :=
  match stanza with
  | RPresence from c => SPresence {| from := from; caps := handlePresence c |}
  | RIq stanza => SIq (parsed stanza)
  | ROther => SOther
  end.

(** Every tracked extension request has its fingerprint in [_pendingExt],
    and its extension is not named like a member of [Object.prototype]. *)
Definition ext_requests_pending (s : Handler) : Prop :=
  ∀ id r e, _iqRequests s !! id = Some r → type r = TExt e →
            is_Some (_pendingExt s !! fullNode r) ∧ plainKey e = true.

(** If the tracked extension requests of [s] have their fingerprint in
    [_pendingExt], so have those of [s']. *)
Definition keeps_ext_requests (s s' : Handler) : Prop :=
  ext_requests_pending s → ext_requests_pending s'.

(** [s'] has the caches of [s]. *)
Definition same_stores (s s' : Handler) : Prop :=
  _cache s' = _cache s ∧ _extCache s' = _extCache s.

(** [s'] has the caches and the log of events of [s]. *)
Definition same_caches (s s' : Handler) : Prop :=
  _cache s' = _cache s ∧ _extCache s' = _extCache s ∧ emitted s' = emitted s.

(** Nothing is cached: no capabilities for any fingerprint, no features
    for any extension. *)
Definition nothingCached (s : Handler) : Prop :=
  (∀ F, cached s F = None) ∧ (∀ F e, extCached s F e = false).

(** * Reasoning about handlers *)

Lemma wp_ret {A} (a : A) Q E s : Q a s → wp (ret a) Q E s.
Proof. done. Qed.

Lemma wp_throw {A} e (Q : A → Handler → Prop) E s : E e s → wp (throw e) Q E s.
Proof. done. Qed.

Lemma wp_gets {A} (f : Handler → A) Q E s : Q (f s) s → wp (gets f) Q E s.
Proof. done. Qed.

Lemma wp_modify f Q E s : Q tt (f s) → wp (modify f) Q E s.
Proof. done. Qed.

Lemma wp_bind {A B} (m : M A) (k : A → M B) Q E s :
  wp m (λ a s', wp (k a) Q E s') E s → wp (bind m k) Q E s.
Proof. unfold wp, bind. by destruct (m s) as [[a|e] s']. Qed.

Lemma wp_defined_Some {A} (a : A) Q E s : Q a s → wp (defined (Some a)) Q E s.
Proof. done. Qed.

Lemma wp_defined_None {A} (Q : A → Handler → Prop) E s :
  E TypeError s → wp (defined None) Q E s.
Proof. done. Qed.

Lemma wp_derefBuddy l b Q E s :
  buddyHeap s !! l = Some b → Q b s → wp (derefBuddy l) Q E s.
Proof. intros H HQ. unfold wp, derefBuddy. by rewrite H. Qed.

Lemma wp_derefArray a bs Q E s :
  arrayHeap s !! a = Some bs → Q bs s → wp (derefArray a) Q E s.
Proof. intros H HQ. unfold wp, derefArray. by rewrite H. Qed.

Lemma wp_allocBuddy b Q E s :
  Q (length (buddyHeap s)) (set_buddyHeap (λ h, h ++ [b]) s) →
  wp (allocBuddy b) Q E s.
Proof. done. Qed.

Lemma wp_allocArray bs Q E s :
  Q (length (arrayHeap s)) (set_arrayHeap (λ h, h ++ [bs]) s) →
  wp (allocArray bs) Q E s.
Proof. done. Qed.

Lemma wp_mono {A} (m : M A) (Q Q' : A → Handler → Prop)
  (E E' : JsError → Handler → Prop) s :
  wp m Q' E' s → (∀ a s', Q' a s' → Q a s') → (∀ e s', E' e s' → E e s') →
  wp m Q E s.
Proof. unfold wp. destruct (m s) as [[a|e] s']; auto. Qed.

Lemma wp_forEach {A} (f : A → M unit) (I : list A → Handler → Prop) E l s :
  I l s →
  (∀ x rest s, I (x :: rest) s → wp (f x) (λ _, I rest) E s) →
  wp (forEach f l) (λ _, I []) E s.
Proof.
  intros HI Hf. revert s HI. induction l as [|x l IH]; intros s HI; simpl.
  - by apply wp_ret.
  - apply wp_bind. eapply wp_mono; [by apply Hf| |done].
    intros [] s' HI'. by apply IH.
Qed.

(** What [wp] says about the result of a run. *)
Lemma wp_final {A} (m : M A) (P : Handler → Prop) s :
  wp m (λ _, P) (λ _, P) s → P (m s).2.
Proof. unfold wp. by destruct (m s) as [[a|e] s']. Qed.

Lemma wp_returns {A} (m : M A) (Q : A → Handler → Prop) s :
  wp m Q (λ _ _, False) s → ∃ a, m s = (Ret a, (m s).2) ∧ Q a (m s).2.
Proof. unfold wp. destruct (m s) as [[a|e] s']; [eauto|done]. Qed.

Lemma wp_run_eq {A} (m : M A) s a s' :
  wp m (λ a' s'', a' = a ∧ s'' = s') (λ _ _, False) s → m s = (Ret a, s').
Proof. unfold wp. destruct (m s) as [[a'|e] s'']; [by intros [-> ->]|done]. Qed.

Lemma wp_derefBuddy_case l Q E s :
  (∀ b, buddyHeap s !! l = Some b → Q b s) →
  (buddyHeap s !! l = None → E Dangling s) →
  wp (derefBuddy l) Q E s.
Proof. intros HQ HE. unfold wp, derefBuddy. destruct (_ !! _); auto. Qed.

Lemma wp_derefArray_case a Q E s :
  (∀ bs, arrayHeap s !! a = Some bs → Q bs s) →
  (arrayHeap s !! a = None → E Dangling s) →
  wp (derefArray a) Q E s.
Proof. intros HQ HE. unfold wp, derefArray. destruct (_ !! _); auto. Qed.

(** Projections of an updated instance. *)
Ltac hsimpl :=
  cbn [_cache _extCache _pending _pendingExt _pendingBuddies _iqRequests
       _iqCount buddyHeap arrayHeap sent emitted
       set_cache set_extCache set_pending set_pendingExt set_pendingBuddies
       set_iqRequests set_iqCount set_buddyHeap set_arrayHeap set_sent
       set_emitted] in *.

Ltac wp_step :=
  lazymatch goal with
  | |- wp (bind _ _) _ _ _ => apply wp_bind
  | |- wp (ret _) _ _ _ => apply wp_ret
  | |- wp (throw _) _ _ _ => apply wp_throw
  | |- wp (gets _) _ _ _ => apply wp_gets
  | |- wp (modify _) _ _ _ => apply wp_modify
  | |- wp (defined (Some _)) _ _ _ => apply wp_defined_Some
  | |- wp (defined None) _ _ _ => apply wp_defined_None
  | |- wp (allocBuddy _) _ _ _ => apply wp_allocBuddy
  | |- wp (allocArray _) _ _ _ => apply wp_allocArray
  end.

Ltac wp_run := repeat (wp_step; cbn beta).

Section preserves.
Context (R : relation Handler) `{!PreOrder R}.

Lemma preserves_ret {A} (a : A) : preserves R (ret a).
Proof. intros s. simpl. reflexivity. Qed.

Lemma preserves_throw {A} e : preserves R (throw (A:=A) e).
Proof. intros s. simpl. reflexivity. Qed.

Lemma preserves_gets {A} (f : Handler → A) : preserves R (gets f).
Proof. intros s. simpl. reflexivity. Qed.

Lemma preserves_defined {A} (o : option A) : preserves R (defined o).
Proof. destruct o; [apply preserves_ret | apply preserves_throw]. Qed.

Lemma preserves_derefBuddy l : preserves R (derefBuddy l).
Proof. intros s. unfold derefBuddy. destruct (_ !! _); simpl; reflexivity. Qed.

Lemma preserves_derefArray a : preserves R (derefArray a).
Proof. intros s. unfold derefArray. destruct (_ !! _); simpl; reflexivity. Qed.

Lemma preserves_bind {A B} (m : M A) (k : A → M B) :
  preserves R m → (∀ a, preserves R (k a)) → preserves R (bind m k).
Proof.
  intros Hm Hk s. unfold bind. specialize (Hm s).
  destruct (m s) as [[a|e] s']; simpl in *; [|done].
  etrans; [exact Hm|]. apply Hk.
Qed.

Lemma preserves_forEach {A} (f : A → M unit) (l : list A) :
  (∀ x, preserves R (f x)) → preserves R (forEach f l).
Proof.
  intros Hf. induction l as [|x l IH]; simpl.
  - apply preserves_ret.
  - apply preserves_bind; auto.
Qed.
End preserves.

(** * Reads of objects used as dictionaries *)

Lemma get_own {A} (obj : gmap string A) k a : obj !! k = Some a → get obj k = Own a.
Proof. intros H. unfold get. by rewrite H. Qed.

Lemma get_plain {A} (obj : gmap string A) k :
  plainKey k = true →
  get obj k = match obj !! k with Some a => Own a | None => Absent end.
Proof. intros H. unfold get. by rewrite H. Qed.

Lemma get_absent {A} (obj : gmap string A) k :
  plainKey k = true → obj !! k = None → get obj k = Absent.
Proof. intros Hk H. by rewrite get_plain, H. Qed.

Lemma get_inherited {A} (obj : gmap string A) k :
  plainKey k = false → obj !! k = None → get obj k = Inherited (member k).
Proof. intros Hk H. unfold get. by rewrite H, Hk. Qed.

Lemma readsCached_plain s F e :
  plainKey e = true → readsCached s F e = extCached s F e.
Proof.
  intros He. unfold readsCached, extCached. destruct (_extCache s !! F) as [m|]; [|done].
  rewrite get_plain by done. by destruct (m !! e).
Qed.

Lemma readsCached_own s F e : extCached s F e = true → readsCached s F e = true.
Proof.
  unfold readsCached, extCached, get. destruct (_extCache s !! F) as [m|]; [|done].
  intros [a Ha]%bool_decide_eq_true. by rewrite Ha.
Qed.

Lemma plainExts_elem (ext : list string) e :
  forallb plainKey ext = true → e ∈ ext → plainKey e = true.
Proof.
  intros H He. apply (proj1 (forallb_forall _ _) H). by apply list_elem_of_In.
Qed.

Lemma filter_readsCached s F (ext : list string) :
  forallb plainKey ext = true →
  filter (λ e, readsCached s F e = false) ext
  = filter (λ e, extCached s F e = false) ext.
Proof.
  induction ext as [|e ext IH]; [done|]. cbn [forallb].
  intros [He Hext]%andb_true_iff.
  destruct (decide (extCached s F e = false)) as [Hc|Hc].
  - rewrite !filter_cons_True by (by rewrite ?readsCached_plain). by rewrite IH.
  - rewrite !filter_cons_False by (by rewrite ?readsCached_plain). by rewrite IH.
Qed.

(** * Effects of the handler's functions *)

Lemma addExtensions_is_Some exts raw ext :
  (ext = [] ∨ is_Some exts) → is_Some (addExtensions exts raw ext).
Proof.
  revert raw. induction ext as [|e ext IH]; intros raw H; simpl; [done|].
  destruct H as [|[m ->]]; [done|]. apply IH. eauto.
Qed.

Lemma extCached_true s F e :
  extCached s F e = true → is_Some (_extCache s !! F).
Proof. unfold extCached. destruct (_ !! _); [eauto|done]. Qed.

Lemma mergeRaw_is_Some s pc entry :
  (∀ ext e, pc_ext pc = Some ext → e ∈ ext → extCached s (fullNodeOf pc) e = true) →
  is_Some (mergeRaw s pc entry).
Proof.
  intros H. unfold mergeRaw. destruct (pc_ext pc) as [ext|] eqn:Hext; [|done].
  apply addExtensions_is_Some. destruct ext as [|e ext]; [by left|right].
  eapply extCached_true, H; [done|]. by left.
Qed.

Lemma emitCapabilitiesEvent_wp presence pc entry raw Q E s :
  caps presence = Some pc →
  cached s (fullNodeOf pc) = Some entry →
  mergeRaw s pc entry = Some raw →
  Q tt (set_emitted (λ l, l ++ [mergedEvent presence entry raw]) s) →
  wp (_emitCapabilitiesEvent presence) Q E s.
Proof.
  intros Hc He Hraw HQ. unfold _emitCapabilitiesEvent. rewrite Hc. wp_run.
  rewrite He. wp_run. unfold mergeRaw in Hraw.
  destruct (pc_ext pc); [rewrite Hraw | injection Hraw as <-]; wp_run; exact HQ.
Qed.

Lemma sendDiscoQuery_wp stanza pc node extraData Q E s :
  caps stanza = Some pc →
  Q (requestId (S (_iqCount s)))
    (set_sent (λ l, l ++ [ {| q_to := from stanza;
                              q_id := requestId (S (_iqCount s));
                              q_node := node |} ])
       (set_iqRequests
          <[requestId (S (_iqCount s)) :=
              {| type := extraData; r_node := pc_node pc;
                 r_ver := pc_ver pc; fullNode := fullNodeOf pc |}]>
          (set_iqCount S s))) →
  wp (_sendDiscoQuery stanza node extraData) Q E s.
Proof.
  intros Hc HQ. unfold _sendDiscoQuery. wp_run. rewrite Hc. wp_run. exact HQ.
Qed.

Lemma getCapabilitiesFromPresence_wp stanza pc Q E s :
  caps stanza = Some pc →
  Q tt (afterGetCapabilities stanza pc s) →
  wp (_getCapabilitiesFromPresence stanza) Q E s.
Proof.
  intros Hc HQ. unfold _getCapabilitiesFromPresence. rewrite Hc. wp_run.
  unfold afterGetCapabilities in HQ.
  destruct (_pending s !! fullNodeOf pc); wp_run; [exact HQ|].
  eapply sendDiscoQuery_wp; [done|]. wp_run. exact HQ.
Qed.

Lemma getExtensionFromPresence_wp stanza pc ext l m Q E s :
  (m !! ext = None → plainKey ext = true) →
  caps stanza = Some pc →
  _pendingBuddies s !! from stanza = Some l →
  is_Some (buddyHeap s !! l) →
  _pendingExt s !! fullNodeOf pc = Some m →
  (∀ a, m !! ext = Some a → is_Some (arrayHeap s !! a)) →
  Q tt (afterGetExtension stanza pc ext l m s) →
  wp (_getExtensionFromPresence stanza ext) Q E s.
Proof.
  intros Hplain Hc Hl [b Hb] Hm Ha HQ. unfold _getExtensionFromPresence.
  rewrite Hc. wp_run. rewrite Hm, Hl. wp_run. unfold afterGetExtension in HQ.
  unfold get.
  destruct (m !! ext) as [a|] eqn:He; [|rewrite (Hplain eq_refl)].
  - wp_run. rewrite Hm. cbn. rewrite He. wp_run.
    destruct (Ha a eq_refl) as [bs Hbs].
    eapply wp_derefArray; [done|]. wp_run.
    eapply wp_derefBuddy; [done|]. wp_run. exact HQ.
  - wp_run. eapply sendDiscoQuery_wp; [done|]. wp_run. hsimpl.
    rewrite lookup_alter_eq, Hm. cbn. rewrite lookup_insert_eq. wp_run.
    eapply wp_derefArray; [hsimpl; by apply list_lookup_middle|]. wp_run.
    eapply wp_derefBuddy; [done|]. wp_run. exact HQ.
Qed.

Lemma emitEventIfFullyLoaded_wp jid l b pc Q E s :
  _pendingBuddies s !! jid = Some l →
  buddyHeap s !! l = Some b →
  caps (originalPresence b) = Some pc →
  (∀ entry, cached s (fullNodeOf pc) = Some entry → pendingExts b = [] →
     ∃ raw, mergeRaw s pc entry = Some raw
            ∧ Q tt (set_emitted (λ ev, ev ++ [mergedEvent (originalPresence b) entry raw]) s)) →
  (cached s (fullNodeOf pc) = None ∨ pendingExts b ≠ [] → Q tt s) →
  wp (_emitEventIfFullyLoaded jid) Q E s.
Proof.
  intros Hl Hb Hc Hemit Hskip. unfold _emitEventIfFullyLoaded. wp_run.
  rewrite Hl. wp_run. eapply wp_derefBuddy; [done|]. rewrite Hc. wp_run.
  destruct (cached s (fullNodeOf pc)) as [entry|] eqn:He.
  - destruct (pendingExts b) as [|a exts] eqn:Hp.
    + destruct (Hemit entry eq_refl eq_refl) as (raw & Hraw & HQ).
      rewrite bool_decide_eq_true_2 by eauto. cbn.
      by eapply emitCapabilitiesEvent_wp.
    + rewrite andb_false_intro2 by done. wp_run. apply Hskip. by right.
  - rewrite andb_false_intro1; [|apply bool_decide_eq_false_2; by intros [? ?]].
    wp_run. apply Hskip. by left.
Qed.

(** * Concrete stanzas used in the examples *)

(** * Responses with an unknown correlation id *)

(** C3 (the code at the failing input): a response whose id has no entry
    of its own in [_iqRequests] is ignored as long as the id is not the
    name of a member of [Object.prototype]: the instance stays as it is
    and the handler returns normally. For an id such as ['constructor']
    the read [this._iqRequests[id]] yields the inherited member: the
    response is handled as the answer to a main request whose fingerprint
    is [undefined], and what it carries is written to
    [_cache['undefined']]. *)
Theorem unknown_correlation_id (s : Handler) (stanza : IQ) :
  _iqRequests s !! id stanza = None →
  (plainKey (id stanza) = true → capabilities_mw (SIq stanza) s = (Ret tt, s))
  ∧ (plainKey (id stanza) = false → _pending s !! "undefined" = None →
     capabilities_mw (SIq stanza) s
     = (Ret tt, set_cache <["undefined" := capabilities stanza]> s)).
Proof.
  intros H. split.
  - intros Hplain. cbn. unfold _handleIQ, bind, gets. by rewrite get_absent.
  - intros Hplain Hp. apply wp_run_eq. cbn. unfold _handleIQ. wp_run.
    rewrite get_inherited by done. cbn [asRequest type fullNode].
    unfold _handleIQCaps. cbn [fullNode]. wp_run. hsimpl. rewrite Hp. wp_run.
    split; [done|]. unfold set_iqRequests. hsimpl. by rewrite delete_id.
Qed.

Lemma unknown_correlation_id_witness :
  _iqRequests (step new (ex_presence "p1" (Some []))) !! "constructor" = None
  ∧ capabilities_mw (SIq {| id := "constructor"; capabilities := Some (ex_caps []) |})
      (step new (ex_presence "p1" (Some [])))
    = (Ret tt, set_cache <["undefined" := Some (ex_caps [])]>
                 (step new (ex_presence "p1" (Some []))))
  ∧ capabilities_mw (SIq {| id := "caps-7"; capabilities := Some (ex_caps []) |})
      (step new (ex_presence "p1" (Some [])))
    = (Ret tt, step new (ex_presence "p1" (Some []))).
Proof.
  split; [by vm_compute|]. split.
  - apply (unknown_correlation_id (step new (ex_presence "p1" (Some [])))
             {| id := "constructor"; capabilities := Some (ex_caps []) |});
      by vm_compute.
  - apply (unknown_correlation_id (step new (ex_presence "p1" (Some [])))
             {| id := "caps-7"; capabilities := Some (ex_caps []) |});
      by vm_compute.
Defined.

(** * An announcement with one uncached extension *)

(** An announcement with one extension [e], its main capabilities cached
    and [e] neither cached nor pending for the fingerprint: no event, a
    pending record for the peer, and one query, for the node [node#e]. *)
Lemma handlePresence_one_extension (s : Handler) (pc : PCaps) (e jid : string) :
  plainKey e = true →
  pc_ext pc = Some [e] →
  is_Some (cached s (fullNodeOf pc)) →
  extCached s (fullNodeOf pc) e = false →
  _pendingExt s !! fullNodeOf pc ≫= (.!! e) = None →
  (capabilities_mw (SPresence {| from := jid; caps := Some pc |}) s).1 = Ret tt
  ∧ emitted (step s (SPresence {| from := jid; caps := Some pc |})) = emitted s
  ∧ _pendingBuddies (step s (SPresence {| from := jid; caps := Some pc |})) !! jid
    = Some (length (buddyHeap s))
  ∧ sent (step s (SPresence {| from := jid; caps := Some pc |}))
    = sent s ++ [ {| q_to := jid; q_id := requestId (S (_iqCount s));
                     q_node := str (pc_node pc) +:+ "#" +:+ e |} ]
  ∧ _iqRequests (step s (SPresence {| from := jid; caps := Some pc |}))
      !! requestId (S (_iqCount s))
    = Some {| type := TExt e; r_node := pc_node pc; r_ver := pc_ver pc;
              fullNode := fullNodeOf pc |}.
Proof.
  intros Hplain Hext Hmain Huncached Hpending.
  set (stanza := {| from := jid; caps := Some pc |}).
  set (F := fullNodeOf pc) in *.
  assert (wp (capabilities_mw (SPresence stanza))
            (λ _ s', emitted s' = emitted s
               ∧ _pendingBuddies s' !! jid = Some (length (buddyHeap s))
               ∧ sent s' = sent s ++ [ {| q_to := jid; q_id := requestId (S (_iqCount s));
                                          q_node := str (pc_node pc) +:+ "#" +:+ e |} ]
               ∧ _iqRequests s' !! requestId (S (_iqCount s))
                 = Some {| type := TExt e; r_node := pc_node pc; r_ver := pc_ver pc;
                           fullNode := F |})
            (λ _ _, False) s) as H.
  { cbn [capabilities_mw]. unfold _handlePresence. cbn [caps stanza]. wp_run.
    change (fullNodeOf pc) with F. rewrite Hext.
    rewrite filter_cons_True, filter_nil by (by rewrite ?readsCached_plain).
    rewrite bool_decide_eq_true_2 by done. cbn [length andb bool_decide decide_rel].
    rewrite (bool_decide_eq_false_2 (1 = 0)) by done. wp_run.
    rewrite (bool_decide_eq_true_2 (0 < 1)) by lia. wp_run. hsimpl.
    assert (∀ s1 m,
      _pendingExt s1 !! F = Some m → m !! e = None →
      _pendingBuddies s1 = <[jid := length (buddyHeap s)]> (_pendingBuddies s) →
      buddyHeap s1 = buddyHeap s ++ [ {| jid := jid; pendingExts := [];
                                         originalPresence := stanza |} ] →
      _iqCount s1 = _iqCount s → sent s1 = sent s → emitted s1 = emitted s →
      wp (forEach (λ ext, _getExtensionFromPresence stanza ext) [e])
        (λ _ s', emitted s' = emitted s
           ∧ _pendingBuddies s' !! jid = Some (length (buddyHeap s))
           ∧ sent s' = sent s ++ [ {| q_to := jid; q_id := requestId (S (_iqCount s));
                                      q_node := str (pc_node pc) +:+ "#" +:+ e |} ]
           ∧ _iqRequests s' !! requestId (S (_iqCount s))
             = Some {| type := TExt e; r_node := pc_node pc; r_ver := pc_ver pc;
                       fullNode := F |})
        (λ _ _, False) s1) as Hloop.
    { intros s1 m Hm He Hpb Hheap Hcount Hsent Hemitted. cbn [forEach]. wp_run.
      eapply (getExtensionFromPresence_wp stanza pc e (length (buddyHeap s)) m);
        [done|done| | |done| |].
      - cbn [from stanza]. by rewrite Hpb, lookup_insert_eq.
      - rewrite Hheap. exists {| jid := jid; pendingExts := []; originalPresence := stanza |}.
        by apply list_lookup_middle.
      - intros a Ha. congruence.
      - unfold afterGetExtension. rewrite He. wp_run. unfold register. hsimpl.
        rewrite Hcount, Hsent, Hemitted, Hpb, lookup_insert_eq, lookup_insert_eq.
        done. }
    destruct (_pendingExt s !! F) as [m|] eqn:Hm; wp_run.
    - eapply (Hloop _ m); hsimpl; done.
    - eapply (Hloop _ ∅); hsimpl; first [done | apply lookup_insert_eq]. }
  unfold step. unfold wp in H.
  by destruct (capabilities_mw (SPresence stanza) s) as [[[]|err] s'].
Qed.

(** * The node of a discovery query *)

Lemma extension_query_node_counterexample :
  is_Some (cached ex_main_cached "app#v1")
  ∧ sent (step ex_main_cached (ex_presence "p1" (Some ["ext1"])))
    = [ {| q_to := "p0"; q_id := "caps-1"; q_node := "app#v1" |};
               {| q_to := "p1"; q_id := "caps-2"; q_node := "app#ext1" |} ]
  ∧ _iqRequests (step ex_main_cached (ex_presence "p1" (Some ["ext1"]))) !! "caps-2"
    = Some {| type := TExt "ext1"; r_node := Some "app"; r_ver := Some "v1";
              fullNode := "app#v1" |}
  ∧ "app#ext1" ≠ "app#v1" +:+ "#" +:+ "ext1".
Proof. vm_compute. repeat split; eauto. discriminate. Qed.

(** C5 (amended): the node of an extension query is the announced node URI
    followed by ['#'] and the extension id, without the verification string;
    the request is recorded under the fingerprint [node#ver]. A main query
    asks for the bare fingerprint. So a presence that announces one
    extension, uncached and not pending, of a cached fingerprint sends
    exactly one query, for [node#ext]. The extension id is any that is not
    the name of a member of [Object.prototype]. *)
Theorem query_nodes (s : Handler) (stanza : Presence) (pc : PCaps) :
  caps stanza = Some pc →
  (∀ ext m,
     plainKey ext = true →
     _pendingExt s !! fullNodeOf pc = Some m → m !! ext = None →
     let s' := (_getExtensionFromPresence stanza ext s).2 in
     sent s' = sent s ++ [ {| q_to := from stanza;
                              q_id := requestId (S (_iqCount s));
                              q_node := str (pc_node pc) +:+ "#" +:+ ext |} ]
     ∧ _iqRequests s' !! requestId (S (_iqCount s))
       = Some {| type := TExt ext; r_node := pc_node pc; r_ver := pc_ver pc;
                 fullNode := str (pc_node pc) +:+ "#" +:+ str (pc_ver pc) |})
  ∧ (_pending s !! fullNodeOf pc = None →
     let s' := (_getCapabilitiesFromPresence stanza s).2 in
     sent s' = sent s ++ [ {| q_to := from stanza;
                              q_id := requestId (S (_iqCount s));
                              q_node := str (pc_node pc) +:+ "#" +:+ str (pc_ver pc) |} ]
     ∧ _iqRequests s' !! requestId (S (_iqCount s))
       = Some {| type := TCaps; r_node := pc_node pc; r_ver := pc_ver pc;
                 fullNode := str (pc_node pc) +:+ "#" +:+ str (pc_ver pc) |})
  ∧ (∀ ext,
       plainKey ext = true →
       pc_ext pc = Some [ext] → is_Some (cached s (fullNodeOf pc)) →
       extCached s (fullNodeOf pc) ext = false →
       _pendingExt s !! fullNodeOf pc ≫= (.!! ext) = None →
       sent (step s (SPresence stanza))
       = sent s ++ [ {| q_to := from stanza;
                        q_id := requestId (S (_iqCount s));
                        q_node := str (pc_node pc) +:+ "#" +:+ ext |} ]).
Proof.
  intros Hc. split; [|split].
  3: { intros ext Hplain Hext Hmain Huncached Hpending.
       destruct stanza as [jid caps]. cbn in Hc. subst caps.
       by destruct (handlePresence_one_extension s pc ext jid)
         as (_ & _ & _ & ? & _). }
  - intros ext m Hplain Hm He s'. subst s'. apply wp_final.
    unfold _getExtensionFromPresence. rewrite Hc. wp_run. rewrite Hm. wp_run.
    rewrite get_absent by done. wp_run. eapply sendDiscoQuery_wp; [done|]. wp_run. hsimpl.
    rewrite lookup_alter_eq, Hm. cbn. rewrite lookup_insert_eq. wp_run.
    assert (∀ s', sent s' = sent s ++
                [ {| q_to := from stanza; q_id := requestId (S (_iqCount s));
                     q_node := str (pc_node pc) +:+ "#" +:+ ext |} ] →
              _iqRequests s' !! requestId (S (_iqCount s))
              = Some {| type := TExt ext; r_node := pc_node pc; r_ver := pc_ver pc;
                        fullNode := fullNodeOf pc |} →
              sent s' = sent s ++
                [ {| q_to := from stanza; q_id := requestId (S (_iqCount s));
                     q_node := str (pc_node pc) +:+ "#" +:+ ext |} ]
              ∧ _iqRequests s' !! requestId (S (_iqCount s))
                = Some {| type := TExt ext; r_node := pc_node pc; r_ver := pc_ver pc;
                          fullNode := fullNodeOf pc |}) as Hpost by done.
    destruct (_pendingBuddies s !! from stanza) as [l|]; wp_run;
      [|apply Hpost; hsimpl; [done|apply lookup_insert_eq]].
    eapply wp_derefArray; [hsimpl; by apply list_lookup_middle|]. wp_run.
    apply wp_derefBuddy_case; [intros b Hb|intros Hb]; wp_run;
      (apply Hpost; hsimpl; [done|apply lookup_insert_eq]).
  - intros Hp s'. subst s'. apply wp_final.
    eapply getCapabilitiesFromPresence_wp; [done|].
    unfold afterGetCapabilities. rewrite Hp. hsimpl.
    split; [done|apply lookup_insert_eq].
Qed.

Lemma query_nodes_witness :
  sent (step ex_main_cached (ex_presence "p1" (Some ["ext1"])))
  = sent ex_main_cached
    ++ [ {| q_to := "p1"; q_id := "caps-2"; q_node := "app#ext1" |} ].
Proof.
  apply (proj2 (proj2 (query_nodes ex_main_cached
                         {| from := "p1"; caps := Some (ex_announce (Some ["ext1"])) |}
                         (ex_announce (Some ["ext1"])) eq_refl)) "ext1");
    vm_compute; eauto.
Defined.

(** * Error responses *)

Lemma handleIQ_error raw :
  attrs_type raw = Some "error" → CapabilitiesParser.handleIQ raw = None.
Proof.
  intros H. unfold CapabilitiesParser.handleIQ. rewrite H.
  destruct (query raw); [|done]. by destruct (_ && _).
Qed.

(** A response to a tracked extension request that reaches the
    coordinator without capabilities: the read of [caps.rawFeatures]
    throws, and the request stays as it is. *)
Lemma response_without_capabilities (s : Handler) (iq : IQ) (r : Request) (ext : string) :
  capabilities iq = None →
  _iqRequests s !! id iq = Some r →
  type r = TExt ext →
  is_Some (_pendingExt s !! fullNode r) →
  (capabilities_mw (SIq iq) s).1 = Throw TypeError
  ∧ _pendingExt (step s (SIq iq)) = _pendingExt s
  ∧ _iqRequests (step s (SIq iq)) = _iqRequests s
  ∧ emitted (step s (SIq iq)) = emitted s.
Proof.
  intros Hnone Hr Ht [m Hm].
  assert (wp (capabilities_mw (SIq iq))
            (λ _ _, False)
            (λ e s', e = TypeError ∧ _pendingExt s' = _pendingExt s
                     ∧ _iqRequests s' = _iqRequests s ∧ emitted s' = emitted s) s) as H.
  { cbn. unfold _handleIQ. wp_run. rewrite (get_own _ _ _ Hr). cbn [asRequest]. wp_run. rewrite Ht.
    unfold _handleIQExt. wp_run. rewrite Hm. wp_run. rewrite Hnone.
    destruct (_extCache s !! fullNode r); wp_run; done. }
  unfold step. unfold wp in H.
  destruct (capabilities_mw (SIq iq) s) as [[[]|e] s']; [done|].
  by destruct H as (-> & ? & ? & ?).
Qed.

(** The parser recognises the ids ['caps'] and ['caps-ext-...'] only,
    while the coordinator issues ['caps-1'], ['caps-2'], ...: for a
    response that bears an id of the coordinator the parser returns early,
    whatever the type of the response, and [stanza.capabilities] stays
    undefined. *)
Lemma pretty_N_go_head (x : N) (s : string) :
  (0 < x)%N → ∃ c s', pretty_N_go x s = String c s' ∧ c ≠ "e"%char.
Proof.
  revert s. induction (N.lt_wf_0 x) as [x _ IH]; intros s Hx.
  rewrite pretty_N_go_step by done.
  destruct (decide (0 < x `div` 10)%N) as [Hd|Hd].
  - apply IH; [by apply N.div_lt|done].
  - assert (x `div` 10 = 0)%N as -> by by apply N.le_0_r, N.nlt_ge.
    rewrite pretty_N_go_0.
    eexists _, _. split; [done|]. unfold pretty_N_char. by repeat case_match.
Qed.

Lemma requestId_unrecognised (count : nat) :
  requestId count ≠ "caps" ∧ substring 0 9 (requestId count) ≠ "caps-ext-".
Proof.
  assert (∃ c s', pretty count = String c s' ∧ c ≠ "e"%char) as (c & s' & Heq & Hc).
  { unfold pretty, pretty_nat, pretty, pretty_N. case_decide.
    - by exists "0"%char, EmptyString.
    - apply pretty_N_go_head. destruct count; [done|lia]. }
  unfold requestId. rewrite Heq. split; [done|]. intros H.
  cbv [String.append substring] in H. by injection H as H.
Qed.

Lemma handleIQ_requestId (raw : RawIQ) (count : nat) :
  attrs_id raw = requestId count → CapabilitiesParser.handleIQ raw = None.
Proof.
  intros Hid. unfold CapabilitiesParser.handleIQ. rewrite Hid.
  destruct (query raw); [|done].
  destruct (requestId_unrecognised count) as [H1 H2].
  by rewrite (bool_decide_eq_true_2 _ H1), (bool_decide_eq_true_2 _ H2).
Qed.

(** With this parser in front, a response of any type to an extension
    query of the coordinator therefore ends in the same exception. *)
Lemma parsed_extension_response_throws (s : Handler) (raw : RawIQ) (count : nat)
    (r : Request) (ext : string) :
  attrs_id raw = requestId count →
  _iqRequests s !! attrs_id raw = Some r →
  type r = TExt ext →
  is_Some (_pendingExt s !! fullNode r) →
  (capabilities_mw (SIq (parsed raw)) s).1 = Throw TypeError.
Proof.
  intros Hid Hr Ht Hm.
  by apply (response_without_capabilities s (parsed raw) r ext
              (handleIQ_requestId raw count Hid)).
Qed.

(** C7 (the code at the failing input): an error response to an outstanding
    extension query is not discarded silently. Reading [caps.rawFeatures]
    of the missing capabilities throws a TypeError out of the middleware;
    the pending extension entry and the tracked request both stay. *)
Theorem extension_error_response_throws (s : Handler) (raw : RawIQ) (r : Request)
    (ext : string) :
  attrs_type raw = Some "error" →
  _iqRequests s !! attrs_id raw = Some r →
  type r = TExt ext →
  is_Some (_pendingExt s !! fullNode r) →
  (capabilities_mw (SIq (parsed raw)) s).1 = Throw TypeError
  ∧ _pendingExt (step s (SIq (parsed raw))) = _pendingExt s
  ∧ _iqRequests (step s (SIq (parsed raw))) = _iqRequests s
  ∧ emitted (step s (SIq (parsed raw))) = emitted s.
Proof.
  intros Herr Hr Ht Hm.
  by apply (response_without_capabilities s (parsed raw) r ext (handleIQ_error raw Herr)).
Qed.

Lemma extension_error_response_throws_witness :
  (capabilities_mw (SIq (parsed (ex_error "caps-2"))) ex_ext_outstanding).1
  = Throw TypeError
  ∧ _pendingExt (step ex_ext_outstanding (SIq (parsed (ex_error "caps-2"))))
    = _pendingExt ex_ext_outstanding
  ∧ _iqRequests (step ex_ext_outstanding (SIq (parsed (ex_error "caps-2"))))
    = _iqRequests ex_ext_outstanding
  ∧ emitted (step ex_ext_outstanding (SIq (parsed (ex_error "caps-2"))))
    = emitted ex_ext_outstanding.
Proof.
  apply (extension_error_response_throws ex_ext_outstanding (ex_error "caps-2")
           {| type := TExt "ext1"; r_node := Some "app"; r_ver := Some "v1";
              fullNode := "app#v1" |} "ext1");
    vm_compute; eauto.
Defined.

(** The sibling path: an error response to an outstanding main query is
    discarded without an exception, its pending entry is cleared, no
    capability set is cached and nobody is told. *)
Lemma main_error_response_discarded (s : Handler) (raw : RawIQ) (r : Request)
    (p : PendingCaps) :
  attrs_type raw = Some "error" →
  _iqRequests s !! attrs_id raw = Some r →
  type r = TCaps →
  _pending s !! fullNode r = Some p →
  (∀ j, j ∈ buddies p → ∃ l b pc, _pendingBuddies s !! j = Some l
          ∧ buddyHeap s !! l = Some b ∧ caps (originalPresence b) = Some pc
          ∧ (cached s (fullNodeOf pc) = None ∨ fullNodeOf pc = fullNode r)) →
  capabilities_mw (SIq (parsed raw)) s
  = (Ret tt, set_iqRequests (delete (attrs_id raw))
               (set_pending (delete (fullNode r))
                  (set_cache <[fullNode r := None]> s))).
Proof.
  intros Herr Hr Ht Hp Hb.
  assert (wp (capabilities_mw (SIq (parsed raw)))
            (λ _ s', s' = set_iqRequests (delete (attrs_id raw))
                            (set_pending (delete (fullNode r))
                               (set_cache <[fullNode r := None]> s)))
            (λ _ _, False) s) as H.
  { cbn. unfold _handleIQ. wp_run. cbn.
    rewrite (get_own _ _ _ Hr). cbn [asRequest]. wp_run. rewrite Ht.
    unfold _handleIQCaps. wp_run. hsimpl. rewrite Hp. wp_run. cbn.
    rewrite (handleIQ_error raw Herr).
    eapply wp_mono;
      [apply (wp_forEach _ (λ rest s', s' = set_cache <[fullNode r := None]> s
                                       ∧ ∀ j, j ∈ rest → j ∈ buddies p)
                (λ _ _, False)); [done|] | | done].
    - intros j rest s' [-> Hin].
      destruct (Hb j) as (l & b & pc & Hl & Hh & Hc & Hcached); [apply Hin; by left|].
      eapply emitEventIfFullyLoaded_wp; [done..| |].
      + intros entry He _. exfalso. unfold cached in *. hsimpl.
        destruct Hcached as [Hn | Heq].
        * destruct (decide (fullNode r = fullNodeOf pc)) as [Heq|Hne].
          -- by rewrite Heq, lookup_insert_eq in He.
          -- rewrite lookup_insert_ne in He by done. congruence.
        * by rewrite Heq, lookup_insert_eq in He.
      + intros _. split; [done|]. intros j' Hj'. apply Hin. by right.
    - intros [] s' [-> _]. by wp_run. }
  unfold wp in H.
  destruct (capabilities_mw (SIq (parsed raw)) s) as [[[]|e] s']; [by subst|done].
Qed.

(** * A capabilities element without an ext attribute *)

(** C10: for a [<c/>] element without [ext] attribute the parser announces
    a list of one extension, the empty string; the coordinator then treats
    the empty string as an extension of the peer. Even with the main
    capabilities cached, as long as this extension is neither cached nor
    pending for the fingerprint, the presence takes the slow path: no
    event is emitted, the peer gets a pending record, and one extension
    query for the node [node#] is sent. *)
Theorem missing_ext_attribute (c : CElem) (s : Handler) (jid : string) :
  c_ext c = None →
  is_Some (cached s (str (c_node c) +:+ "#" +:+ str (c_ver c))) →
  extCached s (str (c_node c) +:+ "#" +:+ str (c_ver c)) EmptyString = false →
  _pendingExt s !! (str (c_node c) +:+ "#" +:+ str (c_ver c)) ≫= (.!! EmptyString) = None →
  ∃ pc, handlePresence (Some c) = Some pc
    ∧ pc_ext pc = Some [EmptyString]
    ∧ (capabilities_mw (SPresence {| from := jid; caps := Some pc |}) s).1 = Ret tt
    ∧ emitted (step s (SPresence {| from := jid; caps := Some pc |})) = emitted s
    ∧ _pendingBuddies (step s (SPresence {| from := jid; caps := Some pc |})) !! jid
      = Some (length (buddyHeap s))
    ∧ sent (step s (SPresence {| from := jid; caps := Some pc |}))
      = sent s ++ [ {| q_to := jid; q_id := requestId (S (_iqCount s));
                       q_node := str (c_node c) +:+ "#" |} ]
    ∧ _iqRequests (step s (SPresence {| from := jid; caps := Some pc |}))
        !! requestId (S (_iqCount s))
      = Some {| type := TExt EmptyString; r_node := c_node c; r_ver := c_ver c;
                fullNode := str (c_node c) +:+ "#" +:+ str (c_ver c) |}.
Proof.
  intros Hext Hmain Huncached Hpending.
  eexists. split; [reflexivity|]. rewrite Hext. split; [reflexivity|].
  by apply (handlePresence_one_extension s
              {| pc_node := c_node c; pc_ver := c_ver c; pc_hash := c_hash c;
                 pc_ext := Some (split " " (ext_or_empty None)) |} EmptyString jid).
Qed.

Lemma missing_ext_attribute_witness :
  ∃ pc, handlePresence (Some (mkCElem (Some "app") (Some "v1") None None)) = Some pc
    ∧ pc_ext pc = Some [EmptyString]
    ∧ (capabilities_mw (SPresence {| from := "p1"; caps := Some pc |}) ex_main_cached).1
      = Ret tt
    ∧ emitted (step ex_main_cached (SPresence {| from := "p1"; caps := Some pc |}))
      = emitted ex_main_cached
    ∧ _pendingBuddies (step ex_main_cached (SPresence {| from := "p1"; caps := Some pc |}))
        !! "p1"
      = Some (length (buddyHeap ex_main_cached))
    ∧ sent (step ex_main_cached (SPresence {| from := "p1"; caps := Some pc |}))
      = sent ex_main_cached ++ [ {| q_to := "p1"; q_id := "caps-2"; q_node := "app#" |} ]
    ∧ _iqRequests (step ex_main_cached (SPresence {| from := "p1"; caps := Some pc |}))
        !! "caps-2"
      = Some {| type := TExt EmptyString; r_node := Some "app"; r_ver := Some "v1";
                fullNode := "app#v1" |}.
Proof.
  apply (missing_ext_attribute (mkCElem (Some "app") (Some "v1") None None)
           ex_main_cached "p1"); vm_compute; eauto.
Defined.

(** * The invariant of the coordinator *)

(** ** Frames: each part depends on a few fields only *)

Lemma cached_frame s s' F : _cache s = _cache s' → cached s F = cached s' F.
Proof. unfold cached. by intros ->. Qed.

Lemma extCached_frame s s' F e :
  _extCache s = _extCache s' → extCached s F e = extCached s' F e.
Proof. unfold extCached. by intros ->. Qed.

Lemma fullyCached_frame s s' p :
  _cache s = _cache s' → (∀ F e, extCached s F e = extCached s' F e) →
  fullyCached s p → fullyCached s' p.
Proof.
  intros Hc He (pc & ? & ? & Hx). exists pc. split; [done|].
  rewrite <-(cached_frame s s') by done. split; [done|].
  intros ext e ? ?. rewrite <-He. eauto.
Qed.

Lemma InvH_frame todo s s' :
  _pendingBuddies s = _pendingBuddies s' → buddyHeap s = buddyHeap s' →
  _pending s = _pending s' → _pendingExt s = _pendingExt s' →
  arrayHeap s = arrayHeap s' → (∀ F e, extCached s F e = extCached s' F e) →
  InvH todo s → InvH todo s'.
Proof.
  intros H1 H2 H3 H4 H5 H6 [? ? ? ? ? Hexts].
  constructor; rewrite <-?H1, <-?H2, <-?H3, <-?H4, <-?H5; try done.
  intros l b pc ext e. rewrite <-H6. apply Hexts.
Qed.

Lemma InvR_frame s s' :
  _iqRequests s = _iqRequests s' → _iqCount s = _iqCount s' →
  _pending s = _pending s' → _pendingExt s = _pendingExt s' →
  _cache s = _cache s' → (∀ F e, extCached s F e = extCached s' F e) →
  InvR s → InvR s'.
Proof.
  intros H1 H2 H3 H4 H5 H6 [? ? Hext ?].
  constructor; unfold cached in *;
    rewrite <-?H1, <-?H2, <-?H3, <-?H4, <-?H5; try done.
  intros id r e. rewrite <-H6. apply Hext.
Qed.

Lemma InvE_frame s s' :
  emitted s = emitted s' → _cache s = _cache s' →
  (∀ F e, extCached s F e = extCached s' F e) →
  InvE s → InvE s'.
Proof.
  intros H1 H2 H3 H ev Hev. rewrite <-H1 in Hev.
  eapply fullyCached_frame; eauto.
Qed.

Lemma InvH_todo_mono (todo todo' : buddy_ref → string → Prop) s :
  (∀ l e, todo l e → todo' l e) → InvH todo s → InvH todo' s.
Proof.
  intros Hsub [? ? ? ? ? Hexts]. constructor; try done.
  intros l b pc ext e ????.
  destruct (Hexts l b pc ext e) as [?|[?|?]]; auto.
Qed.

Lemma Inv_new : Inv new.
Proof.
  split; [split|split|]; cbn; try done.
  - intros ev Hev. by apply elem_of_nil in Hev.
Qed.

(** ** Emitting *)

Lemma InvH_emit_ready s' s :
  InvH no_todo s' →
  _pendingBuddies s' = _pendingBuddies s → buddyHeap s' = buddyHeap s →
  _extCache s' = _extCache s →
  emit_ready s.
Proof.
  intros H Hpb Hheap Hext j l Hl. rewrite <-Hpb in Hl. rewrite <-Hheap.
  destruct (inv_buddy_ref _ _ H j l Hl) as [b Hb].
  destruct (inv_heap _ _ H l b Hb) as [[pc Hpc] _].
  exists b, pc. split; [done|]. split; [done|].
  intros Hempty ext e Hx He.
  rewrite <-(extCached_frame s' s) by done.
  destruct (inv_exts _ _ H l b pc ext e Hb Hpc Hx He) as [?|[(m & a & _ & _ & Ha)|[]]];
    [done|]. rewrite Hempty in Ha. by apply elem_of_nil in Ha.
Qed.

Lemma emits_refl s : emits s s.
Proof.
  exists []. split; [|by intros ev ?%elem_of_nil].
  destruct s. unfold set_emitted. cbn. by rewrite app_nil_r.
Qed.

Lemma emits_trans s1 s2 s3 : emits s1 s2 → emits s2 s3 → emits s1 s3.
Proof.
  intros (evs1 & -> & H1) (evs2 & -> & H2). exists (evs1 ++ evs2). split.
  - unfold set_emitted. cbn. by rewrite app_assoc.
  - intros ev [?|?]%elem_of_app; [auto|].
    eapply fullyCached_frame; [| |by apply H2]; done.
Qed.

Lemma emits_emit_ready s s' : emits s s' → emit_ready s → emit_ready s'.
Proof. intros (evs & -> & _) H. exact H. Qed.

Lemma emitEventIfFullyLoaded_emits jid s :
  emit_ready s → is_Some (_pendingBuddies s !! jid) →
  wp (_emitEventIfFullyLoaded jid) (λ _ s', emits s s') (λ _ _, False) s.
Proof.
  intros Hready [l Hl]. destruct (Hready jid l Hl) as (b & pc & Hb & Hpc & Hexts).
  eapply emitEventIfFullyLoaded_wp; [done..| |].
  - intros entry Hentry Hempty.
    destruct (mergeRaw_is_Some s pc entry (Hexts Hempty)) as [raw Hraw].
    exists raw. split; [done|]. eexists. split; [done|].
    intros ev ->%list_elem_of_singleton. exists pc. cbn. eauto.
  - intros _. apply emits_refl.
Qed.

Lemma emit_loop jids s :
  emit_ready s → (∀ j, j ∈ jids → is_Some (_pendingBuddies s !! j)) →
  wp (forEach _emitEventIfFullyLoaded jids) (λ _ s', emits s s') (λ _ _, False) s.
Proof.
  intros Hready Hjids.
  eapply wp_mono;
    [apply (wp_forEach _ (λ rest s', emits s s' ∧ ∀ j, j ∈ rest → j ∈ jids)
              (λ _ _, False)) | |done].
  - split; [apply emits_refl|done].
  - intros j rest s' [Hemits Hrest].
    eapply wp_mono; [apply emitEventIfFullyLoaded_emits| |done].
    + by eapply emits_emit_ready.
    + destruct Hemits as (evs & -> & _). apply Hjids, Hrest. by left.
    + intros [] s'' Hstep. split; [by eapply emits_trans|].
      intros j' Hj'. apply Hrest. by right.
  - by intros [] s' [? _].
Qed.

Lemma InvE_emits s s' : InvE s → emits s s' → InvE s'.
Proof.
  intros HE (evs & -> & Hevs) ev. cbn.
  intros [?|?]%elem_of_app; (eapply fullyCached_frame; [| |eauto]; done).
Qed.

Lemma InvH_emits todo s s' : InvH todo s → emits s s' → InvH todo s'.
Proof. intros H (evs & -> & _). by eapply InvH_frame; [..|exact H]. Qed.

Lemma InvR_emits s s' : InvR s → emits s s' → InvR s'.
Proof. intros H (evs & -> & _). by eapply InvR_frame; [..|exact H]. Qed.

Lemma Inv_emits s s' : Inv s → emits s s' → Inv s'.
Proof.
  intros [] ?. split; eauto using InvH_emits, InvR_emits, InvE_emits.
Qed.

(** ** A response to a main query *)

Lemma handleIQ_caps_effect s stanza r :
  Inv s → _iqRequests s !! id stanza = Some r → type r = TCaps →
  wp (_handleIQ stanza)
    (λ _ s', ∃ s'', emits (set_cache <[fullNode r := capabilities stanza]> s) s''
                    ∧ s' = set_iqRequests (delete (id stanza))
                             (set_pending (delete (fullNode r)) s''))
    (λ _ _, False) s.
Proof.
  intros HI Hr Ht. unfold _handleIQ. wp_run.
  rewrite (get_own _ _ _ Hr). cbn [asRequest]. rewrite Ht.
  unfold _handleIQCaps. wp_run. hsimpl.
  destruct (inv_req_caps _ (inv_R _ HI) _ _ Hr Ht) as [[p Hp] _]. rewrite Hp. wp_run.
  eapply wp_mono; [apply emit_loop| |done].
  - by eapply (InvH_emit_ready s); [apply HI|..].
  - intros j Hj. hsimpl. by eapply (inv_pending _ _ (inv_H _ HI)).
  - intros [] s'' Hemits. wp_run. eauto.
Qed.

Lemma InvH_delete_pending todo F s :
  InvH todo s → InvH todo (set_pending (delete F) s).
Proof.
  intros [? ? Hpending ? ? ?]. constructor; try done.
  hsimpl. intros F' p j [_ Hp]%lookup_delete_Some. eauto.
Qed.

Lemma InvR_caps_response s id r c :
  InvR s → _iqRequests s !! id = Some r → type r = TCaps →
  InvR (set_iqRequests (delete id)
          (set_pending (delete (fullNode r)) (set_cache <[fullNode r := c]> s))).
Proof.
  intros [Hids Hcaps Hext Huniq] Hr Ht.
  constructor; unfold cached, extCached in *; hsimpl.
  - intros id' r' [_ H]%lookup_delete_Some. eauto.
  - intros id' r' [Hne H]%lookup_delete_Some Ht'.
    assert (fullNode r' ≠ fullNode r) as HF.
    { intros HF. apply Hne. eapply Huniq; eauto. congruence. }
    rewrite lookup_delete_ne, lookup_insert_ne by done. eauto.
  - intros id' r' e [_ H]%lookup_delete_Some Ht'. eauto.
  - intros id1 id2 r1 r2 [_ H1]%lookup_delete_Some [_ H2]%lookup_delete_Some. eauto.
Qed.

Lemma fullyCached_cache_insert s F c p :
  cached s F = None → fullyCached s p → fullyCached (set_cache <[F := c]> s) p.
Proof.
  intros Hnone (pc & Hpc & Hmain & Hexts). exists pc. split; [done|]. split; [|done].
  unfold cached in *. hsimpl. rewrite lookup_insert_ne; [done|].
  intros ->. rewrite Hnone in Hmain. by destruct Hmain.
Qed.

Lemma Inv_caps_response s id r c s'' :
  Inv s → _iqRequests s !! id = Some r → type r = TCaps →
  emits (set_cache <[fullNode r := c]> s) s'' →
  Inv (set_iqRequests (delete id) (set_pending (delete (fullNode r)) s'')).
Proof.
  intros [HH HR HE] Hr Ht Hemits.
  destruct (inv_req_caps _ HR _ _ Hr Ht) as [_ Hnone].
  destruct Hemits as (evs & -> & Hevs). split.
  - eapply InvH_frame; [..|apply (InvH_delete_pending _ (fullNode r)), HH]; done.
  - eapply InvR_frame; [..|by apply (InvR_caps_response s id r c)]; done.
  - intros ev. hsimpl. intros [Hev|Hev]%elem_of_app.
    + eapply fullyCached_frame; [..|apply (fullyCached_cache_insert s (fullNode r) c)];
        [done|done|done|by apply HE].
    + eapply fullyCached_frame; [..|by apply Hevs]; done.
Qed.

(** ** Occurrences and [splice] *)

Section occ.
Context `{EqDecision A}.
Implicit Types (x y : A) (l : list A).

Lemma occ_nil x : occ x [] = 0.
Proof. done. Qed.

Lemma occ_cons x y l :
  occ x (y :: l) = (if decide (y = x) then 1 else 0) + occ x l.
Proof.
  unfold occ. destruct (decide (y = x)).
  - by rewrite filter_cons_True.
  - by rewrite filter_cons_False.
Qed.

Lemma occ_app x l1 l2 : occ x (l1 ++ l2) = occ x l1 + occ x l2.
Proof. unfold occ. by rewrite filter_app, length_app. Qed.

Lemma occ_pos x l : 0 < occ x l → x ∈ l.
Proof.
  induction l as [|y l IH]; [rewrite occ_nil; lia|].
  rewrite occ_cons. destruct (decide (y = x)) as [->|]; [by left|].
  right. apply IH. lia.
Qed.

Lemma indexOf_elem x l : x ∈ l → is_Some (indexOf x l).
Proof.
  induction l as [|y l IH]; [by intros ?%elem_of_nil|].
  intros Hin. cbn. destruct (decide (y = x)); [eauto|].
  apply elem_of_cons in Hin as [->|Hin]; [done|].
  destruct (IH Hin) as [i ->]. cbn. eauto.
Qed.

Lemma splice_indexOf_cons_eq x l : splice_indexOf x (x :: l) = l.
Proof. unfold splice_indexOf. cbn. by rewrite decide_True. Qed.

Lemma splice_indexOf_cons_ne x y l :
  y ≠ x → x ∈ l → splice_indexOf x (y :: l) = y :: splice_indexOf x l.
Proof.
  intros Hne Hin. unfold splice_indexOf. cbn. rewrite decide_False by done.
  by destruct (indexOf_elem x l Hin) as [i ->].
Qed.

Lemma occ_splice_eq x l : x ∈ l → occ x (splice_indexOf x l) = occ x l - 1.
Proof.
  induction l as [|y l IH]; [by intros ?%elem_of_nil|]. intros Hin.
  destruct (decide (y = x)) as [->|Hne].
  - rewrite splice_indexOf_cons_eq, occ_cons, decide_True by done. lia.
  - apply elem_of_cons in Hin as [->|Hin]; [done|].
    rewrite splice_indexOf_cons_ne, !occ_cons, decide_False by done. cbn. auto.
Qed.

Lemma occ_splice_ne x y l : x ∈ l → y ≠ x → occ y (splice_indexOf x l) = occ y l.
Proof.
  induction l as [|z l IH]; [by intros ?%elem_of_nil|]. intros Hin Hy.
  destruct (decide (z = x)) as [->|Hne].
  - by rewrite splice_indexOf_cons_eq, occ_cons, decide_False.
  - apply elem_of_cons in Hin as [->|Hin]; [done|].
    rewrite splice_indexOf_cons_ne, !occ_cons by done. by rewrite IH.
Qed.

Lemma elem_of_splice_ne x y l : x ∈ l → y ≠ x → y ∈ l → y ∈ splice_indexOf x l.
Proof.
  induction l as [|z l IH]; [by intros ?%elem_of_nil|]. intros Hin Hy Hyl.
  destruct (decide (z = x)) as [->|Hne].
  - rewrite splice_indexOf_cons_eq. by apply elem_of_cons in Hyl as [->|?].
  - apply elem_of_cons in Hin as [->|Hin]; [done|].
    rewrite splice_indexOf_cons_ne by done.
    apply elem_of_cons in Hyl as [->|?]; [by left|right; auto].
Qed.
End occ.

Lemma list_lookup_alter_Some {A} (f : A → A) (l : list A) i j y :
  alter f i l !! j = Some y →
  (i = j ∧ ∃ x, l !! i = Some x ∧ y = f x) ∨ (i ≠ j ∧ l !! j = Some y).
Proof.
  destruct (decide (i = j)) as [->|Hne].
  - rewrite list_lookup_alter_eq. destruct (l !! j) as [x|]; [|done].
    intros [= <-]. left. eauto.
  - rewrite list_lookup_alter_ne by done. auto.
Qed.

(** ** A response to an extension query *)

Lemma storeExt_lookup F e features cache F' e' :
  (storeExt F e features cache !! F' ≫= (.!! e'))
  = if decide (F = F' ∧ e = e') then Some features else cache !! F' ≫= (.!! e').
Proof.
  unfold storeExt. destruct (decide (F = F')) as [<-|HF].
  - rewrite lookup_alter_eq. destruct (cache !! F) as [m|] eqn:Hm.
    + rewrite Hm. cbn. destruct (decide (e = e')) as [<-|He].
      * rewrite decide_True by done. apply lookup_insert_eq.
      * rewrite decide_False by (by intros [? ?]). by apply lookup_insert_ne.
    + rewrite lookup_insert_eq. cbn. destruct (decide (e = e')) as [<-|He].
      * rewrite decide_True by done. apply lookup_insert_eq.
      * rewrite decide_False by (by intros [? ?]). by rewrite lookup_insert_ne.
  - rewrite lookup_alter_ne by done. rewrite decide_False by (by intros [? ?]).
    destruct (cache !! F); [done|]. by rewrite lookup_insert_ne.
Qed.

Lemma extCached_alt s F e :
  extCached s F e = bool_decide (is_Some (_extCache s !! F ≫= (.!! e))).
Proof.
  unfold extCached. by destruct (_extCache s !! F) as [m|].
Qed.

Lemma extCached_storeExt s F e features F' e' :
  extCached (set_extCache (storeExt F e features) s) F' e'
  = if decide (F = F' ∧ e = e') then true else extCached s F' e'.
Proof.
  rewrite !extCached_alt. hsimpl. rewrite storeExt_lookup.
  destruct (decide _); [|done]. apply bool_decide_eq_true_2. eauto.
Qed.

Lemma resolved_pendingExt_old id F e s F' m' e' a :
  _pendingExt (resolved id F e s) !! F' = Some m' → m' !! e' = Some a →
  ∃ m0, _pendingExt s !! F' = Some m0 ∧ m0 !! e' = Some a ∧ ¬ (F = F' ∧ e = e').
Proof.
  unfold resolved. hsimpl. intros Hm' He'.
  apply lookup_alter_Some in Hm' as [(<- & m0 & Hm0 & ->)|[HF Hm']].
  - apply lookup_delete_Some in He' as [He He']. exists m0.
    split; [done|]. split; [done|]. by intros [_ ?].
  - exists m'. split; [done|]. split; [done|]. by intros [? _].
Qed.

Lemma resolved_pendingExt_new id F e s F' m0 e' a :
  _pendingExt s !! F' = Some m0 → m0 !! e' = Some a → ¬ (F = F' ∧ e = e') →
  ∃ m', _pendingExt (resolved id F e s) !! F' = Some m' ∧ m' !! e' = Some a.
Proof.
  unfold resolved. hsimpl. intros Hm0 He' Hne.
  destruct (decide (F = F')) as [<-|HF].
  - exists (delete e m0). rewrite lookup_alter_eq, Hm0. split; [done|].
    rewrite lookup_delete_ne; [done|]. intros ?. by apply Hne.
  - exists m0. by rewrite lookup_alter_ne.
Qed.

Lemma resolved_iqRequests id F e s :
  _iqRequests (resolved id F e s) = delete id (_iqRequests s).
Proof. done. Qed.

Lemma InvH_ext_response s id F e features :
  InvH no_todo s →
  InvH no_todo (resolved id F e (set_extCache (storeExt F e features) s)).
Proof.
  intros [Href Hheap Hpending Harray Hinj Hexts]. constructor.
  - exact Href.
  - exact Hheap.
  - exact Hpending.
  - intros F' m' e' a Hm' He'.
    destruct (resolved_pendingExt_old _ _ _ _ _ _ _ _ Hm' He') as (m0 & ? & ? & _).
    eapply Harray; eauto.
  - intros F1 m1 e1 F2 m2 e2 a Hm1 He1 Hm2 He2.
    destruct (resolved_pendingExt_old _ _ _ _ _ _ _ _ Hm1 He1) as (? & ? & ? & _).
    destruct (resolved_pendingExt_old _ _ _ _ _ _ _ _ Hm2 He2) as (? & ? & ? & _).
    eapply Hinj; eauto.
  - intros l b pc ext e' Hb Hpc Hext He'.
    rewrite (extCached_frame _ (set_extCache (storeExt F e features) s)) by done.
    rewrite extCached_storeExt.
    destruct (decide (F = fullNodeOf pc ∧ e = e')) as [|Hne]; [by left|].
    destruct (Hexts l b pc ext e' Hb Hpc Hext He') as [?|[(m0 & a & Hm0 & Ha & Hin)|[]]];
      [by left|right; left].
    destruct (resolved_pendingExt_new id F e (set_extCache (storeExt F e features) s)
                _ _ _ _ Hm0 Ha Hne) as (m' & ? & ?).
    eauto.
Qed.

Lemma InvR_ext_response s id r e features :
  InvR s → _iqRequests s !! id = Some r → type r = TExt e →
  InvR (resolved id (fullNode r) e (set_extCache (storeExt (fullNode r) e features) s)).
Proof.
  intros [Hids Hcaps Hext Huniq] Hr Ht.
  constructor; rewrite ?resolved_iqRequests; hsimpl.
  - intros id' r' [_ H]%lookup_delete_Some. eauto.
  - intros id' r' [_ H]%lookup_delete_Some Ht'. by apply (Hcaps id' r').
  - intros id' r' e' [Hne H]%lookup_delete_Some Ht'.
    assert (¬ (fullNode r = fullNode r' ∧ e = e')) as Hother.
    { intros [HF ->]. apply Hne. eapply Huniq; eauto. congruence. }
    destruct (Hext id' r' e' H Ht') as [(m0 & Hm0 & [a Ha]) Huncached]. split.
    + destruct (resolved_pendingExt_new id (fullNode r) e
                  (set_extCache (storeExt (fullNode r) e features) s)
                  _ _ _ _ Hm0 Ha Hother) as (m' & ? & ?).
      eauto.
    + rewrite (extCached_frame _ (set_extCache (storeExt (fullNode r) e features) s))
        by done.
      rewrite extCached_storeExt. by rewrite decide_False.
  - intros id1 id2 r1 r2 [_ H1]%lookup_delete_Some [_ H2]%lookup_delete_Some. eauto.
Qed.

Lemma fullyCached_storeExt s F e features p :
  fullyCached s p → fullyCached (set_extCache (storeExt F e features) s) p.
Proof.
  intros (pc & Hpc & Hmain & Hexts). exists pc. split; [done|]. split; [done|].
  intros ext e' Hx He'. rewrite extCached_storeExt. destruct (decide _); eauto.
Qed.

Lemma Inv_ext_response s id r e features :
  Inv s → _iqRequests s !! id = Some r → type r = TExt e →
  Inv (resolved id (fullNode r) e (set_extCache (storeExt (fullNode r) e features) s)).
Proof.
  intros [HH HR HE] Hr Ht. split.
  - by apply InvH_ext_response.
  - by apply InvR_ext_response.
  - intros ev Hev. eapply fullyCached_frame; [| |apply fullyCached_storeExt, HE, Hev]; done.
Qed.

Lemma not_live_resolved s0 s id F e m a :
  InvH no_todo s0 → _pendingExt s = _pendingExt s0 →
  _pendingExt s0 !! F = Some m → m !! e = Some a →
  not_live a (resolved id F e s).
Proof.
  intros HH Hsame Hm He F' m' e' Hm' He'.
  destruct (resolved_pendingExt_old _ _ _ _ _ _ _ _ Hm' He') as (m0 & Hm0 & He0 & Hne).
  rewrite Hsame in Hm0. apply Hne. eapply (inv_array_inj _ _ HH); eauto.
Qed.

Lemma InvH_spliced s a l b :
  InvH no_todo s → not_live a s →
  buddyHeap s !! l = Some b → a ∈ pendingExts b →
  InvH no_todo (set_buddyHeap (alter (spliceExt a) l) s).
Proof.
  intros [Href Hheap Hpending Harray Hinj Hexts] Hdead Hb Ha. constructor; hsimpl.
  - intros j l' Hl'. destruct (Href j l' Hl') as [b' Hb'].
    destruct (decide (l = l')) as [<-|Hne].
    + rewrite list_lookup_alter_eq, Hb. eauto.
    + rewrite list_lookup_alter_ne by done. eauto.
  - intros l' b' [(<- & b0 & Hb0 & ->)|[_ Hb']]%list_lookup_alter_Some; [|eauto].
    by apply (Hheap l b0).
  - exact Hpending.
  - intros F m e a' Hm He. destruct (Harray F m e a' Hm He) as (arr & Harr & Hocc).
    exists arr. split; [done|]. intros l' Hl'.
    destruct (Hocc l' Hl') as (b' & Hb' & Hle).
    destruct (decide (l = l')) as [<-|Hne].
    + rewrite list_lookup_alter_eq, Hb. eexists. split; [done|].
      cbn [spliceExt pendingExts].
      rewrite occ_splice_ne; [congruence|done|]. intros ->. by eapply Hdead.
    + rewrite list_lookup_alter_ne by done. eauto.
  - exact Hinj.
  - intros l' b' pc ext e
      [(<- & b0 & Hb0 & ->)|[_ Hb']]%list_lookup_alter_Some Hpc Hext He; [|eauto].
    assert (b0 = b) as -> by congruence.
    destruct (Hexts l b pc ext e Hb Hpc Hext He) as [?|[(m & a' & Hm & Ha' & Hin)|[]]];
      [by left|right; left].
    exists m, a'. split; [done|]. split; [done|]. cbn [spliceExt pendingExts].
    apply elem_of_splice_ne; [done| |done]. intros ->. by eapply Hdead.
Qed.

Lemma waiting_head a l rest s :
  waiting a (l :: rest) s → ∃ b, buddyHeap s !! l = Some b ∧ a ∈ pendingExts b.
Proof.
  intros H. destruct (H l) as (b & Hb & Hle); [by left|].
  exists b. split; [done|]. apply occ_pos.
  rewrite occ_cons, decide_True in Hle by done. lia.
Qed.

Lemma waiting_spliced a l rest s :
  waiting a (l :: rest) s →
  waiting a rest (set_buddyHeap (alter (spliceExt a) l) s).
Proof.
  intros H l' Hl'. hsimpl.
  destruct (H l') as (b' & Hb' & Hle); [by right|].
  rewrite occ_cons in Hle.
  destruct (decide (l = l')) as [<-|Hne].
  - rewrite list_lookup_alter_eq, Hb'. eexists. split; [done|].
    cbn [spliceExt pendingExts].
    rewrite occ_splice_eq; [lia|]. apply occ_pos. lia.
  - rewrite list_lookup_alter_ne by done. exists b'. split; [done|]. lia.
Qed.

Lemma emits_resolved id F e s s' :
  emits s s' → emits (resolved id F e s) (resolved id F e s').
Proof.
  intros (evs & -> & Hevs). exists evs. split; [done|].
  intros ev Hev. eapply fullyCached_frame; [| |by apply Hevs]; done.
Qed.

Lemma wp_state_eq {A} (m : M A) Q E s s' : s = s' → wp m Q E s' → wp m Q E s.
Proof. by intros ->. Qed.

Lemma ext_loop_body s0 id F e a l rest s :
  ext_loop s0 id F e a (l :: rest) s →
  wp (run derefBuddy l ;
      run modify (set_buddyHeap (alter
            (λ b, {| jid := jid b;
                     pendingExts := splice_indexOf a (pendingExts b);
                     originalPresence := originalPresence b |}) l)) ;
      do b <- derefBuddy l ;
      _emitEventIfFullyLoaded (jid b))
    (λ _, ext_loop s0 id F e a rest) (λ _ _, False) s.
Proof.
  intros (HI & Hwait & Hdead & Hframe).
  destruct (waiting_head _ _ _ _ Hwait) as (b & Hb & Ha).
  pose proof (InvH_spliced (resolved id F e s) a l b (inv_H _ HI) Hdead Hb Ha) as HH.
  wp_run. eapply wp_derefBuddy; [done|]. wp_run.
  eapply wp_derefBuddy; [hsimpl; by rewrite list_lookup_alter_eq, Hb|]. cbn [spliceExt jid].
  eapply wp_mono; [apply emitEventIfFullyLoaded_emits| |done].
  - by eapply (InvH_emit_ready _ _ HH).
  - hsimpl. by apply (inv_heap _ _ (inv_H _ HI) l b).
  - intros [] s' Hemits. split; [|split; [|split]].
    + eapply Inv_emits; [|by apply emits_resolved].
      destruct HI as [_ HR HE]. split; [exact HH| |].
      * by eapply InvR_frame; [..|exact HR].
      * by eapply InvE_frame; [..|exact HE].
    + destruct Hemits as (evs & -> & _). by apply waiting_spliced.
    + destruct Hemits as (evs & -> & _). exact Hdead.
    + destruct Hemits as (evs & -> & _). exact Hframe.
Qed.

Lemma extCached_insert_empty s F F' e' :
  _extCache s !! F = None →
  extCached (set_extCache <[F := ∅]> s) F' e' = extCached s F' e'.
Proof.
  intros Hnone. unfold extCached. hsimpl.
  destruct (decide (F = F')) as [<-|Hne].
  - by rewrite lookup_insert_eq, Hnone.
  - by rewrite lookup_insert_ne.
Qed.

Lemma Inv_insert_empty s F :
  Inv s → _extCache s !! F = None → Inv (set_extCache <[F := ∅]> s).
Proof.
  intros [HH HR HE] Hnone.
  pose proof (λ F' e', eq_sym (extCached_insert_empty s F F' e' Hnone)) as Hsame.
  split.
  - by eapply InvH_frame; [..|exact HH].
  - by eapply InvR_frame; [..|exact HR].
  - by eapply InvE_frame; [..|exact HE].
Qed.

(** What a response to a tracked extension request does: with
    capabilities, they are stored under the request's key, the waiters are
    visited and the request is resolved; without, the read of
    [caps.rawFeatures] throws. The invariant holds afterwards either way. *)
Lemma handleIQ_ext_effect s stanza r e :
  Inv s → _iqRequests s !! id stanza = Some r → type r = TExt e →
  wp (_handleIQ stanza)
    (λ _ s', ∃ c, capabilities stanza = Some c ∧ Inv s'
       ∧ _cache s' = _cache s
       ∧ _extCache s' = storeExt (fullNode r) e (rawFeatures c) (_extCache s)
       ∧ _iqRequests s' = delete (id stanza) (_iqRequests s)
       ∧ sent s' = sent s
       ∧ _pendingBuddies s' = _pendingBuddies s
       ∧ _pendingExt s' = alter (delete e) (fullNode r) (_pendingExt s))
    (λ err s', err = TypeError ∧ capabilities stanza = None ∧ Inv s'
       ∧ _cache s' = _cache s
       ∧ (∀ F' e', extCached s' F' e' = extCached s F' e')
       ∧ _iqRequests s' = _iqRequests s ∧ _pendingExt s' = _pendingExt s
       ∧ emitted s' = emitted s ∧ sent s' = sent s
       ∧ _pendingBuddies s' = _pendingBuddies s) s.
Proof.
  intros HI Hr Ht. unfold _handleIQ. wp_run.
  rewrite (get_own _ _ _ Hr). cbn [asRequest]. rewrite Ht.
  unfold _handleIQExt. wp_run.
  destruct (inv_req_ext _ (inv_R _ HI) _ _ _ Hr Ht) as [(m & Hm & [a Ha]) _].
  destruct (inv_array _ _ (inv_H _ HI) _ _ _ _ Hm Ha) as (arr & Harr & Hocc).
  rewrite Hm. wp_run.
  destruct (capabilities stanza) as [c|] eqn:Hc.
  - assert (wp (forEach (λ buddy,
                run derefBuddy buddy ;
                run modify (set_buddyHeap (alter
                      (λ b, {| jid := jid b;
                               pendingExts := splice_indexOf a (pendingExts b);
                               originalPresence := originalPresence b |}) buddy)) ;
                do b <- derefBuddy buddy ;
                _emitEventIfFullyLoaded (jid b)) arr)
              (λ _, ext_loop (set_extCache (storeExt (fullNode r) e (rawFeatures c)) s)
                      (id stanza) (fullNode r) e a [])
              (λ _ _, False)
              (set_extCache (storeExt (fullNode r) e (rawFeatures c)) s)) as Hloop.
    { apply (wp_forEach _ (ext_loop _ (id stanza) (fullNode r) e a)).
      - split; [by apply Inv_ext_response|]. split; [exact Hocc|].
        split; [|done]. by eapply (not_live_resolved s _ _ _ _ m); [apply HI|..].
      - intros l rest s'. apply ext_loop_body. }
    destruct (_extCache s !! fullNode r) eqn:Hcache; wp_run;
      (eapply (wp_state_eq _ _ _ _
                 (set_extCache (storeExt (fullNode r) e (rawFeatures c)) s));
         [unfold storeExt, set_extCache; cbn; by rewrite Hcache|]);
      rewrite Ha; wp_run; (eapply wp_derefArray; [exact Harr|]); wp_run;
      (eapply wp_mono; [exact Hloop| |done]);
      intros [] s' (HI' & _ & _ & Hcache' & Hext & Hsent & Hpb & Hreq & Hpe); wp_run;
      (exists c); (split; [done|]); (split; [exact HI'|]); hsimpl;
      by rewrite Hcache', Hext, Hsent, Hpb, Hreq, Hpe.
  - destruct (_extCache s !! fullNode r) eqn:Hcache; wp_run.
    + done.
    + split; [done|]. split; [done|]. split; [by apply Inv_insert_empty|].
      split; [done|]. split; [|done]. intros F' e'. by apply extCached_insert_empty.
Qed.

(** ** Every response preserves the invariant *)

Lemma Inv_handleIQ s stanza :
  plainKey (id stanza) = true → Inv s → Inv (_handleIQ stanza s).2.
Proof.
  intros Hplain HI. destruct (_iqRequests s !! id stanza) as [r|] eqn:Hr.
  - destruct (type r) as [|e] eqn:Ht.
    + apply wp_final. eapply wp_mono; [by apply (handleIQ_caps_effect s stanza r)| |done].
      intros [] s' (s'' & Hemits & ->). by eapply Inv_caps_response.
    + apply wp_final. eapply wp_mono; [by apply (handleIQ_ext_effect s stanza r e)| |].
      * by intros [] s' (c & _ & ? & _).
      * by intros err s' (_ & _ & ? & _).
  - unfold _handleIQ, bind, gets. by rewrite get_absent.
Qed.

(** ** A presence *)

Lemma uncachedExts_nil s pc :
  uncachedExts s pc = [] →
  ∀ ext e, pc_ext pc = Some ext → e ∈ ext → extCached s (fullNodeOf pc) e = true.
Proof.
  unfold uncachedExts. intros Hnil ext e Hext He. rewrite Hext in Hnil.
  destruct (extCached s (fullNodeOf pc) e) eqn:Hc; [done|].
  assert (e ∈ filter (λ e, extCached s (fullNodeOf pc) e = false) ext) as Hin
    by by apply list_elem_of_filter.
  rewrite Hnil in Hin. by apply elem_of_nil in Hin.
Qed.

Lemma uncachedExts_elem s pc e :
  e ∈ uncachedExts s pc → extCached s (fullNodeOf pc) e = false.
Proof.
  unfold uncachedExts. destruct (pc_ext pc); [|by intros ?%elem_of_nil].
  by intros [? _]%list_elem_of_filter.
Qed.

Lemma uncachedExts_plain s pc e :
  plainExts pc = true → e ∈ uncachedExts s pc → plainKey e = true.
Proof.
  unfold uncachedExts, plainExts. destruct (pc_ext pc); [|by intros _ ?%elem_of_nil].
  intros H [_ He]%list_elem_of_filter. by eapply plainExts_elem.
Qed.

(** The extensions that [_handlePresence] takes as uncached are the
    uncached ones, when none of these is named like an inherited member. *)
Lemma uncached_plainKeys s pc :
  (∀ e, e ∈ uncachedExts s pc → plainKey e = true) →
  match pc_ext pc with
  | Some ext => filter (λ e, readsCached s (fullNodeOf pc) e = false) ext
  | None => []
  end = uncachedExts s pc.
Proof.
  unfold uncachedExts. destruct (pc_ext pc) as [ext|]; [|done].
  induction ext as [|e ext IH]; [done|]. intros H.
  destruct (extCached s (fullNodeOf pc) e) eqn:Hc.
  - rewrite !filter_cons_False by (by rewrite ?readsCached_own, ?Hc).
    apply IH. intros e' He'. apply H. by rewrite filter_cons_False by by rewrite Hc.
  - rewrite (filter_cons_True (λ e, extCached _ _ e = false)) in * by done.
    rewrite filter_cons_True.
    + f_equal. apply IH. intros e' He'. apply H. by right.
    + rewrite readsCached_plain; [done|]. apply H. by left.
Qed.

Lemma uncached_plain s pc :
  plainExts pc = true →
  match pc_ext pc with
  | Some ext => filter (λ e, readsCached s (fullNodeOf pc) e = false) ext
  | None => []
  end = uncachedExts s pc.
Proof.
  intros H. apply uncached_plainKeys. intros e He. by eapply uncachedExts_plain.
Qed.

(** When every extension has an entry of its own, none is taken as
    uncached. *)
Lemma uncached_nil s pc :
  uncachedExts s pc = [] →
  match pc_ext pc with
  | Some ext => filter (λ e, readsCached s (fullNodeOf pc) e = false) ext
  | None => []
  end = [].
Proof.
  intros Hnil. rewrite uncached_plainKeys; [done|].
  rewrite Hnil. by intros e ?%elem_of_nil.
Qed.

Lemma uncachedExts_or s pc ext e :
  pc_ext pc = Some ext → e ∈ ext →
  extCached s (fullNodeOf pc) e = true ∨ e ∈ uncachedExts s pc.
Proof.
  intros Hext He. unfold uncachedExts. rewrite Hext.
  destruct (extCached s (fullNodeOf pc) e) eqn:Hc; [by left|right].
  by apply list_elem_of_filter.
Qed.

Lemma InvH_addBuddy s stanza pc :
  InvH no_todo s → caps stanza = Some pc →
  InvH (todo_of (length (buddyHeap s)) (uncachedExts s pc)) (addBuddy stanza s).
Proof.
  intros [Href Hheap Hpending Harray Hinj Hexts] Hpc. constructor; unfold addBuddy; hsimpl.
  - intros j l [[<- <-]|[_ Hl]]%lookup_insert_Some.
    + exists (newBuddy stanza). by apply list_lookup_middle.
    + destruct (Href j l Hl) as [b Hb]. exists b. by apply lookup_app_l_Some.
  - intros l b [[_ Hb]|[-> <-]]%lookup_snoc_Some.
    + destruct (Hheap l b Hb) as [? ?]. split; [done|].
      rewrite lookup_insert_is_Some. destruct (decide (from stanza = jid b)); auto.
    + cbn. rewrite Hpc, lookup_insert_eq. eauto.
  - intros F p j Hp Hj. rewrite lookup_insert_is_Some.
    destruct (decide (from stanza = j)); eauto.
  - intros F m e a Hm He. destruct (Harray F m e a Hm He) as (arr & Harr & Hocc).
    exists arr. split; [done|]. intros l Hl. destruct (Hocc l Hl) as (b & Hb & Hle).
    exists b. split; [by apply lookup_app_l_Some|done].
  - exact Hinj.
  - intros l b pc' ext e [[_ Hb]|[-> <-]]%lookup_snoc_Some Hpc' Hext He.
    + destruct (Hexts l b pc' ext e Hb Hpc' Hext He) as [?|[?|[]]]; auto.
    + cbn in Hpc'. assert (pc' = pc) as -> by congruence.
      destruct (uncachedExts_or s pc ext e Hext He) as [?|?]; [by left|].
      right; right. by split.
Qed.

Lemma InvH_afterGetCapabilities todo s stanza pc :
  InvH todo s → is_Some (_pendingBuddies s !! from stanza) →
  InvH todo (afterGetCapabilities stanza pc s).
Proof.
  intros [Href Hheap Hpending Harray Hinj Hexts] Hfrom.
  assert (∀ (pending' : gmap string PendingCaps),
    (∀ F p j, pending' !! F = Some p → j ∈ buddies p →
              is_Some (_pendingBuddies s !! j)) →
    ∀ F p j, alter (addWaiter (from stanza)) (fullNodeOf pc) pending' !! F = Some p →
             j ∈ buddies p → is_Some (_pendingBuddies s !! j)) as Halter.
  { intros pending' Hold F p j
      [(<- & p0 & Hp0 & ->)|[_ Hp]]%lookup_alter_Some Hj; [|eauto].
    cbn in Hj. apply elem_of_app in Hj as [Hj|Hj%list_elem_of_singleton]; subst; eauto. }
  unfold afterGetCapabilities.
  destruct (_pending s !! fullNodeOf pc) eqn:Hp; constructor; hsimpl; try done.
  - by apply Halter.
  - apply Halter. intros F p j [[<- <-]|[_ Hp']]%lookup_insert_Some Hj; [|eauto].
    by apply elem_of_nil in Hj.
Qed.

Lemma requestId_inj k1 k2 : requestId k1 = requestId k2 → k1 = k2.
Proof.
  unfold requestId. intros H. apply (inj pretty).
  by apply (inj (String.append "caps-")) in H.
Qed.

Lemma InvR_afterGetCapabilities s stanza pc :
  InvR s → cached s (fullNodeOf pc) = None →
  InvR (afterGetCapabilities stanza pc s).
Proof.
  intros [Hids Hcaps Hext Huniq] Hnone. unfold afterGetCapabilities.
  destruct (_pending s !! fullNodeOf pc) eqn:Hp; constructor; unfold cached in *; hsimpl;
    try done.
  - intros id r Hr Ht. destruct (Hcaps id r Hr Ht) as [? ?]. split; [|done].
    by apply lookup_alter_is_Some.
  - intros id r [[<- <-]|[_ Hr]]%lookup_insert_Some; [by exists (S (_iqCount s))|].
    destruct (Hids id r Hr) as (k & -> & ?). exists k. split; [done|lia].
  - intros id r [[<- <-]|[_ Hr]]%lookup_insert_Some Ht.
    + cbn. split; [|done]. apply lookup_alter_is_Some. by rewrite lookup_insert_eq.
    + destruct (Hcaps id r Hr Ht) as [? ?]. split; [|done].
      apply lookup_alter_is_Some, lookup_insert_is_Some'. auto.
  - intros id r e [[<- <-]|[_ Hr]]%lookup_insert_Some Ht; [done|eauto].
  - intros id1 id2 r1 r2 [[<- <-]|[_ Hr1]]%lookup_insert_Some
      [[<- <-]|[_ Hr2]]%lookup_insert_Some Ht HF; [done| | |eauto].
    + cbn in *. destruct (Hcaps id2 r2 Hr2 (eq_sym Ht)) as [Hsome _].
      rewrite <-HF, Hp in Hsome. by destruct Hsome.
    + cbn in *. destruct (Hcaps id1 r1 Hr1 Ht) as [Hsome _].
      rewrite HF, Hp in Hsome. by destruct Hsome.
Qed.

Lemma InvH_ensure_pendingExt todo s F :
  InvH todo s → _pendingExt s !! F = None →
  InvH todo (set_pendingExt <[F := ∅]> s).
Proof.
  intros [Href Hheap Hpending Harray Hinj Hexts] Hnone. constructor; hsimpl; try done.
  - intros F' m e a [[<- <-]|[_ Hm]]%lookup_insert_Some He; [done|eauto].
  - intros F1 m1 e1 F2 m2 e2 a [[<- <-]|[_ Hm1]]%lookup_insert_Some He1; [done|].
    intros [[<- <-]|[_ Hm2]]%lookup_insert_Some He2; [done|eauto].
  - intros l b pc ext e Hb Hpc Hext He.
    destruct (Hexts l b pc ext e Hb Hpc Hext He) as [?|[(m & a & Hm & Ha & Hin)|?]]; auto.
    right; left. exists m, a. split; [|done].
    rewrite lookup_insert_ne; [done|]. intros ->. congruence.
Qed.

Lemma InvR_ensure_pendingExt s F :
  InvR s → _pendingExt s !! F = None → InvR (set_pendingExt <[F := ∅]> s).
Proof.
  intros [Hids Hcaps Hext Huniq] Hnone. constructor; hsimpl; try done.
  intros id r e Hr Ht. destruct (Hext id r e Hr Ht) as [(m & Hm & He) ?].
  split; [|done]. exists m. split; [|done].
  rewrite lookup_insert_ne; [done|]. intros ->. congruence.
Qed.

Lemma occ_le_elem `{EqDecision A} (x : A) (l : list A) n :
  (x ∈ l → occ x l ≤ n) → occ x l ≤ n.
Proof.
  intros H. destruct (decide (occ x l = 0)) as [->|Hk]; [lia|].
  apply H, occ_pos. lia.
Qed.

Lemma occ_snoc `{EqDecision A} (x y : A) (l : list A) :
  occ x (l ++ [y]) = occ x l + (if decide (y = x) then 1 else 0).
Proof. rewrite occ_app, occ_cons, occ_nil. lia. Qed.

Lemma InvH_register (todo todo' : buddy_ref → string → Prop) s l0 b pc e a m :
  InvH todo s →
  buddyHeap s !! l0 = Some b → caps (originalPresence b) = Some pc →
  _pendingExt s !! fullNodeOf pc = Some m → m !! e = Some a →
  (∀ l e', todo l e' → todo' l e' ∨ (l = l0 ∧ e' = e)) →
  InvH todo' (register l0 a s).
Proof.
  intros [Href Hheap Hpending Harray Hinj Hexts] Hb Hpc Hm Ha Htodo.
  constructor; unfold register; hsimpl.
  - intros j l Hl. destruct (Href j l Hl) as [b' Hb'].
    destruct (decide (l0 = l)) as [<-|Hne].
    + rewrite list_lookup_alter_eq, Hb. eauto.
    + rewrite list_lookup_alter_ne by done. eauto.
  - intros l b' [(<- & b0 & Hb0 & ->)|[_ Hb']]%list_lookup_alter_Some; [|eauto].
    by apply (Hheap l0 b0).
  - exact Hpending.
  - intros F' m' e' a' Hm' He'.
    destruct (Harray F' m' e' a' Hm' He') as (arr & Harr & Hocc).
    destruct (decide (a = a')) as [<-|Hna].
    + exists (arr ++ [l0]). split; [by rewrite list_lookup_alter_eq, Harr|].
      intros l Hl. destruct (decide (l0 = l)) as [<-|Hnl].
      * rewrite list_lookup_alter_eq, Hb. eexists. split; [done|].
        cbn [addPendingExt pendingExts]. rewrite !occ_snoc, !decide_True by done.
        apply Nat.add_le_mono_r, occ_le_elem. intros Hin.
        destruct (Hocc l0 Hin) as (b' & Hb' & Hle). congruence.
      * rewrite list_lookup_alter_ne by done.
        apply elem_of_app in Hl as [Hl|Hl%list_elem_of_singleton]; [|congruence].
        destruct (Hocc l Hl) as (b' & Hb' & Hle). exists b'. split; [done|].
        rewrite occ_snoc, decide_False by done. lia.
    + exists arr. split; [by rewrite list_lookup_alter_ne|].
      intros l Hl. destruct (Hocc l Hl) as (b' & Hb' & Hle).
      destruct (decide (l0 = l)) as [<-|Hnl].
      * rewrite list_lookup_alter_eq, Hb. eexists. split; [done|].
        cbn [addPendingExt pendingExts]. rewrite occ_snoc, decide_False by done.
        assert (b' = b) as -> by congruence. lia.
      * rewrite list_lookup_alter_ne by done. eauto.
  - exact Hinj.
  - intros l b' pc' ext e'
      [(<- & b0 & Hb0 & ->)|[Hnl Hb']]%list_lookup_alter_Some Hpc' Hext He'.
    + assert (b0 = b) as -> by congruence. cbn in Hpc'.
      assert (pc' = pc) as -> by congruence.
      destruct (Hexts l0 b pc ext e' Hb Hpc Hext He')
        as [?|[(m1 & a1 & Hm1 & Ha1 & Hin)|Ht]]; [by left| |].
      * right; left. exists m1, a1. split; [done|]. split; [done|].
        cbn. apply elem_of_app. by left.
      * destruct (Htodo l0 e' Ht) as [?|[_ ->]]; [by right; right|].
        right; left. exists m, a. split; [done|]. split; [done|].
        cbn. apply elem_of_app. right. by apply list_elem_of_singleton.
    + destruct (Hexts l b' pc' ext e' Hb' Hpc' Hext He') as [?|[?|Ht]]; auto.
      destruct (Htodo l e' Ht) as [?|[? _]]; [auto|congruence].
Qed.

Lemma InvH_newArray todo s F m e :
  InvH todo s → _pendingExt s !! F = Some m → m !! e = None →
  InvH todo (set_pendingExt (alter <[e := length (arrayHeap s)]> F)
               (set_arrayHeap (λ h, h ++ [[]]) s)).
Proof.
  intros [Href Hheap Hpending Harray Hinj Hexts] Hm He.
  assert (∀ F' m' e' a,
    alter <[e := length (arrayHeap s)]> F (_pendingExt s) !! F' = Some m' →
    m' !! e' = Some a →
    (F' = F ∧ e' = e ∧ a = length (arrayHeap s))
    ∨ (∃ m0, _pendingExt s !! F' = Some m0 ∧ m0 !! e' = Some a)) as Hcases.
  { intros F' m' e' a [(<- & m0 & Hm0 & ->)|[_ Hm']]%lookup_alter_Some He'; [|eauto].
    apply lookup_insert_Some in He' as [[<- <-]|[_ He']]; eauto. }
  constructor; hsimpl; try done.
  - intros F' m' e' a Hm' He'.
    destruct (Hcases F' m' e' a Hm' He') as [(-> & -> & ->)|(m0 & Hm0 & He0)].
    + exists []. split; [by apply list_lookup_middle|]. by intros l ?%elem_of_nil.
    + destruct (Harray F' m0 e' a Hm0 He0) as (arr & Harr & Hocc).
      exists arr. split; [by apply lookup_app_l_Some|done].
  - intros F1 m1 e1 F2 m2 e2 a Hm1 He1 Hm2 He2.
    destruct (Hcases F1 m1 e1 a Hm1 He1) as [(-> & -> & ->)|(m0 & Hm0 & He0)];
      destruct (Hcases F2 m2 e2 _ Hm2 He2) as [(-> & -> & Ha)|(m0' & Hm0' & He0')];
      [done| | |eauto].
    + destruct (Harray F2 m0' e2 _ Hm0' He0') as (arr & Harr%lookup_lt_Some & _). lia.
    + subst a. destruct (Harray F1 m0 e1 _ Hm0 He0) as (arr & Harr%lookup_lt_Some & _). lia.
  - intros l b pc ext e' Hb Hpc Hext He'.
    destruct (Hexts l b pc ext e' Hb Hpc Hext He') as [?|[(m1 & a1 & Hm1 & Ha1 & Hin)|?]];
      auto.
    right; left. destruct (decide (F = fullNodeOf pc)) as [->|HF].
    + exists (<[e := length (arrayHeap s)]> m), a1.
      rewrite lookup_alter_eq, Hm. split; [done|]. split; [|done].
      assert (m1 = m) as -> by congruence.
      rewrite lookup_insert_ne; [done|]. intros ->. congruence.
    + exists m1, a1. by rewrite lookup_alter_ne.
Qed.

Lemma InvH_afterGetExtension s stanza pc e rest l0 b m :
  InvH (todo_of l0 (e :: rest)) s →
  buddyHeap s !! l0 = Some b → caps (originalPresence b) = Some pc →
  _pendingExt s !! fullNodeOf pc = Some m →
  InvH (todo_of l0 rest) (afterGetExtension stanza pc e l0 m s).
Proof.
  intros HH Hb Hpc Hm.
  assert (∀ l e', todo_of l0 (e :: rest) l e' →
                  todo_of l0 rest l e' ∨ (l = l0 ∧ e' = e)) as Htodo.
  { intros l e' [-> [->|?]%elem_of_cons]; [by right|by left]. }
  unfold afterGetExtension. destruct (m !! e) as [a|] eqn:He.
  - by eapply InvH_register.
  - eapply (InvH_register _ _ _ l0 b pc e _ (<[e := length (arrayHeap s)]> m));
      [|done|done| |apply lookup_insert_eq|exact Htodo].
    + eapply InvH_frame; [..|by apply (InvH_newArray _ s (fullNodeOf pc) m e)]; done.
    + hsimpl. by rewrite lookup_alter_eq, Hm.
Qed.

Lemma InvR_afterGetExtension s stanza pc e l0 m :
  InvR s → _pendingExt s !! fullNodeOf pc = Some m →
  extCached s (fullNodeOf pc) e = false →
  InvR (afterGetExtension stanza pc e l0 m s).
Proof.
  intros HR Hm Huncached. unfold afterGetExtension.
  destruct (m !! e) as [a|] eqn:He.
  { by eapply InvR_frame; [..|exact HR]. }
  destruct HR as [Hids Hcaps Hext Huniq].
  constructor; unfold register, cached; hsimpl.
  - intros id r [[<- <-]|[_ Hr]]%lookup_insert_Some; [by exists (S (_iqCount s))|].
    destruct (Hids id r Hr) as (k & -> & ?). exists k. split; [done|lia].
  - intros id r [[<- <-]|[_ Hr]]%lookup_insert_Some Ht; [done|].
    by apply (Hcaps id r).
  - intros id r e' [[<- <-]|[_ Hr]]%lookup_insert_Some Ht.
    + cbn in *. injection Ht as <-. split; [|done].
      exists (<[e := length (arrayHeap s)]> m). rewrite lookup_alter_eq, Hm.
      split; [done|]. rewrite lookup_insert_eq. eauto.
    + destruct (Hext id r e' Hr Ht) as [(m0 & Hm0 & He0) ?]. split; [|done].
      destruct (decide (fullNodeOf pc = fullNode r)) as [HF|HF].
      * exists (<[e := length (arrayHeap s)]> m). rewrite <-HF, lookup_alter_eq, Hm.
        split; [done|]. apply lookup_insert_is_Some'. right.
        rewrite <-HF in Hm0. congruence.
      * exists m0. by rewrite lookup_alter_ne.
  - intros id1 id2 r1 r2 [[<- <-]|[_ Hr1]]%lookup_insert_Some
      [[<- <-]|[_ Hr2]]%lookup_insert_Some Ht HF; [done| | |eauto].
    + cbn in *. destruct (Hext id2 r2 e Hr2 (eq_sym Ht)) as [(m0 & Hm0 & He0) _].
      rewrite <-HF, Hm in Hm0. injection Hm0 as <-. rewrite He in He0. by destruct He0.
    + cbn in *. destruct (Hext id1 r1 e Hr1 Ht) as [(m0 & Hm0 & He0) _].
      rewrite HF, Hm in Hm0. injection Hm0 as <-. rewrite He in He0. by destruct He0.
Qed.

Lemma afterGetExtension_frame stanza pc e l m s :
  _cache (afterGetExtension stanza pc e l m s) = _cache s
  ∧ _extCache (afterGetExtension stanza pc e l m s) = _extCache s
  ∧ emitted (afterGetExtension stanza pc e l m s) = emitted s
  ∧ _pendingBuddies (afterGetExtension stanza pc e l m s) = _pendingBuddies s
  ∧ _pending (afterGetExtension stanza pc e l m s) = _pending s
  ∧ buddyHeap (afterGetExtension stanza pc e l m s)
    = alter (addPendingExt (default (length (arrayHeap s)) (m !! e))) l (buddyHeap s).
Proof. unfold afterGetExtension. by destruct (m !! e). Qed.

Lemma afterGetExtension_pendingExt stanza pc e l m s :
  _pendingExt s !! fullNodeOf pc = Some m →
  is_Some (_pendingExt (afterGetExtension stanza pc e l m s) !! fullNodeOf pc).
Proof.
  intros Hm. unfold afterGetExtension. destruct (m !! e); unfold register; hsimpl.
  - eauto.
  - rewrite lookup_alter_eq, Hm. eauto.
Qed.

Lemma presence_loop_body s0 stanza pc l0 e rest s :
  caps stanza = Some pc →
  presence_loop s0 stanza pc l0 (e :: rest) s →
  wp (_getExtensionFromPresence stanza e)
    (λ _, presence_loop s0 stanza pc l0 rest) (λ _ _, False) s.
Proof.
  intros Hpc (HH & HR & Hfrom & (b & Hb & Hpres) & [m Hm] & Huncached & Hc & Hx & Hem).
  destruct (Huncached e) as [Hu He]; [by left|].
  eapply (getExtensionFromPresence_wp stanza pc e l0 m); [done|done|done|eauto|done| |].
  { intros a Ha. destruct (inv_array _ _ HH _ _ _ _ Hm Ha) as (arr & ? & _). eauto. }
  destruct (afterGetExtension_frame stanza pc e l0 m s)
    as (Hc' & Hx' & Hem' & Hpb' & _ & Hheap').
  split; [|split; [|split; [|split; [|split; [|split]]]]].
  - eapply InvH_afterGetExtension; [done|done| |done]. by rewrite Hpres.
  - by apply InvR_afterGetExtension.
  - by rewrite Hpb'.
  - rewrite Hheap', list_lookup_alter_eq, Hb. eauto.
  - by apply afterGetExtension_pendingExt.
  - intros e' He'. rewrite (extCached_frame _ s) by done. apply Huncached. by right.
  - by rewrite Hc', Hx', Hem'.
Qed.

Lemma presence_loop_end s0 stanza pc l0 s :
  InvE s0 → presence_loop s0 stanza pc l0 [] s →
  Inv s ∧ _cache s = _cache s0 ∧ _extCache s = _extCache s0 ∧ emitted s = emitted s0.
Proof.
  intros HE (HH & HR & _ & _ & _ & _ & Hc & Hx & Hem). split; [|done]. split.
  - eapply InvH_todo_mono; [|exact HH]. by intros l e [_ ?%elem_of_nil].
  - exact HR.
  - eapply InvE_frame; [..|exact HE]; try done. intros F e. by apply extCached_frame.
Qed.

Lemma afterGetCapabilities_frame stanza pc s :
  _cache (afterGetCapabilities stanza pc s) = _cache s
  ∧ _extCache (afterGetCapabilities stanza pc s) = _extCache s
  ∧ emitted (afterGetCapabilities stanza pc s) = emitted s
  ∧ _pendingBuddies (afterGetCapabilities stanza pc s) = _pendingBuddies s
  ∧ buddyHeap (afterGetCapabilities stanza pc s) = buddyHeap s
  ∧ _pendingExt (afterGetCapabilities stanza pc s) = _pendingExt s
  ∧ arrayHeap (afterGetCapabilities stanza pc s) = arrayHeap s.
Proof. unfold afterGetCapabilities. by destruct (_pending s !! _). Qed.

Lemma afterRegistration_loop s stanza pc :
  Inv s → caps stanza = Some pc →
  InvH (todo_of (length (buddyHeap s)) (uncachedExts s pc)) (afterRegistration stanza pc s)
  ∧ InvR (afterRegistration stanza pc s)
  ∧ _pendingBuddies (afterRegistration stanza pc s) !! from stanza
    = Some (length (buddyHeap s))
  ∧ (∃ b, buddyHeap (afterRegistration stanza pc s) !! length (buddyHeap s) = Some b
          ∧ originalPresence b = stanza)
  ∧ _pendingExt (afterRegistration stanza pc s) = _pendingExt s
  ∧ _cache (afterRegistration stanza pc s) = _cache s
  ∧ _extCache (afterRegistration stanza pc s) = _extCache s
  ∧ emitted (afterRegistration stanza pc s) = emitted s.
Proof.
  intros [HH HR HE] Hpc.
  pose proof (InvH_addBuddy s stanza pc HH Hpc) as HH1.
  assert (InvR (addBuddy stanza s)) as HR1 by by eapply InvR_frame; [..|exact HR].
  assert (_pendingBuddies (addBuddy stanza s) !! from stanza = Some (length (buddyHeap s)))
    as Hfrom by apply lookup_insert_eq.
  assert (buddyHeap (addBuddy stanza s) !! length (buddyHeap s) = Some (newBuddy stanza))
    as Hb by by apply list_lookup_middle.
  unfold afterRegistration. destruct (cached s (fullNodeOf pc)) eqn:Hcached.
  - split; [done|]. split; [done|]. split; [done|]. split; [by eexists|done].
  - destruct (afterGetCapabilities_frame stanza pc (addBuddy stanza s))
      as (Hc & Hx & Hem & Hpb & Hheap & Hpe & _).
    split; [apply InvH_afterGetCapabilities; [done|by rewrite Hfrom]|].
    split; [by apply InvR_afterGetCapabilities|].
    rewrite Hpb, Hheap, Hc, Hx, Hem, Hpe. split; [done|]. split; [by eexists|done].
Qed.

Lemma presence_loop_start s stanza pc :
  Inv s → caps stanza = Some pc → plainExts pc = true →
  presence_loop s stanza pc (length (buddyHeap s)) (uncachedExts s pc)
    (match _pendingExt (afterRegistration stanza pc s) !! fullNodeOf pc with
     | Some _ => afterRegistration stanza pc s
     | None => set_pendingExt <[fullNodeOf pc := ∅]> (afterRegistration stanza pc s)
     end).
Proof.
  intros HI Hpc Hplain.
  destruct (afterRegistration_loop s stanza pc HI Hpc)
    as (HH & HR & Hfrom & Hb & Hpe & Hc & Hx & Hem).
  assert (∀ e, e ∈ uncachedExts s pc →
               extCached (afterRegistration stanza pc s) (fullNodeOf pc) e = false
               ∧ plainKey e = true)
    as Huncached.
  { intros e He. split; [|by eapply uncachedExts_plain].
    rewrite (extCached_frame _ s) by done. by apply uncachedExts_elem. }
  destruct (_pendingExt (afterRegistration stanza pc s) !! fullNodeOf pc) as [m|] eqn:Hm.
  - unfold presence_loop. rewrite Hm. eauto 10.
  - split; [by apply InvH_ensure_pendingExt|]. split; [by apply InvR_ensure_pendingExt|].
    split; [done|]. split; [done|]. split; [hsimpl; rewrite lookup_insert_eq; eauto|].
    split; [exact Huncached|]. hsimpl. by rewrite Hc, Hx, Hem.
Qed.

(** A presence never throws from a state of the invariant, preserves it,
    and leaves the caches alone. *)
Lemma handlePresence_effect s stanza :
  plainStanza (SPresence stanza) = true → Inv s →
  wp (_handlePresence stanza)
    (λ _ s', Inv s' ∧ _cache s' = _cache s ∧ _extCache s' = _extCache s)
    (λ _ _, False) s.
Proof.
  intros Hplain HI. unfold _handlePresence. cbn [plainStanza] in Hplain.
  destruct (caps stanza) as [pc|] eqn:Hpc; [|by wp_run].
  wp_run. rewrite (uncached_plain s pc Hplain).
  destruct (bool_decide (is_Some (cached s (fullNodeOf pc)))
            && bool_decide (length (uncachedExts s pc) = 0)) eqn:Hfast.
  - (* everything is cached *)
    apply andb_true_iff in Hfast as [[entry Hcached]%bool_decide_eq_true
                                       Huncached%bool_decide_eq_true].
    apply nil_length_inv in Huncached.
    pose proof (uncachedExts_nil s pc Huncached) as Hexts.
    destruct (mergeRaw_is_Some s pc entry Hexts) as [raw Hraw].
    eapply emitCapabilitiesEvent_wp; [done..|]. split; [|done].
    eapply Inv_emits; [exact HI|]. eexists. split; [done|].
    intros ev ->%list_elem_of_singleton. exists pc. cbn. rewrite Hcached. eauto.
  - (* the slow path *)
    clear Hfast. wp_run.
    apply (wp_mono _ _ (λ _ s', s' = afterRegistration stanza pc s) _ (λ _ _, False));
      [|intros [] s' ->|done].
    { unfold afterRegistration.
      destruct (cached s (fullNodeOf pc)) as [entry|] eqn:Hcached.
      - rewrite bool_decide_eq_true_2 by eauto. by wp_run.
      - rewrite bool_decide_eq_false_2 by (by intros [? ?]).
        by eapply getCapabilitiesFromPresence_wp. }
    destruct (afterRegistration_loop s stanza pc HI Hpc)
      as (HH & HR & Hfrom & Hb & Hpe & Hc & Hx & Hem).
    destruct (uncachedExts s pc) as [|e0 rest0] eqn:Huncached.
    + rewrite bool_decide_eq_false_2 by (cbn; lia). wp_run.
      split; [|done]. split.
      * eapply InvH_todo_mono; [|exact HH]. by intros l e [_ ?%elem_of_nil].
      * exact HR.
      * eapply InvE_frame; [..|apply HI]; try done. intros F e. by apply extCached_frame.
    + rewrite bool_decide_eq_true_2 by (cbn; lia). wp_run.
      pose proof (presence_loop_start s stanza pc HI Hpc Hplain) as Hstart.
      rewrite Huncached in Hstart.
      assert (∀ s1, presence_loop s stanza pc (length (buddyHeap s)) (e0 :: rest0) s1 →
        wp (forEach (λ ext, _getExtensionFromPresence stanza ext) (e0 :: rest0))
          (λ _ s', Inv s' ∧ _cache s' = _cache s ∧ _extCache s' = _extCache s)
          (λ _ _, False) s1) as Hloop.
      { intros s1 Hs1.
        eapply wp_mono;
          [apply (wp_forEach _ (presence_loop s stanza pc (length (buddyHeap s)))
                    (λ _ _, False));
             [exact Hs1|] | |done].
        - intros e rest s2. by apply presence_loop_body.
        - intros [] s' Hend.
          destruct (presence_loop_end _ _ _ _ _ (inv_E _ HI) Hend) as (? & ? & ? & _).
          done. }
      destruct (_pendingExt (afterRegistration stanza pc s) !! fullNodeOf pc);
        wp_run; by apply Hloop.
Qed.

Lemma Inv_step s stanza : plainStanza stanza = true → Inv s → Inv (step s stanza).
Proof.
  intros Hplain HI. unfold step. destruct stanza as [p|iq|]; cbn [capabilities_mw].
  - apply wp_final. eapply wp_mono; [by apply handlePresence_effect| |done].
    by intros [] s' [? _].
  - by apply Inv_handleIQ.
  - done.
Qed.

Lemma forallb_snoc {A} (f : A → bool) l x :
  forallb f (l ++ [x]) = true → forallb f l = true ∧ f x = true.
Proof.
  rewrite forallb_app. cbn. rewrite andb_true_r. apply andb_true_iff.
Qed.

Lemma Inv_reachable s : reachablePlain s → Inv s.
Proof.
  intros (stanzas & Hplain & ->). unfold run_stanzas.
  induction stanzas as [|stanza stanzas IH] using rev_ind; [apply Inv_new|].
  apply forallb_snoc in Hplain as [Hplain Hstanza].
  rewrite foldl_app. cbn. apply Inv_step; [done|]. by apply IH.
Qed.

Lemma reachablePlain_run stanzas :
  forallb plainStanza stanzas = true → reachablePlain (run_stanzas stanzas new).
Proof. intros H. by exists stanzas. Qed.

Lemma reachablePlain_step s stanza :
  reachablePlain s → plainStanza stanza = true → reachablePlain (step s stanza).
Proof.
  intros (stanzas & Hplain & ->) Hstanza. exists (stanzas ++ [stanza]). split.
  - rewrite forallb_app, Hplain. cbn. by rewrite Hstanza.
  - unfold run_stanzas. by rewrite foldl_app.
Qed.

Lemma reachablePlain_reachable s : reachablePlain s → reachable s.
Proof. intros (stanzas & _ & ->). by exists stanzas. Qed.

(** ** Exceptions *)

Lemma wp_throws {A} (m : M A) Q E s err :
  wp m Q E s → (m s).1 = Throw err → E err (m s).2.
Proof. unfold wp. destruct (m s) as [[a|e] s']; cbn; [done|]. by intros ? [= ->]. Qed.

(** From a state of the invariant and for a stanza that names no member of
    [Object.prototype], the middleware throws for one reason only: a
    response without capabilities to a tracked extension request, on the
    read of [caps.rawFeatures]. Such a presence never throws, and no
    reference is ever dangling. *)
Lemma exceptions_of_step s stanza err :
  plainStanza stanza = true →
  Inv s → (capabilities_mw stanza s).1 = Throw err →
  err = TypeError
  ∧ ∃ iq r e, stanza = SIq iq ∧ capabilities iq = None
      ∧ _iqRequests s !! id iq = Some r ∧ type r = TExt e.
Proof.
  intros Hplain HI Herr.
  destruct stanza as [p|iq|]; cbn [capabilities_mw] in Herr; [| |done].
  - by destruct (wp_throws _ _ _ _ _ (handlePresence_effect s p Hplain HI) Herr).
  - destruct (_iqRequests s !! id iq) as [r|] eqn:Hr.
    + destruct (type r) as [|e] eqn:Ht.
      * by destruct (wp_throws _ _ _ _ _ (handleIQ_caps_effect s iq r HI Hr Ht) Herr).
      * destruct (wp_throws _ _ _ _ _ (handleIQ_ext_effect s iq r e HI Hr Ht) Herr)
          as (-> & Hnone & _).
        split; [done|]. by exists iq, r, e.
    + unfold _handleIQ, bind, gets in Herr. by rewrite get_absent in Herr.
Qed.

(** * Coalescing: one query, all waiters *)

(** A presence whose extensions are all cached while its main capabilities
    are not: the peer gets a record and waits for the main query. *)
Lemma handlePresence_main_only s stanza pc :
  caps stanza = Some pc → cached s (fullNodeOf pc) = None → uncachedExts s pc = [] →
  _handlePresence stanza s
  = (Ret tt, afterGetCapabilities stanza pc (addBuddy stanza s)).
Proof.
  intros Hpc Hcached Huncached. apply wp_run_eq.
  unfold _handlePresence. rewrite Hpc. wp_run.
  rewrite (uncached_nil s pc Huncached), Hcached.
  rewrite (bool_decide_eq_false_2 (is_Some None)) by (by intros [? ?]).
  cbn [andb]. wp_run. eapply getCapabilitiesFromPresence_wp; [done|].
  rewrite bool_decide_eq_false_2 by (cbn; lia). by wp_run.
Qed.

Lemma coalesced_first s0 pc j :
  cached s0 (fullNodeOf pc) = None → _pending s0 !! fullNodeOf pc = None →
  uncachedExts s0 pc = [] →
  coalesced s0 pc [j] (step s0 (SPresence (announce pc j))).
Proof.
  intros Hcached Hpending Huncached. unfold step. cbn [capabilities_mw].
  rewrite (handlePresence_main_only s0 (announce pc j) pc) by done. cbn [snd].
  unfold afterGetCapabilities, addBuddy. hsimpl. rewrite Hpending.
  constructor; hsimpl; try done.
  - exists j. done.
  - apply lookup_insert_eq.
  - eexists. rewrite lookup_alter_eq, lookup_insert_eq. done.
  - intros j' ->%list_elem_of_singleton. exists (length (buddyHeap s0)).
    cbn [from announce]. rewrite lookup_insert_eq. split; [done|].
    by apply list_lookup_middle.
Qed.

Lemma coalesced_next s0 pc js j s :
  cached s0 (fullNodeOf pc) = None → uncachedExts s0 pc = [] →
  coalesced s0 pc js s →
  coalesced s0 pc (js ++ [j]) (step s (SPresence (announce pc j)))
  ∧ sent (step s (SPresence (announce pc j))) = sent s
  ∧ _iqRequests (step s (SPresence (announce pc j))) = _iqRequests s.
Proof.
  intros Hcached Huncached [Hc Hx Hem (j0 & Hj0 & Hsent) Hreq (p & Hp & Hjs) Hb].
  unfold step. cbn [capabilities_mw].
  rewrite (handlePresence_main_only s (announce pc j) pc); [|done| |].
  2: { by rewrite (cached_frame _ s0). }
  2: { unfold uncachedExts in *. destruct (pc_ext pc); [|done]. rewrite <-Huncached.
       apply list_filter_iff. intros e. by rewrite (extCached_frame s s0). }
  cbn [snd]. unfold afterGetCapabilities, addBuddy. hsimpl. rewrite Hp.
  split; [|done]. constructor; hsimpl; try done.
  - exists j0. split; [|done]. destruct js; [done|]. done.
  - exists (addWaiter j p). rewrite lookup_alter_eq, Hp. split; [done|].
    cbn. by rewrite Hjs.
  - intros j' Hj'. cbn [from announce].
    destruct (decide (j = j')) as [<-|Hne].
    + exists (length (buddyHeap s)). rewrite lookup_insert_eq. split; [done|].
      by apply list_lookup_middle.
    + apply elem_of_app in Hj' as [Hj'|Hj'%list_elem_of_singleton]; [|congruence].
      destruct (Hb j' Hj') as (l & Hl & Hheap). exists l.
      rewrite lookup_insert_ne by done. split; [done|]. by apply lookup_app_l_Some.
Qed.

Lemma coalesced_run s0 pc j js :
  cached s0 (fullNodeOf pc) = None → _pending s0 !! fullNodeOf pc = None →
  uncachedExts s0 pc = [] →
  coalesced s0 pc (j :: js)
    (run_stanzas (SPresence ∘ announce pc <$> j :: js) s0).
Proof.
  intros Hcached Hpending Huncached.
  induction js as [|j' js IH] using rev_ind.
  - by apply coalesced_first.
  - rewrite app_comm_cons, fmap_app. unfold run_stanzas in *. rewrite foldl_app.
    cbn [fmap list_fmap foldl compose].
    by apply (coalesced_next s0 pc (j :: js) j').
Qed.

Lemma mergeRaw_frame s s' pc entry :
  _extCache s = _extCache s' → mergeRaw s pc entry = mergeRaw s' pc entry.
Proof. unfold mergeRaw. by intros ->. Qed.

Lemma coalesced_response s0 pc js s c raw :
  coalesced s0 pc js s → mergeRaw s0 pc c = Some raw →
  wp (_handleIQ {| id := requestId (S (_iqCount s0)); capabilities := Some c |})
    (λ _ s', emitted s' = emitted s0 ++ ((λ j, mergedEvent (announce pc j) c raw) <$> js)
             ∧ sent s' = sent s
             ∧ cached s' (fullNodeOf pc) = Some c
             ∧ _pending s' !! fullNodeOf pc = None
             ∧ _iqRequests s' !! requestId (S (_iqCount s0)) = None)
    (λ _ _, False) s.
Proof.
  intros [Hc Hx Hem _ Hreq (p & Hp & Hjs) Hb] Hraw.
  unfold _handleIQ. wp_run. cbn [id].
  rewrite (get_own _ _ _ Hreq). cbn [asRequest type mainRequest].
  unfold _handleIQCaps. wp_run. cbn [fullNode mainRequest capabilities]. hsimpl.
  rewrite Hp. wp_run.
  set (s1 := set_cache <[fullNodeOf pc := Some c]> s).
  eapply wp_mono;
    [apply (wp_forEach _
              (λ rest s', ∃ visited, visited ++ rest = js
                 ∧ s' = set_emitted
                          (λ l, l ++ ((λ j, mergedEvent (announce pc j) c raw) <$> visited))
                          s1)
              (λ _ _, False)) | |done].
  - exists []. rewrite Hjs. split; [done|]. unfold set_emitted. cbn.
    by rewrite app_nil_r.
  - intros j rest s' (visited & Hvisited & ->).
    destruct (Hb j) as (l & Hl & Hheap).
    { rewrite <-Hvisited. apply elem_of_app. right. by left. }
    eapply (emitEventIfFullyLoaded_wp j l (newBuddy (announce pc j)) pc); [done..| |].
    + intros entry Hentry _. unfold cached, s1 in Hentry. hsimpl.
      rewrite lookup_insert_eq in Hentry. injection Hentry as <-.
      exists raw. split; [by rewrite (mergeRaw_frame _ s0)|].
      exists (visited ++ [j]). rewrite <-app_assoc. split; [done|].
      unfold set_emitted. cbn. by rewrite fmap_app, app_assoc.
    + intros [Hnone|Hne]; [|done]. unfold cached, s1 in Hnone. hsimpl.
      by rewrite lookup_insert_eq in Hnone.
  - intros [] s' (visited & Hvisited & ->). rewrite app_nil_r in Hvisited. subst visited.
    wp_run. unfold cached, s1. hsimpl.
    rewrite Hem, !lookup_delete_eq, lookup_insert_eq. done.
Qed.

(** Scenario B in general: [j :: js] announce the same uncached
    fingerprint before any response. Exactly one query goes out, to the
    first announcer, and its response notifies every announcer, in the
    order of the announcements. *)
Lemma coalesced_round s pc j js c :
  cached s (fullNodeOf pc) = None → _pending s !! fullNodeOf pc = None →
  uncachedExts s pc = [] →
  ∃ raw, mergeRaw s pc c = Some raw
    ∧ sent (run_stanzas (SPresence ∘ announce pc <$> j :: js) s)
      = sent s ++ [ {| q_to := j; q_id := requestId (S (_iqCount s));
                       q_node := fullNodeOf pc |} ]
    ∧ emitted (run_stanzas (SPresence ∘ announce pc <$> j :: js) s) = emitted s
    ∧ sent (run_stanzas ((SPresence ∘ announce pc <$> j :: js)
              ++ [SIq {| id := requestId (S (_iqCount s)); capabilities := Some c |}]) s)
      = sent s ++ [ {| q_to := j; q_id := requestId (S (_iqCount s));
                       q_node := fullNodeOf pc |} ]
    ∧ emitted (run_stanzas ((SPresence ∘ announce pc <$> j :: js)
                 ++ [SIq {| id := requestId (S (_iqCount s)); capabilities := Some c |}]) s)
      = emitted s ++ ((λ j', mergedEvent (announce pc j') c raw) <$> j :: js).
Proof.
  intros Hcached Hpending Huncached.
  destruct (mergeRaw_is_Some s pc c (uncachedExts_nil s pc Huncached)) as [raw Hraw].
  exists raw. split; [done|].
  pose proof (coalesced_run s pc j js Hcached Hpending Huncached) as Hco.
  destruct (co_sent _ _ _ _ Hco) as (j0 & [= <-] & Hsent).
  split; [done|]. split; [apply (co_emitted _ _ _ _ Hco)|].
  unfold run_stanzas in *. rewrite foldl_app. cbn [foldl]. unfold step at 1 3.
  cbn [capabilities_mw].
  destruct (wp_returns _ _ _ (coalesced_response s pc (j :: js) _ c raw Hco Hraw))
    as ([] & _ & Hem & Hsent' & _).
  split; [congruence|done].
Qed.

(** * The pending-buddies map only grows *)

#[local] Instance keeps_buddies_preorder : PreOrder keeps_buddies.
Proof. split; [by intros s j|]. intros s1 s2 s3 H12 H23 j Hj. auto. Qed.

Lemma preserves_modify (R : relation Handler) f :
  (∀ s, R s (f s)) → preserves R (modify f).
Proof. intros H s. apply H. Qed.

Lemma preserves_allocBuddy (R : relation Handler) b :
  (∀ s, R s (set_buddyHeap (λ h, h ++ [b]) s)) → preserves R (allocBuddy b).
Proof. intros H s. apply H. Qed.

Lemma preserves_allocArray (R : relation Handler) bs :
  (∀ s, R s (set_arrayHeap (λ h, h ++ [bs]) s)) → preserves R (allocArray bs).
Proof. intros H s. apply H. Qed.

Ltac preserves_step R :=
  lazymatch goal with
  | |- preserves _ (ret _) => apply (preserves_ret R)
  | |- preserves _ (throw _) => apply (preserves_throw R)
  | |- preserves _ (gets _) => apply (preserves_gets R)
  | |- preserves _ (defined _) => apply (preserves_defined R)
  | |- preserves _ (derefBuddy _) => apply (preserves_derefBuddy R)
  | |- preserves _ (derefArray _) => apply (preserves_derefArray R)
  | |- preserves _ (bind _ _) => apply (preserves_bind R); [|intros ?]
  | |- preserves _ (forEach _ _) => apply (preserves_forEach R); intros ?
  | |- preserves _ (modify _) => apply (preserves_modify R); intros ?
  | |- preserves _ (allocBuddy _) => apply (preserves_allocBuddy R); intros ?
  | |- preserves _ (allocArray _) => apply (preserves_allocArray R); intros ?
  | |- preserves _ (match ?x with _ => _ end) => destruct x
  | |- preserves _ (let _ := _ in _) => cbv zeta
  end.

Lemma keeps_buddies_emitCapabilitiesEvent presence :
  preserves keeps_buddies (_emitCapabilitiesEvent presence).
Proof. unfold _emitCapabilitiesEvent. repeat preserves_step keeps_buddies; by intros j. Qed.

Lemma keeps_buddies_emitEventIfFullyLoaded jid :
  preserves keeps_buddies (_emitEventIfFullyLoaded jid).
Proof.
  unfold _emitEventIfFullyLoaded.
  repeat lazymatch goal with
         | |- preserves _ (_emitCapabilitiesEvent _) =>
             apply keeps_buddies_emitCapabilitiesEvent
         | _ => preserves_step keeps_buddies
         end.
Qed.

Lemma keeps_buddies_sendDiscoQuery stanza node extraData :
  preserves keeps_buddies (_sendDiscoQuery stanza node extraData).
Proof. unfold _sendDiscoQuery. repeat preserves_step keeps_buddies; by intros j. Qed.

Lemma keeps_buddies_getExtensionFromPresence stanza ext :
  preserves keeps_buddies (_getExtensionFromPresence stanza ext).
Proof.
  unfold _getExtensionFromPresence.
  repeat lazymatch goal with
         | |- preserves _ (_sendDiscoQuery _ _ _) => apply keeps_buddies_sendDiscoQuery
         | _ => preserves_step keeps_buddies
         end;
    by intros j.
Qed.

Lemma keeps_buddies_getCapabilitiesFromPresence stanza :
  preserves keeps_buddies (_getCapabilitiesFromPresence stanza).
Proof.
  unfold _getCapabilitiesFromPresence.
  repeat lazymatch goal with
         | |- preserves _ (_sendDiscoQuery _ _ _) => apply keeps_buddies_sendDiscoQuery
         | _ => preserves_step keeps_buddies
         end;
    by intros j.
Qed.

Lemma keeps_buddies_handlePresence stanza :
  preserves keeps_buddies (_handlePresence stanza).
Proof.
  unfold _handlePresence.
  repeat lazymatch goal with
         | |- preserves _ (_emitCapabilitiesEvent _) =>
             apply keeps_buddies_emitCapabilitiesEvent
         | |- preserves _ (_getCapabilitiesFromPresence _) =>
             apply keeps_buddies_getCapabilitiesFromPresence
         | |- preserves _ (_getExtensionFromPresence _ _) =>
             apply keeps_buddies_getExtensionFromPresence
         | _ => preserves_step keeps_buddies
         end;
    try by intros j.
  intros j Hj. hsimpl. apply lookup_insert_is_Some'. by right.
Qed.

Lemma keeps_buddies_handleIQ stanza : preserves keeps_buddies (_handleIQ stanza).
Proof.
  unfold _handleIQ, _handleIQExt, _handleIQCaps.
  repeat lazymatch goal with
         | |- preserves _ (_emitEventIfFullyLoaded _) =>
             apply keeps_buddies_emitEventIfFullyLoaded
         | _ => preserves_step keeps_buddies
         end;
    by intros j.
Qed.

Lemma keeps_buddies_step s stanza : keeps_buddies s (step s stanza).
Proof.
  unfold step. destruct stanza; cbn [capabilities_mw].
  - apply keeps_buddies_handlePresence.
  - apply keeps_buddies_handleIQ.
  - reflexivity.
Qed.

Lemma keeps_buddies_run stanzas s : keeps_buddies s (run_stanzas stanzas s).
Proof.
  revert s. induction stanzas as [|stanza stanzas IH]; intros s; [reflexivity|].
  cbn. etrans; [apply keeps_buddies_step|apply IH].
Qed.

(** * Emitting only appends to the log *)

#[local] Instance only_emits_preorder : PreOrder only_emits.
Proof.
  split.
  - intros s. exists []. destruct s. unfold set_emitted. cbn. by rewrite app_nil_r.
  - intros s1 s2 s3 [evs1 ->] [evs2 ->]. exists (evs1 ++ evs2).
    unfold set_emitted. cbn. by rewrite app_assoc.
Qed.

Lemma only_emits_emitCapabilitiesEvent presence :
  preserves only_emits (_emitCapabilitiesEvent presence).
Proof.
  unfold _emitCapabilitiesEvent. repeat preserves_step only_emits. by eexists.
Qed.

Lemma only_emits_emitEventIfFullyLoaded jid :
  preserves only_emits (_emitEventIfFullyLoaded jid).
Proof.
  unfold _emitEventIfFullyLoaded.
  repeat lazymatch goal with
         | |- preserves _ (_emitCapabilitiesEvent _) =>
             apply only_emits_emitCapabilitiesEvent
         | _ => preserves_step only_emits
         end.
Qed.

(** * The log of events only grows *)

#[local] Instance log_grows_preorder : PreOrder log_grows.
Proof. unfold log_grows. split; [by intros s|]. intros s1 s2 s3 ? ?. by etrans. Qed.

Ltac log_grows_done :=
  intros; unfold log_grows; hsimpl; first [reflexivity | by apply prefix_app_r].

Lemma log_grows_emitCapabilitiesEvent presence :
  preserves log_grows (_emitCapabilitiesEvent presence).
Proof. unfold _emitCapabilitiesEvent. repeat preserves_step log_grows; log_grows_done. Qed.

Lemma log_grows_emitEventIfFullyLoaded jid :
  preserves log_grows (_emitEventIfFullyLoaded jid).
Proof.
  unfold _emitEventIfFullyLoaded.
  repeat lazymatch goal with
         | |- preserves _ (_emitCapabilitiesEvent _) =>
             apply log_grows_emitCapabilitiesEvent
         | _ => preserves_step log_grows
         end.
Qed.

Lemma log_grows_sendDiscoQuery stanza node extraData :
  preserves log_grows (_sendDiscoQuery stanza node extraData).
Proof. unfold _sendDiscoQuery. repeat preserves_step log_grows; log_grows_done. Qed.

Lemma log_grows_handlePresence stanza : preserves log_grows (_handlePresence stanza).
Proof.
  unfold _handlePresence, _getCapabilitiesFromPresence, _getExtensionFromPresence.
  repeat lazymatch goal with
         | |- preserves _ (_emitCapabilitiesEvent _) =>
             apply log_grows_emitCapabilitiesEvent
         | |- preserves _ (_sendDiscoQuery _ _ _) => apply log_grows_sendDiscoQuery
         | _ => preserves_step log_grows
         end;
    log_grows_done.
Qed.

Lemma log_grows_handleIQ stanza : preserves log_grows (_handleIQ stanza).
Proof.
  unfold _handleIQ, _handleIQExt, _handleIQCaps.
  repeat lazymatch goal with
         | |- preserves _ (_emitEventIfFullyLoaded _) =>
             apply log_grows_emitEventIfFullyLoaded
         | _ => preserves_step log_grows
         end;
    log_grows_done.
Qed.

Lemma log_grows_step s stanza : log_grows s (step s stanza).
Proof.
  unfold step. destruct stanza; cbn [capabilities_mw].
  - apply log_grows_handlePresence.
  - apply log_grows_handleIQ.
  - reflexivity.
Qed.

(** * Emission *)

Lemma single_emission_counterexample :
  q_id <$> sent (run_stanzas ex_announced_twice new) = ["caps-1"]
  ∧ ev_jid <$> emitted (run_stanzas ex_announced_twice new) = ["p1"; "p1"]
  ∧ length (emitted (run_stanzas ex_announced_twice new)) ≠ 1.
Proof. by vm_compute. Qed.

(** C1 (amended): in every state the middleware reaches by stanzas that
    name no member of [Object.prototype], each event in the log was raised
    for an announcement whose main capabilities and extensions are all in
    the caches, and the events that handling one more such stanza appends
    are for announcements fully cached once the stanza is handled. Nothing
    limits the number of events per announcement: waiters are not
    deduplicated, so a peer that announces the same uncached fingerprint
    twice before the response is notified twice when the response is
    handled. *)
Theorem events_only_when_fully_cached (s : Handler) :
  reachablePlain s →
  (∀ ev, ev ∈ emitted s → fullyCached s (ev_presence ev))
  ∧ (∀ stanza, plainStanza stanza = true →
       ∃ evs, emitted (step s stanza) = emitted s ++ evs
              ∧ ∀ ev, ev ∈ evs → fullyCached (step s stanza) (ev_presence ev))
  ∧ (∀ pc j c,
       cached s (fullNodeOf pc) = None → _pending s !! fullNodeOf pc = None →
       uncachedExts s pc = [] →
       ∃ raw, mergeRaw s pc c = Some raw
         ∧ emitted (run_stanzas
                      [ SPresence (announce pc j); SPresence (announce pc j);
                        SIq {| id := requestId (S (_iqCount s));
                               capabilities := Some c |} ] s)
           = emitted s ++ [ mergedEvent (announce pc j) c raw;
                            mergedEvent (announce pc j) c raw ]).
Proof.
  intros Hs. pose proof (Inv_reachable s Hs) as HI.
  split; [apply (inv_E _ HI)|]. split.
  { intros stanza Hplain. destruct (log_grows_step s stanza) as [evs Hevs].
    exists evs. split; [done|]. intros ev Hev.
    apply (inv_E _ (Inv_step s stanza Hplain HI)). rewrite Hevs. apply elem_of_app.
    by right. }
  intros pc j c Hcached Hpending Huncached.
  destruct (coalesced_round s pc j [j] c Hcached Hpending Huncached)
    as (raw & Hraw & _ & _ & _ & Hem).
  exists raw. split; [done|exact Hem].
Qed.

Lemma events_only_when_fully_cached_witness :
  emitted ex_ext_resolved ≠ []
  ∧ (∀ ev, ev ∈ emitted ex_ext_resolved → fullyCached ex_ext_resolved (ev_presence ev))
  ∧ (∀ stanza, plainStanza stanza = true →
       ∃ evs, emitted (step ex_ext_resolved stanza) = emitted ex_ext_resolved ++ evs
              ∧ ∀ ev, ev ∈ evs → fullyCached (step ex_ext_resolved stanza) (ev_presence ev))
  ∧ ∃ raw, mergeRaw ex_ext_resolved ex_announce_lib (ex_caps ["jabber:iq:version"])
           = Some raw
      ∧ emitted (run_stanzas
                   [ SPresence (announce ex_announce_lib "p2");
                     SPresence (announce ex_announce_lib "p2");
                     SIq {| id := requestId (S (_iqCount ex_ext_resolved));
                            capabilities := Some (ex_caps ["jabber:iq:version"]) |} ]
                   ex_ext_resolved)
        = emitted ex_ext_resolved
          ++ [ mergedEvent (announce ex_announce_lib "p2")
                 (ex_caps ["jabber:iq:version"]) raw;
               mergedEvent (announce ex_announce_lib "p2")
                 (ex_caps ["jabber:iq:version"]) raw ].
Proof.
  destruct (events_only_when_fully_cached ex_ext_resolved) as (H1 & H2 & H3).
  { apply reachablePlain_run. by vm_compute. }
  split; [by vm_compute|]. split; [exact H1|]. split; [exact H2|].
  apply (H3 ex_announce_lib "p2" (ex_caps ["jabber:iq:version"])); by vm_compute.
Defined.

(** * One query per fingerprint *)



(** C2 (the code at the failing input): the single response does not
    resolve all the waiters of a fingerprint when the record of one of
    them has no pending extension although its announcement names one and
    [this._extCache[fullNode]] does not exist. That is the state in which
    an announcement naming an extension like ['toString'] leaves its
    announcer: [_getExtensionFromPresence] took the inherited member for a
    pending entry, sent no query and threw on [push]. The response then
    caches its capabilities and [_emitCapabilitiesEvent] throws on
    [this._extCache[fullNode][ext]] at this waiter: no event is raised,
    the waiters behind it are never told, and the pending entry and the
    tracked request both stay. *)
Theorem response_stops_at_waiter (s : Handler) (iq : IQ) (r : Request) (c : Caps)
    (p : PendingCaps) (j : string) (rest : list string) (l : buddy_ref) (b : Buddy)
    (pc : PCaps) (e : string) (ext : list string) :
  _iqRequests s !! id iq = Some r → type r = TCaps → capabilities iq = Some c →
  _pending s !! fullNode r = Some p → buddies p = j :: rest →
  _pendingBuddies s !! j = Some l → buddyHeap s !! l = Some b →
  caps (originalPresence b) = Some pc → fullNodeOf pc = fullNode r →
  pendingExts b = [] → pc_ext pc = Some (e :: ext) →
  _extCache s !! fullNode r = None →
  capabilities_mw (SIq iq) s
  = (Throw TypeError, set_cache <[fullNode r := Some c]> s).
Proof.
  intros Hr Ht Hc Hp Hbuddies Hl Hb Hpc HF Hexts Hext Hcache.
  assert (wp (capabilities_mw (SIq iq)) (λ _ _, False)
            (λ err s', err = TypeError ∧ s' = set_cache <[fullNode r := Some c]> s) s)
    as H.
  { cbn [capabilities_mw]. unfold _handleIQ. wp_run.
    rewrite (get_own _ _ _ Hr). cbn [asRequest]. rewrite Ht.
    unfold _handleIQCaps. wp_run. hsimpl. rewrite Hp, Hc, Hbuddies. cbn [forEach]. wp_run.
    unfold _emitEventIfFullyLoaded. wp_run. hsimpl. rewrite Hl. wp_run.
    eapply wp_derefBuddy; [done|]. rewrite Hpc. wp_run.
    unfold cached. hsimpl. rewrite HF, lookup_insert_eq. cbn [mjoin option_join].
    rewrite Hexts. rewrite bool_decide_eq_true_2 by eauto.
    rewrite bool_decide_eq_true_2 by done. cbn [andb].
    unfold _emitCapabilitiesEvent. rewrite Hpc. wp_run.
    unfold cached. hsimpl. rewrite HF, lookup_insert_eq. cbn [mjoin option_join].
    wp_run. hsimpl. rewrite Hext, Hcache. cbn [addExtensions]. by wp_run. }
  unfold wp in H.
  destruct (capabilities_mw (SIq iq) s) as [[[]|err] s']; [done|].
  by destruct H as [-> ->].
Qed.

Lemma response_stops_at_waiter_witness :
  (capabilities_mw (ex_presence "p1" (Some ["toString"])) new).1 = Throw TypeError
  ∧ (capabilities_mw (ex_presence "p2" (Some []))
       (step new (ex_presence "p1" (Some ["toString"])))).1 = Ret tt
  ∧ q_id <$> sent ex_starved = ["caps-1"]
  ∧ buddies <$> _pending ex_starved !! "app#v1" = Some ["p1"; "p2"]
  ∧ capabilities_mw (ex_response "caps-1" ["jabber:iq:version"]) ex_starved
    = (Throw TypeError,
       set_cache <["app#v1" := Some (ex_caps ["jabber:iq:version"])]> ex_starved)
  ∧ emitted (step ex_starved (ex_response "caps-1" ["jabber:iq:version"])) = [].
Proof.
  assert (capabilities_mw (ex_response "caps-1" ["jabber:iq:version"]) ex_starved
          = (Throw TypeError,
             set_cache <["app#v1" := Some (ex_caps ["jabber:iq:version"])]> ex_starved))
    as H.
  { apply (response_stops_at_waiter ex_starved
             {| id := "caps-1"; capabilities := Some (ex_caps ["jabber:iq:version"]) |}
             (mainRequest (ex_announce (Some ["toString"])))
             (ex_caps ["jabber:iq:version"])
             {| p_node := Some "app"; p_ver := Some "v1"; buddies := ["p1"; "p2"] |}
             "p1" ["p2"] 0
             {| jid := "p1"; pendingExts := [];
                originalPresence :=
                  {| from := "p1"; caps := Some (ex_announce (Some ["toString"])) |} |}
             (ex_announce (Some ["toString"])) "toString" []);
      by vm_compute. }
  split; [by vm_compute|]. split; [by vm_compute|]. split; [by vm_compute|].
  split; [by vm_compute|]. split; [exact H|].
  unfold step. by rewrite H.
Defined.

(** * The caches *)

Lemma cache_after_step s stanza :
  plainStanza stanza = true → Inv s →
  (∀ F c, cached s F = Some c → cached (step s stanza) F = Some c).
Proof.
  intros Hplain HI F c Hc. unfold step. destruct stanza as [p|iq|]; cbn [capabilities_mw];
    [| |done].
  - apply wp_final. eapply wp_mono; [by apply handlePresence_effect| |done].
    intros [] s' (_ & Hcache & _). by rewrite (cached_frame s' s).
  - destruct (_iqRequests s !! id iq) as [r|] eqn:Hr.
    + destruct (type r) as [|e] eqn:Ht.
      * apply wp_final. eapply wp_mono; [by apply (handleIQ_caps_effect s iq r)| |done].
        intros [] s' (s'' & (evs & -> & _) & ->). unfold cached in *. hsimpl.
        destruct (inv_req_caps _ (inv_R _ HI) _ _ Hr Ht) as [_ Hnone].
        unfold cached in Hnone. rewrite lookup_insert_ne; [done|].
        intros Heq. rewrite Heq, Hc in Hnone. done.
      * apply wp_final. eapply wp_mono; [by apply (handleIQ_ext_effect s iq r e)| |].
        -- intros [] s' (c' & _ & _ & Hcache & _). by rewrite (cached_frame s' s).
        -- intros err s' (_ & _ & _ & Hcache & _). by rewrite (cached_frame s' s).
    + unfold _handleIQ, bind, gets. by rewrite get_absent.
Qed.

Lemma write_once_counterexample :
  MemoryCache.getCapabilities "app#v1"
    (MemoryCache.saveCapabilities "app#v1" (ex_caps ["urn:xmpp:bob"])
       (MemoryCache.saveCapabilities "app#v1" (ex_caps ["jabber:iq:version"])
          MemoryCache.new))
  ≠ MemoryCache.getCapabilities "app#v1"
      (MemoryCache.saveCapabilities "app#v1" (ex_caps ["jabber:iq:version"])
         MemoryCache.new).
Proof. vm_compute. discriminate. Qed.

(** C4 (amended): a put overwrites. For keys that are not names of members
    of [Object.prototype], [saveCapabilities] and [saveExtension] store the
    new value under a key that is already present, and [_handleIQCaps]
    assigns [this._cache[node]] in the same way. As long as no stanza names
    such a member, the cached CapabilitySet of a fingerprint is
    nevertheless never altered by the middleware: in a state reached that
    way no tracked main request targets a cached fingerprint, so no
    stanza, and in particular no second response, changes an entry that is
    there. *)
Theorem cached_entry_unaltered (s : Handler) (stanza : Stanza) (F : string) (c : Caps) :
  reachablePlain s → plainStanza stanza = true → cached s F = Some c →
  cached (step s stanza) F = Some c
  ∧ (∀ node caps1 caps2 cache,
       plainKey node = true →
       MemoryCache.getCapabilities node
         (MemoryCache.saveCapabilities node caps2
            (MemoryCache.saveCapabilities node caps1 cache)) = Some caps2)
  ∧ (∀ node ext features1 features2 cache,
       plainKey node = true → plainKey ext = true →
       MemoryCache._extCache
         (MemoryCache.saveExtension node ext features2
            (MemoryCache.saveExtension node ext features1 cache)) !! node ≫= (.!! ext)
       = Some features2)
  ∧ (∀ iq r, type r = TCaps → plainKey (fullNode r) = true →
       _cache (_handleIQCaps iq r s).2 !! fullNode r = Some (capabilities iq)).
Proof.
  intros Hs Hplain Hc.
  split; [apply cache_after_step; [done|by apply Inv_reachable|done]|].
  split; [|split].
  - intros node caps1 caps2 cache _. unfold MemoryCache.getCapabilities. cbn.
    apply lookup_insert_eq.
  - intros node ext f1 f2 cache _ _. cbn. rewrite !lookup_insert_eq. cbn.
    apply lookup_insert_eq.
  - intros iq r _ _. apply wp_final. unfold _handleIQCaps. wp_run. hsimpl.
    assert (∀ s', _cache s' = <[fullNode r := capabilities iq]> (_cache s) →
                  _cache s' !! fullNode r = Some (capabilities iq)) as Hpost.
    { intros s' ->. apply lookup_insert_eq. }
    destruct (_pending s !! fullNode r); wp_run; [|by apply Hpost].
    eapply wp_mono;
      [apply (wp_forEach _ (λ _ s', _cache s' = <[fullNode r := capabilities iq]> (_cache s))
                (λ _ s', _cache s' = <[fullNode r := capabilities iq]> (_cache s)));
         [done|] | |].
    + intros j rest s' Hs'. destruct (only_emits_emitEventIfFullyLoaded j s') as [evs Hevs].
      unfold wp. destruct (_emitEventIfFullyLoaded j s') as [[[]|?] s'']; cbn in Hevs;
        by subst s''.
    + intros [] s' Hs'. wp_run. by apply Hpost.
    + intros err s' Hs'. by apply Hpost.
Qed.

Lemma reachable_run stanzas : reachable (run_stanzas stanzas new).
Proof. by exists stanzas. Qed.

Lemma cached_entry_unaltered_witness :
  cached (step ex_main_cached (ex_response "caps-1" ["urn:xmpp:bob"])) "app#v1"
  = Some (ex_caps ["jabber:iq:version"]).
Proof.
  apply (proj1 (cached_entry_unaltered ex_main_cached
                  (ex_response "caps-1" ["urn:xmpp:bob"])
                  "app#v1" (ex_caps ["jabber:iq:version"])
                  (reachablePlain_run [ex_presence "p0" (Some []);
                                       ex_response "caps-1" ["jabber:iq:version"]]
                     eq_refl)
                  eq_refl ltac:(by vm_compute))).
Defined.

(** * The ledger of pending buddies *)

Lemma ledger_release_counterexample :
  ev_jid <$> emitted ex_main_cached = ["p0"]
  ∧ _pendingBuddies ex_main_cached !! "p0" = Some 0
  ∧ ¬ (_pendingBuddies ex_main_cached !! "p0" = None).
Proof. by vm_compute. Qed.

(** C6 (amended): the record of a peer stays in [_pendingBuddies] when the
    peer is resolved and its event has fired. [_emitCapabilitiesEvent] and
    [_emitEventIfFullyLoaded] change nothing but the log of events, and no
    stanza ever removes an identity from the map; the middleware has no
    release operation. *)
Theorem pending_record_stays (s : Handler) (jid : string) :
  is_Some (_pendingBuddies s !! jid) →
  (∀ stanzas, is_Some (_pendingBuddies (run_stanzas stanzas s) !! jid))
  ∧ (∀ presence,
       _pendingBuddies (_emitCapabilitiesEvent presence s).2 = _pendingBuddies s
       ∧ buddyHeap (_emitCapabilitiesEvent presence s).2 = buddyHeap s)
  ∧ (∀ j,
       _pendingBuddies (_emitEventIfFullyLoaded j s).2 = _pendingBuddies s
       ∧ buddyHeap (_emitEventIfFullyLoaded j s).2 = buddyHeap s).
Proof.
  intros Hjid. split; [|split].
  - intros stanzas. by apply keeps_buddies_run.
  - intros presence. by destruct (only_emits_emitCapabilitiesEvent presence s) as [evs ->].
  - intros j. by destruct (only_emits_emitEventIfFullyLoaded j s) as [evs ->].
Qed.

Lemma pending_record_stays_witness :
  is_Some (_pendingBuddies
             (run_stanzas [ex_presence "p0" (Some []);
                           ex_response "caps-1" ["jabber:iq:version"];
                           ex_presence "p0" (Some [])]
                (step new (ex_presence "p0" (Some [])))) !! "p0").
Proof.
  apply (proj1 (pending_record_stays (step new (ex_presence "p0" (Some []))) "p0"
                  ltac:(vm_compute; eauto))).
Defined.

(** * Routing of responses *)

Lemma wp_preserves {A} (R : relation Handler) (m : M A) s :
  preserves R m → wp m (λ _, R s) (λ _, R s) s.
Proof. intros H. unfold wp. specialize (H s). by destruct (m s) as [[a|e] s']. Qed.

Lemma wp_preserves_trans {A} (R : relation Handler) `{!PreOrder R} (m : M A) s0 s :
  preserves R m → R s0 s → wp m (λ _, R s0) (λ _, R s0) s.
Proof.
  intros H Hs. unfold wp. specialize (H s).
  destruct (m s) as [[a|e] s']; by etrans.
Qed.

#[local] Instance keeps_ext_requests_preorder : PreOrder keeps_ext_requests.
Proof.
  split; [intros s H; exact H|]. intros s1 s2 s3 H12 H23 H. apply H23, H12, H.
Qed.

#[local] Instance same_stores_preorder : PreOrder same_stores.
Proof.
  split; [done|]. intros s1 s2 s3 [H1 H2] [H3 H4]. unfold same_stores.
  by rewrite H3, H4.
Qed.

(** A change that keeps the tracked requests and the fingerprints of
    [_pendingExt]. *)
Lemma keeps_ext_requests_frame s s' :
  (∀ id r, _iqRequests s' !! id = Some r → _iqRequests s !! id = Some r) →
  (∀ F, is_Some (_pendingExt s !! F) → is_Some (_pendingExt s' !! F)) →
  keeps_ext_requests s s'.
Proof.
  intros Hreq Hpe H id r e Hr Ht.
  destruct (H id r e (Hreq _ _ Hr) Ht) as [Hm He]. split; [by apply Hpe|done].
Qed.

Ltac keeps_ext_requests_frame :=
  apply keeps_ext_requests_frame; hsimpl;
  [ first [ done | by intros ? ? [_ ?]%lookup_delete_Some ]
  | first [ done
          | intros ? ?; apply lookup_insert_is_Some'; by right
          | intros ? ?; by apply lookup_alter_is_Some ] ].

Lemma keeps_ext_requests_emitEventIfFullyLoaded jid :
  preserves keeps_ext_requests (_emitEventIfFullyLoaded jid).
Proof.
  unfold _emitEventIfFullyLoaded, _emitCapabilitiesEvent.
  repeat preserves_step keeps_ext_requests; keeps_ext_requests_frame.
Qed.

Lemma keeps_ext_requests_handleIQ stanza :
  preserves keeps_ext_requests (_handleIQ stanza).
Proof.
  unfold _handleIQ, _handleIQExt, _handleIQCaps.
  repeat lazymatch goal with
         | |- preserves _ (_emitEventIfFullyLoaded _) =>
             apply keeps_ext_requests_emitEventIfFullyLoaded
         | _ => preserves_step keeps_ext_requests
         end;
    keeps_ext_requests_frame.
Qed.

Lemma keeps_ext_requests_getCapabilitiesFromPresence stanza :
  preserves keeps_ext_requests (_getCapabilitiesFromPresence stanza).
Proof.
  unfold _getCapabilitiesFromPresence, _sendDiscoQuery.
  repeat preserves_step keeps_ext_requests; try keeps_ext_requests_frame.
  intros H id r e Hr Ht. hsimpl.
  apply lookup_insert_Some in Hr as [[<- <-]|[_ Hr]]; [done|].
  by apply (H id r e).
Qed.

(** The request for an extension is recorded after
    [this._pendingExt[fullNode]] has been read, so with its fingerprint in
    [_pendingExt], and only for an extension that does not read as
    pending: no name inherited from [Object.prototype]. *)
Lemma keeps_ext_requests_getExtensionFromPresence stanza ext :
  preserves keeps_ext_requests (_getExtensionFromPresence stanza ext).
Proof.
  intros s. apply wp_final. unfold _getExtensionFromPresence.
  destruct (caps stanza) as [pc|] eqn:Hc; wp_run; [|done].
  destruct (_pendingExt s !! fullNodeOf pc) as [m|] eqn:Hm; wp_run; [|done].
  destruct (get m ext) eqn:Hget.
  1, 2: apply wp_ret; apply (wp_preserves_trans keeps_ext_requests); [|done];
    repeat preserves_step keeps_ext_requests; keeps_ext_requests_frame.
  assert (plainKey ext = true) as Hplain.
  { unfold get in Hget. destruct (m !! ext); [done|]. by destruct (plainKey ext). }
  wp_run. eapply sendDiscoQuery_wp; [done|]. cbn beta. apply wp_ret.
  apply (wp_preserves_trans keeps_ext_requests);
    [repeat preserves_step keeps_ext_requests; keeps_ext_requests_frame|].
  intros H id r e Hr Ht. hsimpl.
  apply lookup_insert_Some in Hr as [[<- <-]|[_ Hr]].
  - cbn [fullNode type] in *. injection Ht as <-.
    rewrite lookup_alter_eq, Hm. split; [by eexists|done].
  - destruct (H id r e Hr Ht) as [[m' Hm'] He]. split; [|done].
    destruct (decide (fullNodeOf pc = fullNode r)) as [<-|Hne].
    + rewrite lookup_alter_eq, Hm. by eexists.
    + rewrite lookup_alter_ne by done. by eexists.
Qed.

Lemma keeps_ext_requests_handlePresence stanza :
  preserves keeps_ext_requests (_handlePresence stanza).
Proof.
  unfold _handlePresence, _emitCapabilitiesEvent.
  repeat lazymatch goal with
         | |- preserves _ (_getCapabilitiesFromPresence _) =>
             apply keeps_ext_requests_getCapabilitiesFromPresence
         | |- preserves _ (_getExtensionFromPresence _ _) =>
             apply keeps_ext_requests_getExtensionFromPresence
         | _ => preserves_step keeps_ext_requests
         end;
    keeps_ext_requests_frame.
Qed.

Lemma ext_requests_pending_reachable s : reachable s → ext_requests_pending s.
Proof.
  intros [stanzas ->]. unfold run_stanzas.
  induction stanzas as [|stanza stanzas IH] using rev_ind.
  - intros id r e Hr. cbn in Hr. by rewrite lookup_empty in Hr.
  - rewrite foldl_app. cbn [foldl]. revert IH. unfold step.
    destruct stanza; cbn [capabilities_mw].
    + apply keeps_ext_requests_handlePresence.
    + apply keeps_ext_requests_handleIQ.
    + done.
Qed.

Lemma same_stores_emitEventIfFullyLoaded jid :
  preserves same_stores (_emitEventIfFullyLoaded jid).
Proof.
  unfold _emitEventIfFullyLoaded, _emitCapabilitiesEvent.
  repeat preserves_step same_stores; done.
Qed.

Lemma wp_bind_inv {A B} (m : M A) (k : A → M B) Q E s :
  wp (bind m k) Q E s → wp m (λ a s', wp (k a) Q E s') E s.
Proof. unfold wp, bind. by destruct (m s) as [[a|e] s']. Qed.

Lemma wp_same_stores {A} (m : M A) (P : Handler → Prop) s :
  preserves same_stores m → (∀ s', same_stores s s' → P s') →
  wp m (λ _, P) (λ _, P) s.
Proof.
  intros H HP. unfold wp. specialize (H s).
  destruct (m s) as [[a|e] s']; by apply HP.
Qed.

(** What a response with capabilities to a tracked request writes, however
    the rest of its handling ends. *)
Lemma response_written s qid r c :
  ext_requests_pending s → _iqRequests s !! qid = Some r →
  written r c s (step s (SIq {| id := qid; capabilities := Some c |})).
Proof.
  intros Hpe Hr. unfold step, written. cbn [capabilities_mw].
  destruct (type r) as [|e] eqn:Ht.
  - apply (wp_final _ (λ s', _cache s' = <[fullNode r := Some c]> (_cache s)
                             ∧ _extCache s' = _extCache s)).
    unfold _handleIQ. wp_run. cbn [id]. rewrite (get_own _ _ _ Hr). cbn [asRequest].
    rewrite Ht. unfold _handleIQCaps. wp_run. cbn [capabilities].
    apply wp_bind_inv. apply wp_same_stores.
    + repeat lazymatch goal with
             | |- preserves _ (_emitEventIfFullyLoaded _) =>
                 apply same_stores_emitEventIfFullyLoaded
             | _ => preserves_step same_stores
             end; done.
    + intros s' [H1 H2]. by rewrite H1, H2.
  - destruct (Hpe qid r e Hr Ht) as [[m Hm] _].
    apply (wp_final _ (λ s', _cache s' = _cache s
                             ∧ _extCache s'
                               = storeExt (fullNode r) e (rawFeatures c) (_extCache s))).
    unfold _handleIQ. wp_run. cbn [id]. rewrite (get_own _ _ _ Hr). cbn [asRequest].
    rewrite Ht. unfold _handleIQExt. wp_run. rewrite Hm. wp_run. cbn [capabilities].
    destruct (_extCache s !! fullNode r) as [m0|] eqn:Hm0; wp_run;
      (apply wp_bind_inv; apply wp_bind_inv; apply wp_same_stores;
       [repeat lazymatch goal with
               | |- preserves _ (_emitEventIfFullyLoaded _) =>
                   apply same_stores_emitEventIfFullyLoaded
               | _ => preserves_step same_stores
               end; done
       |intros s' [H1 H2]; rewrite H1, H2; hsimpl; split; [done|];
        unfold storeExt; by rewrite Hm0]).
Qed.

(** C9: a response is routed by its id alone. Whatever capabilities two
    responses with the id of the tracked request [r] carry (their [node]
    included), each is stored under the fingerprint, and for an extension
    request the extension id, that [r] recorded when the query was sent,
    and no other cache key is written: so in every state the middleware
    can reach, however the rest of the handling ends. In a state reached
    by stanzas that name no member of [Object.prototype] the request is
    resolved as well. *)
Theorem routing_by_correlation_id (s : Handler) (id : string) (r : Request)
    (c1 c2 : Caps) :
  reachable s → _iqRequests s !! id = Some r →
  written r c1 s (step s (SIq {| id := id; capabilities := Some c1 |}))
  ∧ written r c2 s (step s (SIq {| id := id; capabilities := Some c2 |}))
  ∧ (reachablePlain s →
     _iqRequests (step s (SIq {| id := id; capabilities := Some c1 |})) !! id = None
     ∧ _iqRequests (step s (SIq {| id := id; capabilities := Some c2 |})) !! id = None).
Proof.
  intros Hs Hr. pose proof (ext_requests_pending_reachable s Hs) as Hpe.
  split; [by apply response_written|]. split; [by apply response_written|].
  intros HI%Inv_reachable.
  assert (∀ c, _iqRequests (step s (SIq {| id := id; capabilities := Some c |})) !! id
               = None) as Hone.
  { intros c. unfold step. cbn [capabilities_mw].
    destruct (type r) as [|e] eqn:Ht.
    - apply wp_final. eapply wp_mono;
        [by apply (handleIQ_caps_effect s {| id := id; capabilities := Some c |} r)| |done].
      intros [] s' (s'' & (evs & -> & _) & ->). hsimpl. apply lookup_delete_eq.
    - apply wp_final. eapply wp_mono;
        [by apply (handleIQ_ext_effect s {| id := id; capabilities := Some c |} r e)| |].
      + intros [] s' (c' & [= <-] & _ & Hcache & Hext & Hreq & _).
        rewrite Hreq. apply lookup_delete_eq.
      + by intros err s' (_ & ? & _). }
  split; apply Hone.
Qed.

Lemma routing_by_correlation_id_witness :
  written {| type := TExt "ext1"; r_node := Some "app"; r_ver := Some "v1";
             fullNode := "app#v1" |}
    (ex_caps ["urn:xmpp:bob"]) ex_ext_outstanding
    (step ex_ext_outstanding (ex_response "caps-2" ["urn:xmpp:bob"]))
  ∧ written {| type := TExt "ext1"; r_node := Some "app"; r_ver := Some "v1";
               fullNode := "app#v1" |}
      {| node := Some "somewhere#else"; rawFeatures := [JStr "jabber:iq:last"];
         features := ∅; clientName := None |} ex_ext_outstanding
      (step ex_ext_outstanding
         (SIq {| id := "caps-2";
                 capabilities :=
                   Some {| node := Some "somewhere#else";
                           rawFeatures := [JStr "jabber:iq:last"];
                           features := ∅; clientName := None |} |}))
  ∧ _iqRequests (step ex_ext_outstanding (ex_response "caps-2" ["urn:xmpp:bob"]))
      !! "caps-2" = None
  ∧ _iqRequests
      (step ex_ext_outstanding
         (SIq {| id := "caps-2";
                 capabilities :=
                   Some {| node := Some "somewhere#else";
                           rawFeatures := [JStr "jabber:iq:last"];
                           features := ∅; clientName := None |} |}))
      !! "caps-2" = None.
Proof.
  destruct (routing_by_correlation_id ex_ext_outstanding "caps-2"
              {| type := TExt "ext1"; r_node := Some "app"; r_ver := Some "v1";
                 fullNode := "app#v1" |}
              (ex_caps ["urn:xmpp:bob"])
              {| node := Some "somewhere#else"; rawFeatures := [JStr "jabber:iq:last"];
                 features := ∅; clientName := None |})
    as (H1 & H2 & H3).
  - apply (reachable_run [ex_presence "p1" (Some ["ext1"])]).
  - by vm_compute.
  - split; [exact H1|]. split; [exact H2|]. apply H3.
    by apply (reachablePlain_run [ex_presence "p1" (Some ["ext1"])]).
Defined.

(** * The merge path works on a copy *)
Module MergeRefFacts.
Import CapabilitiesParser MergeRef.

#[local] Instance extends_preorder : PreOrder extends.
Proof.
  split; [by split|]. intros st1 st2 st3 [? ?] [? ?]. split; by etrans.
Qed.

Lemma list_alter_insert {A} (f : A → A) (l : list A) i x :
  l !! i = Some x → alter f i l = <[i := f x]> l.
Proof.
  intros Hx. apply list_eq. intros j. destruct (decide (i = j)) as [<-|Hne].
  - rewrite list_lookup_alter_eq, Hx, list_lookup_insert_eq; [done|].
    by eapply lookup_lt_Some.
  - by rewrite list_lookup_alter_ne, list_lookup_insert_ne.
Qed.

Lemma prefix_alter {A} (f : A → A) (l0 l : list A) i :
  l0 `prefix_of` l → length l0 ≤ i → l0 `prefix_of` alter f i l.
Proof.
  intros [k ->] Hi. replace i with (length l0 + (i - length l0)) by lia.
  rewrite alter_app_r. by apply prefix_app_r.
Qed.

Lemma prefix_insert {A} (l0 l : list A) i x :
  l0 `prefix_of` l → length l0 ≤ i → l0 `prefix_of` <[i := x]> l.
Proof. rewrite list_insert_alter. apply prefix_alter. Qed.

(** In place, on the array [data], the loop computes what
    [Util.removeDuplicates_loop] computes on its content. *)
Lemma removeDuplicates_loop_spec n data seen st l :
  arrays st !! data = Some l →
  removeDuplicates_loop n data seen st
  = {| objects := objects st;
       arrays := <[data := Util.removeDuplicates_loop n l seen]> (arrays st) |}.
Proof.
  revert seen st l. induction n as [|i IH]; intros seen st l Hl; cbn.
  - rewrite list_insert_id by done. by destruct st.
  - rewrite Hl. cbn. destruct (l !! i) as [x|] eqn:Hx.
    + destruct (decide (toKey x ∈ seen)).
      * rewrite (IH _ _ (delete i l)).
        -- cbn. by rewrite (list_alter_insert _ _ _ l), list_insert_insert_eq.
        -- cbn. by rewrite list_lookup_alter_eq, Hl.
      * by apply IH.
    + by apply IH.
Qed.

Lemma removeDuplicates_spec data st l :
  arrays st !! data = Some l →
  removeDuplicates data st
  = Some {| objects := objects st;
            arrays := <[data := Util.removeDuplicates l]> (arrays st) |}.
Proof.
  intros Hl. unfold removeDuplicates. rewrite Hl. cbn.
  by rewrite (removeDuplicates_loop_spec _ _ _ _ l).
Qed.

Lemma merging_view st0 mainCaps c st : merging st0 mainCaps c st → view st mainCaps = Some c.
Proof.
  intros (_ & _ & obj & Hobj & _ & Hraw & Hn & Hf & Hc). unfold view.
  rewrite Hobj. cbn. rewrite Hraw. cbn. rewrite Hn, Hf, Hc. by destruct c.
Qed.

Lemma deepClone_spec st data c :
  view st data = Some c →
  ∃ st', deepClone data st = Some (length (objects st), st')
         ∧ merging st (length (objects st)) (Util.deepClone c) st'.
Proof.
  unfold view, deepClone. intros Hview.
  destruct (objects st !! data) as [obj|]; [|done]. cbn in *.
  destruct (arrays st !! o_rawFeatures obj) as [raw|]; [|done]. cbn in *.
  injection Hview as <-. eexists. split; [done|].
  split; [split; cbn; by apply prefix_app_r|]. split; [done|].
  eexists. cbn. split; [by apply list_lookup_middle|]. cbn.
  split; [done|]. split; [by apply list_lookup_middle|done].
Qed.

Lemma addExtensions_spec st0 exts mainCaps ext st c raw :
  (∀ m e a, exts = Some m → m !! e = Some a → is_Some (arrays st0 !! a)) →
  merging st0 mainCaps c st →
  Handler.addExtensions
    ((λ m : gmap string ref, omap (λ a, arrays st0 !! a) m) <$> exts)
    (rawFeatures c) ext = Some raw →
  ∃ st', addExtensions exts mainCaps ext st = Some st'
         ∧ merging st0 mainCaps
             {| node := node c; rawFeatures := raw; features := features c;
                clientName := clientName c |} st'.
Proof.
  intros Hvalid. revert st c. induction ext as [|e ext IH]; intros st c Hm Hraw; cbn in *.
  - injection Hraw as <-. exists st. split; [done|]. by destruct c.
  - destruct exts as [m|]; [|done]. cbn in *.
    destruct Hm as ([Hobjs Harrs] & Hmain & obj & Hobj & Ha & Harr & Hn & Hf & Hc).
    rewrite Hobj. cbn. unfold concat. rewrite Harr. cbn.
    assert (∃ l', match get m e with
                  | Own b => arrays st !! b
                  | Inherited v => Some [v]
                  | Absent => Some [JUndefined]
                  end = Some l'
                  ∧ Handler.concat (rawFeatures c) (get (omap (λ a, arrays st0 !! a) m) e)
                    = rawFeatures c ++ l') as (l' & Hl' & Hconcat).
    { unfold get. rewrite lookup_omap.
      destruct (m !! e) as [b|] eqn:Hb; cbn; [|destruct (plainKey e); cbn; eauto].
      destruct (Hvalid m e b eq_refl Hb) as [fs Hfs]. exists fs. rewrite Hfs. cbn.
      split; [by eapply prefix_lookup_Some|done]. }
    rewrite Hl'. cbn. rewrite Hconcat in Hraw.
    apply (IH _ {| node := node c; rawFeatures := rawFeatures c ++ l';
                   features := features c; clientName := clientName c |});
      [|exact Hraw].
    split; [split; cbn|].
    + by apply prefix_alter.
    + by apply prefix_app_r.
    + split; [done|]. eexists. cbn. rewrite list_lookup_alter_eq, Hobj. cbn.
      split; [done|]. cbn. split; [|split; [by apply list_lookup_middle|done]].
      etrans; [by apply prefix_length|lia].
Qed.

(** One run of the merge from a store whose caches are valid: it returns,
    the object it hands out reads as the record that [Handler] emits, and
    everything allocated before is untouched. *)
Lemma emit_spec st _cache _extCache pc o c raw :
  cachesValid st _cache _extCache →
  _cache !! Handler.fullNodeOf pc = Some o → view st o = Some c →
  match pc_ext pc with
  | Some ext =>
      Handler.addExtensions (extCacheView st _extCache !! Handler.fullNodeOf pc)
        (rawFeatures (Util.deepClone c)) ext
  | None => Some (rawFeatures (Util.deepClone c))
  end = Some raw →
  ∃ st', _emitCapabilitiesEvent _cache _extCache pc st = Some (length (objects st), st')
    ∧ extends st st'
    ∧ view st' (length (objects st))
      = Some {| node := node (Util.deepClone c);
                rawFeatures := Util.removeDuplicates raw;
                features := parseCommonFeatures (Util.removeDuplicates raw);
                clientName := clientName (Util.deepClone c) |}.
Proof.
  intros [Hvc Hvx] Ho Hview Hraw. unfold _emitCapabilitiesEvent. rewrite Ho. cbn.
  destruct (deepClone_spec st o c Hview) as (st1 & -> & Hm1). cbn.
  assert (∃ st2, match pc_ext pc with
                 | Some ext =>
                     addExtensions (_extCache !! Handler.fullNodeOf pc)
                       (length (objects st)) ext st1
                 | None => Some st1
                 end = Some st2
                 ∧ merging st (length (objects st))
                     {| node := node (Util.deepClone c); rawFeatures := raw;
                        features := features (Util.deepClone c);
                        clientName := clientName (Util.deepClone c) |} st2)
    as (st2 & -> & Hm2).
  { destruct (pc_ext pc) as [ext|].
    - unfold extCacheView in Hraw. rewrite lookup_fmap in Hraw.
      eapply addExtensions_spec; [|exact Hm1|exact Hraw].
      intros m e a Hm He. by eapply Hvx.
    - injection Hraw as <-. exists st1. split; [done|]. by destruct c. }
  cbn. destruct Hm2 as ([Hobjs Harrs] & _ & obj & Hobj & Ha & Harr & Hn & Hf & Hc).
  rewrite Hobj. cbn. rewrite (removeDuplicates_spec _ _ raw) by done. cbn.
  assert (o_rawFeatures obj < length (arrays st2)) by by eapply lookup_lt_Some.
  rewrite list_lookup_insert_eq by done. cbn. eexists. split; [done|]. split.
  - split; cbn; [by apply prefix_alter|by apply prefix_insert].
  - unfold view. cbn. rewrite list_lookup_alter_eq, Hobj. cbn.
    rewrite list_lookup_insert_eq by done. cbn. by rewrite Hn, Hc.
Qed.

Lemma view_extends st st' o c : extends st st' → view st o = Some c → view st' o = Some c.
Proof.
  intros [Hobjs Harrs]. unfold view.
  destruct (objects st !! o) as [obj|] eqn:Hobj; [|done]. cbn.
  destruct (arrays st !! o_rawFeatures obj) as [raw|] eqn:Hraw; [|done]. cbn.
  intros <-. rewrite (prefix_lookup_Some _ _ _ _ Hobj Hobjs). cbn.
  by rewrite (prefix_lookup_Some _ _ _ _ Hraw Harrs).
Qed.

Lemma cachesValid_extends st st' _cache _extCache :
  extends st st' → cachesValid st _cache _extCache → cachesValid st' _cache _extCache.
Proof.
  intros Hext [Hvc Hvx]. split.
  - intros F o Ho. destruct (Hvc F o Ho) as [c Hc]. exists c. by eapply view_extends.
  - intros F m e a Hm He. destruct (Hvx F m e a Hm He) as [fs Hfs]. exists fs.
    by eapply prefix_lookup_Some; [|apply Hext].
Qed.

Lemma extCacheView_extends st st' _cache _extCache :
  extends st st' → cachesValid st _cache _extCache →
  extCacheView st' _extCache = extCacheView st _extCache.
Proof.
  intros Hext [_ Hvx]. unfold extCacheView. apply map_eq. intros F.
  rewrite !lookup_fmap. destruct (_extCache !! F) as [m|] eqn:Hm; [|done]. cbn.
  f_equal. apply map_eq. intros e. rewrite !lookup_omap.
  destruct (m !! e) as [a|] eqn:He; [|done]. cbn.
  destruct (Hvx F m e a Hm He) as [fs Hfs]. rewrite Hfs.
  by eapply prefix_lookup_Some; [|apply Hext].
Qed.

Lemma cacheView_extends st st' _cache _extCache :
  extends st st' → cachesValid st _cache _extCache →
  cacheView st' _cache = cacheView st _cache.
Proof.
  intros Hext [Hvc _]. unfold cacheView. apply map_eq. intros F.
  rewrite !lookup_fmap. destruct (_cache !! F) as [o|] eqn:Ho; [|done]. cbn.
  destruct (Hvc F o Ho) as [c Hc]. rewrite Hc. f_equal. by eapply view_extends.
Qed.

End MergeRefFacts.

(** * The merge is repeatable and leaves the caches alone *)

(** C8: run twice from a store whose caches hold valid references, the
    merge returns both times, each time with a fresh object that reads as
    the same record (the one [Handler] emits, [namedFeatures] included).
    Neither run writes to an object or array that existed before it, so the
    cached CapabilitySet and the cached extension feature lists read the
    same afterwards. *)
Theorem merge_repeatable_and_read_only (st : MergeRef.Store)
    (_cache : gmap string MergeRef.ref)
    (_extCache : gmap string (gmap string MergeRef.ref)) (pc : PCaps)
    (o : MergeRef.ref) (c : Caps) (raw : list jsval) :
  MergeRef.cachesValid st _cache _extCache →
  _cache !! fullNodeOf pc = Some o → MergeRef.view st o = Some c →
  match pc_ext pc with
  | Some ext =>
      addExtensions (MergeRef.extCacheView st _extCache !! fullNodeOf pc)
        (rawFeatures (Util.deepClone c)) ext
  | None => Some (rawFeatures (Util.deepClone c))
  end = Some raw →
  ∃ st1 st2,
    MergeRef._emitCapabilitiesEvent _cache _extCache pc st
    = Some (length (MergeRef.objects st), st1)
    ∧ MergeRef._emitCapabilitiesEvent _cache _extCache pc st1
      = Some (length (MergeRef.objects st1), st2)
    ∧ MergeRef.view st1 (length (MergeRef.objects st)) = Some (mergedCaps c raw)
    ∧ MergeRef.view st2 (length (MergeRef.objects st1)) = Some (mergedCaps c raw)
    ∧ MergeRef.extends st st1 ∧ MergeRef.extends st1 st2
    ∧ MergeRef.cacheView st1 _cache = MergeRef.cacheView st _cache
    ∧ MergeRef.cacheView st2 _cache = MergeRef.cacheView st _cache
    ∧ MergeRef.extCacheView st1 _extCache = MergeRef.extCacheView st _extCache
    ∧ MergeRef.extCacheView st2 _extCache = MergeRef.extCacheView st _extCache.
Proof.
  intros Hvalid Ho Hview Hraw.
  destruct (MergeRefFacts.emit_spec st _cache _extCache pc o c raw Hvalid Ho Hview Hraw)
    as (st1 & Hrun1 & Hext1 & Hview1).
  pose proof (MergeRefFacts.cachesValid_extends _ _ _ _ Hext1 Hvalid) as Hvalid1.
  pose proof (MergeRefFacts.extCacheView_extends _ _ _ _ Hext1 Hvalid) as Hx1.
  destruct (MergeRefFacts.emit_spec st1 _cache _extCache pc o c raw Hvalid1 Ho)
    as (st2 & Hrun2 & Hext2 & Hview2).
  { by eapply MergeRefFacts.view_extends. }
  { by rewrite Hx1. }
  exists st1, st2. split; [done|]. split; [done|]. split; [done|]. split; [done|].
  split; [done|]. split; [done|].
  pose proof (MergeRefFacts.cacheView_extends _ _ _ _ Hext1 Hvalid) as Hc1.
  split; [done|]. split; [|split; [done|]].
  - by rewrite (MergeRefFacts.cacheView_extends _ _ _ _ Hext2 Hvalid1).
  - by rewrite (MergeRefFacts.extCacheView_extends _ _ _ _ Hext2 Hvalid1).
Qed.

Lemma ex_store_valid : MergeRef.cachesValid ex_store ex_cache ex_extCache.
Proof.
  unfold ex_cache, ex_extCache. split.
  - intros F o [<- <-]%lookup_singleton_Some. vm_compute. eauto.
  - intros F m e a [<- <-]%lookup_singleton_Some [<- <-]%lookup_singleton_Some.
    vm_compute. eauto.
Qed.

Lemma merge_repeatable_and_read_only_witness :
  ∃ st1 st2,
    MergeRef._emitCapabilitiesEvent ex_cache ex_extCache (ex_announce (Some ["ext1"]))
      ex_store
    = Some (length (MergeRef.objects ex_store), st1)
    ∧ MergeRef._emitCapabilitiesEvent ex_cache ex_extCache (ex_announce (Some ["ext1"])) st1
      = Some (length (MergeRef.objects st1), st2)
    ∧ MergeRef.view st1 (length (MergeRef.objects ex_store))
      = Some (mergedCaps (ex_caps ["jabber:iq:version"])
                [JStr "jabber:iq:version"; JStr "urn:xmpp:bob"; JStr "jabber:iq:version"])
    ∧ MergeRef.view st2 (length (MergeRef.objects st1))
      = Some (mergedCaps (ex_caps ["jabber:iq:version"])
                [JStr "jabber:iq:version"; JStr "urn:xmpp:bob"; JStr "jabber:iq:version"])
    ∧ MergeRef.extends ex_store st1 ∧ MergeRef.extends st1 st2
    ∧ MergeRef.cacheView st1 ex_cache = MergeRef.cacheView ex_store ex_cache
    ∧ MergeRef.cacheView st2 ex_cache = MergeRef.cacheView ex_store ex_cache
    ∧ MergeRef.extCacheView st1 ex_extCache = MergeRef.extCacheView ex_store ex_extCache
    ∧ MergeRef.extCacheView st2 ex_extCache = MergeRef.extCacheView ex_store ex_extCache.
Proof.
  apply (merge_repeatable_and_read_only ex_store ex_cache ex_extCache
           (ex_announce (Some ["ext1"])) 0 (ex_caps ["jabber:iq:version"]));
    [apply ex_store_valid|by vm_compute..].
Defined.

(** The value-level model agrees: on caches that read as the views of the
    store, [Handler._emitCapabilitiesEvent] logs the same record and
    changes nothing else. *)
Lemma handler_emit_agrees (s : Handler) (st : MergeRef.Store)
    (cache : gmap string MergeRef.ref)
    (extCache : gmap string (gmap string MergeRef.ref)) (presence : Presence)
    (pc : PCaps) (o : MergeRef.ref) (c : Caps) (raw : list jsval) :
  _cache s = MergeRef.cacheView st cache →
  _extCache s = MergeRef.extCacheView st extCache →
  caps presence = Some pc →
  cache !! fullNodeOf pc = Some o → MergeRef.view st o = Some c →
  match pc_ext pc with
  | Some ext =>
      addExtensions (MergeRef.extCacheView st extCache !! fullNodeOf pc)
        (rawFeatures (Util.deepClone c)) ext
  | None => Some (rawFeatures (Util.deepClone c))
  end = Some raw →
  _emitCapabilitiesEvent presence s
  = (Ret tt, set_emitted (λ l, l ++ [mergedEvent presence c raw]) s).
Proof.
  intros Hc Hx Hpc Ho Hview Hraw. apply wp_run_eq.
  eapply emitCapabilitiesEvent_wp; [done| | |done].
  - unfold cached. rewrite Hc. unfold MergeRef.cacheView.
    rewrite lookup_fmap, Ho. cbn. by rewrite Hview.
  - unfold mergeRaw. by rewrite Hx.
Qed.

(** * Further properties of the code *)

(** ** [removeDuplicates] *)

Lemma delete_app_l {A} (l suf : list A) i :
  i < length l → delete i (l ++ suf) = delete i l ++ suf.
Proof.
  revert i. induction l as [|x l IH]; intros [|i] Hi; simpl in *; try lia; [done|].
  f_equal. apply IH. lia.
Qed.

Lemma removeDuplicates_loop_app n l suf seen :
  n ≤ length l →
  Util.removeDuplicates_loop n (l ++ suf) seen
  = Util.removeDuplicates_loop n l seen ++ suf.
Proof.
  revert l seen. induction n as [|i IH]; intros l seen Hn; [done|].
  cbn [Util.removeDuplicates_loop]. rewrite lookup_app_l by lia.
  destruct (l !! i) as [x|] eqn:Hx.
  - case_decide.
    + rewrite delete_app_l by lia. apply IH. rewrite length_delete by eauto. lia.
    + apply IH. lia.
  - apply lookup_ge_None in Hx. lia.
Qed.

(** The loop runs from the right: the last element is looked at first. *)
Lemma removeDuplicates_loop_snoc l x seen :
  Util.removeDuplicates_loop (S (length l)) (l ++ [x]) seen
  = if decide (toKey x ∈ seen) then Util.removeDuplicates_loop (length l) l seen
    else Util.removeDuplicates_loop (length l) l ({[toKey x]} ∪ seen) ++ [x].
Proof.
  cbn [Util.removeDuplicates_loop]. rewrite list_lookup_middle by done. case_decide.
  - by rewrite (delete_middle l [] x), app_nil_r.
  - by apply removeDuplicates_loop_app.
Qed.

Lemma removeDuplicates_loop_keys l seen k :
  k ∈ toKey <$> Util.removeDuplicates_loop (length l) l seen
  ↔ k ∈ toKey <$> l ∧ k ∉ seen.
Proof.
  revert seen. induction l as [|x l IH] using rev_ind; intros seen.
  - simpl. split; [by intros ?%elem_of_nil|by intros [?%elem_of_nil _]].
  - rewrite length_app, Nat.add_1_r, removeDuplicates_loop_snoc.
    rewrite fmap_app, elem_of_app. simpl. rewrite list_elem_of_singleton.
    case_decide as Hx.
    + rewrite IH. split; [intros [? ?]; split; [by left|done]|].
      intros [[?| ->] ?]; done.
    + rewrite fmap_app, elem_of_app, IH. simpl. rewrite list_elem_of_singleton.
      split.
      * intros [[? Hk]| ->]; [|split; [by right|done]]. split; [by left|].
        apply not_elem_of_union in Hk. tauto.
      * intros [[?| ->] ?]; [|by right].
        destruct (decide (k = toKey x)) as [->|]; [by right|left].
        split; [done|]. rewrite not_elem_of_union, not_elem_of_singleton. done.
Qed.

Lemma removeDuplicates_loop_NoDup l seen :
  NoDup (toKey <$> Util.removeDuplicates_loop (length l) l seen).
Proof.
  revert seen. induction l as [|x l IH] using rev_ind; intros seen; [constructor|].
  rewrite length_app, Nat.add_1_r, removeDuplicates_loop_snoc.
  case_decide; [apply IH|].
  rewrite fmap_app. apply NoDup_app. split; [apply IH|]. split.
  - intros k [_ Hk]%removeDuplicates_loop_keys ->%list_elem_of_singleton.
    apply Hk, elem_of_union. left. by apply elem_of_singleton.
  - simpl. apply NoDup_singleton.
Qed.

Lemma removeDuplicates_loop_sublist l seen :
  Util.removeDuplicates_loop (length l) l seen `sublist_of` l.
Proof.
  revert seen. induction l as [|x l IH] using rev_ind; intros seen; [done|].
  rewrite length_app, Nat.add_1_r, removeDuplicates_loop_snoc. case_decide.
  - etrans; [apply IH|]. by apply sublist_inserts_r.
  - by apply sublist_app.
Qed.

(** An element survives iff its key is new and does not occur further
    right. *)
Lemma removeDuplicates_loop_elem l seen x :
  x ∈ Util.removeDuplicates_loop (length l) l seen
  ↔ ∃ l1 l2, l = l1 ++ (x :: l2) ∧ (toKey x ∉ seen) ∧ (toKey x ∉ toKey <$> l2).
Proof.
  revert seen. induction l as [|y l IH] using rev_ind; intros seen.
  - simpl. split; [by intros ?%elem_of_nil|]. intros (l1 & l2 & H & _). by destruct l1.
  - rewrite length_app, Nat.add_1_r, removeDuplicates_loop_snoc.
    assert (∀ l1 l2, l ++ [y] = l1 ++ x :: l2 →
              (l2 = [] ∧ l1 = l ∧ x = y)
              ∨ ∃ l2', l2 = l2' ++ [y] ∧ l = l1 ++ x :: l2') as Hsplit.
    { intros l1 l2 Heq. destruct l2 as [|z l2 _] using rev_ind.
      - left. apply app_inj_tail in Heq as [-> ->]. done.
      - right. exists l2. rewrite app_comm_cons, app_assoc in Heq.
        apply app_inj_tail in Heq as [-> ->]. done. }
    case_decide as Hy.
    + rewrite IH. split.
      * intros (l1 & l2 & -> & Hs & Hn). exists l1, (l2 ++ [y]).
        rewrite <-app_assoc. split; [done|]. split; [done|].
        rewrite fmap_app, elem_of_app. intros [?|Heq%list_elem_of_singleton]; [done|].
        congruence.
      * intros (l1 & l2 & Heq & Hs & Hn).
        destruct (Hsplit l1 l2 Heq) as [(-> & -> & ->)|(l2' & -> & ->)]; [done|].
        exists l1, l2'. split; [done|]. split; [done|].
        rewrite fmap_app, elem_of_app in Hn. tauto.
    + rewrite elem_of_app, IH, list_elem_of_singleton. split.
      * intros [(l1 & l2 & -> & Hs & Hn)| ->].
        -- exists l1, (l2 ++ [y]). rewrite <-app_assoc. split; [done|].
           apply not_elem_of_union in Hs as [Hxy%not_elem_of_singleton Hs].
           split; [done|]. rewrite fmap_app, elem_of_app.
           intros [?|Heq%list_elem_of_singleton]; done.
        -- exists l, []. split; [done|]. split; [done|]. by intros ?%elem_of_nil.
      * intros (l1 & l2 & Heq & Hs & Hn).
        destruct (Hsplit l1 l2 Heq) as [(-> & -> & ->)|(l2' & -> & ->)]; [by right|left].
        exists l1, l2'. split; [done|].
        rewrite fmap_app, elem_of_app in Hn. simpl in Hn.
        rewrite list_elem_of_singleton in Hn.
        rewrite not_elem_of_union, not_elem_of_singleton. tauto.
Qed.

Lemma removeDuplicates_loop_id l seen :
  NoDup (toKey <$> l) → (∀ k, k ∈ toKey <$> l → k ∉ seen) →
  Util.removeDuplicates_loop (length l) l seen = l.
Proof.
  revert seen. induction l as [|x l IH] using rev_ind; intros seen Hnd Hseen; [done|].
  rewrite length_app, Nat.add_1_r, removeDuplicates_loop_snoc.
  rewrite fmap_app in Hnd. apply NoDup_app in Hnd as (Hnd & Hx & _).
  rewrite decide_False.
  2: { apply Hseen. rewrite fmap_app, elem_of_app. right. by left. }
  rewrite IH; [done|done|]. intros k Hk.
  assert (k ∉ seen) by (apply Hseen; rewrite fmap_app, elem_of_app; by left).
  assert (k ≠ toKey x) by (intros ->; apply (Hx _ Hk); by left).
  rewrite not_elem_of_union, not_elem_of_singleton. done.
Qed.

(** X1: whatever [seen] holds at the start of the loop (the source starts
    with [{}], where only names inherited from [Object.prototype] read as
    seen), the keys of the elements that [removeDuplicates] leaves are
    pairwise distinct, and an element is left iff its key was not seen
    before and it is the last one with that key: of equal keys the
    rightmost survives. *)
Theorem removeDuplicates_last_occurrences (data : list jsval) (seen : gset string) :
  NoDup (toKey <$> Util.removeDuplicates_loop (length data) data seen)
  ∧ (∀ x, x ∈ Util.removeDuplicates_loop (length data) data seen
          ↔ ∃ l1 l2, data = l1 ++ (x :: l2) ∧ (toKey x ∉ seen)
                     ∧ (toKey x ∉ toKey <$> l2))
  ∧ NoDup (toKey <$> Util.removeDuplicates data).
Proof.
  split; [apply removeDuplicates_loop_NoDup|].
  split; [intros x; apply removeDuplicates_loop_elem|].
  apply removeDuplicates_loop_NoDup.
Qed.

Lemma inherited_seen (k : string) :
  k ∉ (list_to_set objectPrototype : gset string) ↔ plainKey k = true.
Proof.
  unfold plainKey. rewrite elem_of_list_to_set. split.
  - intros H. by apply bool_decide_eq_true_2.
  - by intros H%bool_decide_eq_true.
Qed.

(** X2: [removeDuplicates] only removes: what is left is a subsequence of
    the array, in the same order, and every key of the array that was not
    seen before is still the key of an element. Starting from [{}], the
    keys that are left are those of the array that are not names of
    members of [Object.prototype]: an element with such a key is dropped
    even when it occurs once. *)
Theorem removeDuplicates_keeps_keys (data : list jsval) (seen : gset string) :
  Util.removeDuplicates_loop (length data) data seen `sublist_of` data
  ∧ (∀ k, k ∈ (toKey <$> Util.removeDuplicates_loop (length data) data seen)
          ↔ k ∈ (toKey <$> data) ∧ k ∉ seen)
  ∧ (∀ k, k ∈ (toKey <$> Util.removeDuplicates data)
          ↔ k ∈ (toKey <$> data) ∧ plainKey k = true).
Proof.
  split; [apply removeDuplicates_loop_sublist|].
  split; [intros k; apply removeDuplicates_loop_keys|].
  intros k. unfold Util.removeDuplicates.
  by rewrite removeDuplicates_loop_keys, inherited_seen.
Qed.

(** X3: an array whose keys are pairwise distinct, none of them the name
    of a member of [Object.prototype], is left as it is; so a second
    [removeDuplicates] changes nothing. *)
Theorem removeDuplicates_idempotent (data : list jsval) :
  (NoDup (toKey <$> data) → (∀ k, k ∈ (toKey <$> data) → plainKey k = true) →
   Util.removeDuplicates data = data)
  ∧ Util.removeDuplicates (Util.removeDuplicates data) = Util.removeDuplicates data.
Proof.
  assert (∀ l, NoDup (toKey <$> l) → (∀ k, k ∈ (toKey <$> l) → plainKey k = true) →
               Util.removeDuplicates l = l) as Hid.
  { intros l Hl Hplain. apply removeDuplicates_loop_id; [done|].
    intros k Hk. by apply inherited_seen, Hplain. }
  split; [apply Hid|]. apply Hid; [apply removeDuplicates_loop_NoDup|].
  intros k [_ Hk]%removeDuplicates_loop_keys. by apply inherited_seen.
Qed.

(** ** [deepClone] *)

Lemma json_elem_id (l : list jsval) :
  Forall (λ v, jsonValue v = true) l → Util.json_elem <$> l = l.
Proof.
  induction 1 as [|x l Hx Hl IH]; [done|]. rewrite fmap_cons, IH. by destruct x.
Qed.

Lemma json_elem_defined (l : list jsval) :
  Forall (λ v, jsonValue v = true) (Util.json_elem <$> l).
Proof.
  induction l as [|x l IH]; [constructor|].
  rewrite fmap_cons. constructor; [by destruct x|done].
Qed.

(** X4: the JSON round trip of [deepClone] gives back an equal record
    exactly when no raw feature is [undefined] or a function; such an
    element comes back as [null], at the same index. The clone holds
    neither, and cloning a clone changes nothing. *)
Theorem deepClone_exact_iff (c : Caps) :
  (Util.deepClone c = c ↔ Forall (λ v, jsonValue v = true) (rawFeatures c))
  ∧ (JUndefined ∉ rawFeatures (Util.deepClone c))
  ∧ Forall (λ v, jsonValue v = true) (rawFeatures (Util.deepClone c))
  ∧ (∀ i, rawFeatures (Util.deepClone c) !! i
          = ((λ v, if jsonValue v then v else JNull) <$> (rawFeatures c !! i)))
  ∧ Util.deepClone (Util.deepClone c) = Util.deepClone c.
Proof.
  split; [|split; [|split; [apply json_elem_defined|split]]].
  - split.
    + intros Heq. rewrite <-Heq. apply json_elem_defined.
    + intros Hu. destruct c as [n raw f cn]. unfold Util.deepClone. cbn in *.
      by rewrite json_elem_id.
  - intros Hin. pose proof (json_elem_defined (rawFeatures c)) as H.
    by apply (proj1 (Forall_forall _ _) H) in Hin.
  - intros i. cbn. rewrite list_lookup_fmap. destruct (rawFeatures c !! i) as [v|]; [|done].
    cbn. by destruct v.
  - unfold Util.deepClone. cbn. f_equal. apply json_elem_id, json_elem_defined.
Qed.

(** ** [parseCommonFeatures] *)

Lemma assoc_Some k t v : assoc k t = Some v → (k, v) ∈ t.
Proof.
  induction t as [|[k' v'] t IH]; [done|]. simpl. case_decide as Hk.
  - intros [= <-]. subst. by left.
  - intros ?. right. auto.
Qed.

Lemma assoc_elem k v (t : list (string * string)) :
  NoDup t.*1 → (k, v) ∈ t → assoc k t = Some v.
Proof.
  induction t as [|[k' v'] t IH]; [by intros _ ?%elem_of_nil|].
  rewrite fmap_cons, NoDup_cons. cbn [fst]. intros [Hk' Hnd] Hin. simpl.
  apply elem_of_cons in Hin as [[= -> ->]|Hin].
  - by rewrite decide_True.
  - rewrite decide_False; [by apply IH|]. intros ->. apply Hk'.
    apply list_elem_of_fmap. by exists (k, v).
Qed.

Lemma assoc_key_unique k k' v (t : list (string * string)) :
  NoDup t.*2 → (k, v) ∈ t → (k', v) ∈ t → k = k'.
Proof.
  induction t as [|[k0 v0] t IH]; [by intros _ ?%elem_of_nil|].
  rewrite fmap_cons, NoDup_cons. cbn [snd]. intros [Hv Hnd] H1 H2.
  apply elem_of_cons in H1 as [[= -> ->]|H1], H2 as [[= ->]|H2]; [done| | |by apply IH].
  - destruct Hv. apply list_elem_of_fmap. by exists (k', v0).
  - subst. destruct Hv. apply list_elem_of_fmap. by exists (k, v0).
Qed.

Lemma commonFeatures_NoDup : NoDup commonFeatures.*1 ∧ NoDup commonFeatures.*2.
Proof.
  split; [apply (bool_decide_unpack (NoDup commonFeatures.*1))
         |apply (bool_decide_unpack (NoDup commonFeatures.*2))]; by vm_compute.
Qed.

Lemma defaults_lookup (t : list (string * string)) (acc : gmap string bool) name :
  foldl (λ features kv, <[kv.2 := false]> features) acc t !! name
  = if decide (name ∈ t.*2) then Some false else acc !! name.
Proof.
  revert acc. induction t as [|[k v] t IH]; intros acc; [done|].
  cbn [foldl]. rewrite IH, fmap_cons. cbn [snd].
  destruct (decide (name ∈ v :: t.*2)) as [Hin|Hin];
    destruct (decide (name ∈ t.*2)) as [Hin'|Hin']; try done.
  - apply elem_of_cons in Hin as [->|?]; [|done]. apply lookup_insert_eq.
  - destruct Hin. by right.
  - apply lookup_insert_ne. intros <-. apply Hin. by left.
Qed.

(** The entry of the features hash under [name]. *)
Lemma parseCommonFeatures_entry raw name :
  parseCommonFeatures raw !! name
  = if bool_decide (Exists (λ v, commonFeature (toKey v) = Some name) raw)
    then Some true
    else if decide (name ∈ commonFeatures.*2) then Some false else None.
Proof.
  unfold parseCommonFeatures. induction raw as [|x raw IH] using rev_ind.
  - cbn [foldl]. rewrite defaults_lookup, lookup_empty.
    rewrite bool_decide_eq_false_2; [done|]. by intros ?%Exists_nil.
  - rewrite foldl_snoc.
    destruct (commonFeature (toKey x)) as [name'|] eqn:Hx.
    + destruct (decide (name = name')) as [->|Hne].
      * rewrite lookup_insert_eq, bool_decide_eq_true_2; [done|].
        apply Exists_app. right. by left.
      * rewrite lookup_insert_ne, IH by done.
        rewrite (bool_decide_ext
                   (Exists (λ v, commonFeature (toKey v) = Some name) (raw ++ [x]))
                   (Exists (λ v, commonFeature (toKey v) = Some name) raw)); [done|].
        rewrite Exists_app, Exists_cons, Exists_nil.
        split; [|by left]. intros [?|[Heq|[]]]; [done|]. congruence.
    + rewrite IH.
      rewrite (bool_decide_ext
                 (Exists (λ v, commonFeature (toKey v) = Some name) (raw ++ [x]))
                 (Exists (λ v, commonFeature (toKey v) = Some name) raw)); [done|].
      rewrite Exists_app, Exists_cons, Exists_nil.
      split; [|by left]. intros [?|[Heq|[]]]; [done|]. congruence.
Qed.

(** The string form of an inherited member is not the simple name of a
    common feature, and no namespace of a common feature is the name of a
    member of [Object.prototype]. *)
Lemma member_not_common k : toKey (member k) ∉ commonFeatures.*2.
Proof.
  assert (∃ s, toKey (member k) = String "f" s ∨ toKey (member k) = String "[" s)
    as [s Hs].
  { unfold member. case_decide; cbn; eauto. }
  intros Hin. cbn in Hin.
  repeat (apply elem_of_cons in Hin as [Hin|Hin];
          [rewrite Hin in Hs; by destruct Hs|]).
  by apply elem_of_nil in Hin.
Qed.

Lemma common_plain k name : (k, name) ∈ commonFeatures → plainKey k = true.
Proof.
  intros Hin.
  assert (k ∈ commonFeatures.*1) as Hk.
  { apply list_elem_of_fmap. by exists (k, name). }
  assert (forallb plainKey commonFeatures.*1 = true) as Hall by by vm_compute.
  by eapply plainExts_elem.
Qed.

Lemma supports_iff k name raw :
  (k, name) ∈ commonFeatures →
  Exists (λ v, commonFeature (toKey v) = Some name) raw ↔ k ∈ (toKey <$> raw).
Proof.
  intros Hin. destruct commonFeatures_NoDup as [Hk Hn].
  assert (name ∈ commonFeatures.*2) as Hname.
  { apply list_elem_of_fmap. by exists (k, name). }
  rewrite Exists_exists, list_elem_of_fmap. split.
  - intros (v & Hv & Ha). exists v. split; [|done]. unfold commonFeature in Ha.
    destruct (assoc (toKey v) commonFeatures) as [name'|] eqn:Hassoc.
    + injection Ha as ->.
      by apply (assoc_key_unique _ _ name commonFeatures), assoc_Some.
    + destruct (plainKey (toKey v)); [done|]. injection Ha as <-.
      by destruct (member_not_common (toKey v)).
  - intros (v & -> & Hv). exists v. split; [done|]. unfold commonFeature.
    by rewrite (assoc_elem _ name) by done.
Qed.

Lemma parseCommonFeatures_common (raw : list jsval) (k name : string) :
  (k, name) ∈ commonFeatures →
  parseCommonFeatures raw !! name = Some (bool_decide (k ∈ (toKey <$> raw))).
Proof.
  intros Hin. rewrite parseCommonFeatures_entry.
  rewrite (bool_decide_ext _ (k ∈ (toKey <$> raw))) by by apply supports_iff.
  destruct (bool_decide (k ∈ (toKey <$> raw))); [done|].
  rewrite decide_True; [done|]. apply list_elem_of_fmap. by exists (k, name).
Qed.

(** X5: the features hash has an entry for each of the common features,
    whatever the raw features are, and the entry is [true] exactly when the
    feature's namespace is the key of a raw feature. *)
Theorem parseCommonFeatures_lookup (raw : list jsval) (k name : string) :
  (k, name) ∈ commonFeatures →
  parseCommonFeatures raw !! name = Some (bool_decide (k ∈ (toKey <$> raw))).
Proof. apply parseCommonFeatures_common. Qed.

Lemma parseCommonFeatures_lookup_witness :
  ("urn:xmpp:bob", "bob") ∈ commonFeatures
  ∧ parseCommonFeatures [JStr "jabber:iq:version"; JUndefined] !! "bob"
    = Some (bool_decide ("urn:xmpp:bob" ∈ (toKey <$> [JStr "jabber:iq:version"; JUndefined]))).
Proof.
  assert (("urn:xmpp:bob", "bob") ∈ commonFeatures) as H.
  { apply (bool_decide_unpack (("urn:xmpp:bob", "bob") ∈ commonFeatures)).
    by vm_compute. }
  split; [exact H|]. exact (parseCommonFeatures_lookup _ _ _ H).
Defined.

Lemma parseCommonFeatures_ext raw1 raw2 :
  (∀ name,
     Exists (λ v, commonFeature (toKey v) = Some name) raw1
     ↔ Exists (λ v, commonFeature (toKey v) = Some name) raw2) →
  parseCommonFeatures raw1 = parseCommonFeatures raw2.
Proof.
  intros H. apply map_eq. intros name. rewrite !parseCommonFeatures_entry.
  by rewrite (bool_decide_ext _ _ (H name)).
Qed.

Lemma parseCommonFeatures_keys raw1 raw2 :
  (∀ k, k ∈ (toKey <$> raw1) ↔ k ∈ (toKey <$> raw2)) →
  parseCommonFeatures raw1 = parseCommonFeatures raw2.
Proof.
  intros H. apply parseCommonFeatures_ext. intros name.
  rewrite !Exists_exists. split; intros (v & Hv & Ha).
  - assert (toKey v ∈ (toKey <$> raw2)) as (v' & Hk & Hv')%list_elem_of_fmap.
    { apply H. by apply list_elem_of_fmap_2. }
    exists v'. split; [done|]. by rewrite <-Hk.
  - assert (toKey v ∈ (toKey <$> raw1)) as (v' & Hk & Hv')%list_elem_of_fmap.
    { apply H. by apply list_elem_of_fmap_2. }
    exists v'. split; [done|]. by rewrite <-Hk.
Qed.

(** X6: the features hash depends on the set of keys of the raw features
    only, not on their order nor on how often a feature occurs; raw
    features that are added can only turn entries to [true]. *)
Theorem parseCommonFeatures_set (raw1 raw2 : list jsval) :
  ((∀ k, k ∈ (toKey <$> raw1) ↔ k ∈ (toKey <$> raw2)) →
   parseCommonFeatures raw1 = parseCommonFeatures raw2)
  ∧ (raw1 ≡ₚ raw2 → parseCommonFeatures raw1 = parseCommonFeatures raw2)
  ∧ parseCommonFeatures (raw1 ++ raw1) = parseCommonFeatures raw1
  ∧ (∀ name, parseCommonFeatures raw1 !! name = Some true →
             parseCommonFeatures (raw1 ++ raw2) !! name = Some true
             ∧ parseCommonFeatures (raw2 ++ raw1) !! name = Some true).
Proof.
  split; [apply parseCommonFeatures_keys|]. split; [|split].
  - intros Hp. apply parseCommonFeatures_keys. intros k. by rewrite Hp.
  - apply parseCommonFeatures_keys. intros k. rewrite fmap_app, elem_of_app. tauto.
  - intros name. rewrite !parseCommonFeatures_entry.
    destruct (bool_decide (Exists _ raw1)) eqn:Hb; [|by case_decide].
    apply bool_decide_eq_true in Hb. intros _.
    rewrite !bool_decide_eq_true_2; [done|..].
    + apply Exists_app. by right.
    + apply Exists_app. by left.
Qed.

(** X7: removing the duplicates before parsing does not change the entry
    of any common feature, and it does not change the features hash at all
    when no raw feature is named like a member of [Object.prototype]; so
    the entries of the common features in an emitted record are those of
    all the raw features collected for it. *)
Theorem parseCommonFeatures_removeDuplicates (raw : list jsval) :
  (∀ k name, (k, name) ∈ commonFeatures →
     parseCommonFeatures (Util.removeDuplicates raw) !! name
     = parseCommonFeatures raw !! name)
  ∧ ((∀ k, k ∈ (toKey <$> raw) → plainKey k = true) →
     parseCommonFeatures (Util.removeDuplicates raw) = parseCommonFeatures raw)
  ∧ (∀ entry k name, (k, name) ∈ commonFeatures →
       features (mergedCaps entry raw) !! name
       = Some (bool_decide (k ∈ (toKey <$> raw)))).
Proof.
  assert (∀ k, k ∈ (toKey <$> Util.removeDuplicates raw)
               ↔ k ∈ (toKey <$> raw) ∧ plainKey k = true) as Hkeys.
  { intros k. unfold Util.removeDuplicates.
    by rewrite removeDuplicates_loop_keys, inherited_seen. }
  assert (∀ k name, (k, name) ∈ commonFeatures →
            parseCommonFeatures (Util.removeDuplicates raw) !! name
            = Some (bool_decide (k ∈ (toKey <$> raw)))) as Hcommon.
  { intros k name Hin. rewrite (parseCommonFeatures_common _ k) by done. f_equal.
    apply bool_decide_ext. rewrite Hkeys. pose proof (common_plain k name Hin). tauto. }
  split; [|split].
  - intros k name Hin.
    by rewrite (Hcommon k name Hin), (parseCommonFeatures_common raw k).
  - intros Hplain. apply parseCommonFeatures_keys. intros k. rewrite Hkeys.
    split; [by intros [? _]|]. intros Hk. split; [done|by apply Hplain].
  - intros entry k name Hin. cbn. by apply Hcommon.
Qed.

(** ** The parser *)

Lemma split_nonempty sep s : split sep s ≠ [].
Proof.
  destruct s as [|c s]; [done|]. simpl.
  destruct (Ascii.eqb c sep); [done|]. by destruct (split sep s).
Qed.

Lemma split_concat sep s :
  String.concat (String sep EmptyString) (split sep s) = s.
Proof.
  induction s as [|c s IH]; [done|]. cbn [split].
  destruct (Ascii.eqb c sep) eqn:Hc.
  - apply Ascii.eqb_eq in Hc as ->.
    pose proof (split_nonempty sep s) as Hne.
    destruct (split sep s) as [|w ws]; [done|].
    by rewrite <-IH.
  - pose proof (split_nonempty sep s) as Hne.
    destruct (split sep s) as [|w ws]; [done|].
    rewrite <-IH. by destruct ws.
Qed.

Lemma split_no_sep sep s w i :
  w ∈ split sep s → String.get i w ≠ Some sep.
Proof.
  revert w i. induction s as [|c s IH]; intros w i.
  - intros ->%list_elem_of_singleton. by destruct i.
  - cbn [split]. destruct (Ascii.eqb c sep) eqn:Hc.
    + intros [->|Hw]%elem_of_cons; [by destruct i|by apply IH].
    + pose proof (split_nonempty sep s) as Hne.
      destruct (split sep s) as [|w0 ws]; [done|].
      intros [->|Hw]%elem_of_cons.
      * destruct i as [|i]; cbn.
        -- intros [= ->]. by rewrite Ascii.eqb_refl in Hc.
        -- apply IH. by left.
      * apply IH. by right.
Qed.

Lemma split_length sep s :
  length (split sep s)
  = S (length (filter (λ c, c = sep) (list_ascii_of_string s))).
Proof.
  induction s as [|c s IH]; [done|]. cbn [split list_ascii_of_string].
  pose proof (split_nonempty sep s) as Hne.
  destruct (Ascii.eqb c sep) eqn:Hc.
  - apply Ascii.eqb_eq in Hc as ->. rewrite filter_cons_True by done.
    cbn [length]. by rewrite IH.
  - rewrite filter_cons_False by (intros ->; by rewrite Ascii.eqb_refl in Hc).
    rewrite <-IH. by destruct (split sep s).
Qed.

(** X8: the [ext] list that the parser announces for a [<c/>] element is
    never empty; its items are the pieces of the attribute between the
    spaces, one more than there are spaces (empty pieces included), none
    holds a space, and joined by spaces they give the attribute back,
    an absent attribute counting as the empty string. The other
    attributes are handed on as they are. *)
Theorem handlePresence_ext (c : CElem) :
  ∃ ext,
    handlePresence (Some c)
    = Some {| pc_node := c_node c; pc_ver := c_ver c; pc_hash := c_hash c;
              pc_ext := Some ext |}
    ∧ ext ≠ []
    ∧ String.concat " " ext = default EmptyString (c_ext c)
    ∧ length ext
      = S (length (filter (λ a, a = " "%char)
                     (list_ascii_of_string (default EmptyString (c_ext c)))))
    ∧ ∀ w i, w ∈ ext → String.get i w ≠ Some " "%char.
Proof.
  eexists. split; [reflexivity|].
  assert (ext_or_empty (c_ext c) = default EmptyString (c_ext c)) as ->.
  { by destruct (c_ext c) as [[|]|]. }
  split; [apply split_nonempty|]. split; [apply split_concat|].
  split; [apply split_length|]. intros w i. apply split_no_sep.
Qed.

(** X9: the parser and the coordinator do not agree on the ids of
    discovery queries. No id that [_sendDiscoQuery] issues is ['caps'] or
    starts with ['caps-ext-'], so for a response bearing such an id the
    parser returns early and the stanza reaches the coordinator without
    capabilities, whatever its type and content. *)
Theorem parser_skips_coordinator_ids (raw : RawIQ) (count : nat) :
  attrs_id raw = requestId count →
  attrs_id raw ≠ "caps"
  ∧ substring 0 9 (attrs_id raw) ≠ "caps-ext-"
  ∧ CapabilitiesParser.handleIQ raw = None
  ∧ capabilities (parsed raw) = None.
Proof.
  intros Hid. destruct (requestId_unrecognised count) as [H1 H2].
  rewrite Hid. split; [done|]. split; [done|].
  split; by apply (handleIQ_requestId raw count).
Qed.

Lemma parser_skips_coordinator_ids_witness :
  CapabilitiesParser.handleIQ
    {| attrs_id := "caps-1"; attrs_type := Some "result";
       query := Some {| qe_node := Some "app#v1"; qe_identity := None;
                        qe_features := [Some "jabber:iq:version"] |} |}
  = None.
Proof.
  apply (parser_skips_coordinator_ids
           {| attrs_id := "caps-1"; attrs_type := Some "result";
              query := Some {| qe_node := Some "app#v1"; qe_identity := None;
                               qe_features := [Some "jabber:iq:version"] |} |} 1).
  by vm_compute.
Defined.

(** ** The in-memory cache *)

Lemma getExtensions_fold (m : gmap string (list jsval)) (exts : list string)
    (cached : gmap string (list jsval)) (notCached : list string) :
  (foldl (λ '(cached, notCached) ext,
            match m !! ext with
            | Some fs => (<[ext := fs]> cached, notCached)
            | None => (cached, notCached ++ [ext])
            end) (cached, notCached) exts).2
  = notCached ++ filter (λ e, m !! e = None) exts
  ∧ ∀ e, (foldl (λ '(cached, notCached) ext,
                   match m !! ext with
                   | Some fs => (<[ext := fs]> cached, notCached)
                   | None => (cached, notCached ++ [ext])
                   end) (cached, notCached) exts).1 !! e
         = if decide (e ∈ exts ∧ is_Some (m !! e)) then m !! e else cached !! e.
Proof.
  revert cached notCached. induction exts as [|x exts IH]; intros cached notCached.
  - cbn [foldl fst snd]. rewrite filter_nil, app_nil_r. split; [done|]. intros e.
    rewrite decide_False; [done|]. by intros [?%elem_of_nil _].
  - cbn [foldl]. destruct (m !! x) as [fs|] eqn:Hx.
    + destruct (IH (<[x := fs]> cached) notCached) as [IH2 IH1]. split.
      * rewrite IH2, filter_cons_False by (by rewrite Hx). done.
      * intros e. rewrite IH1.
        destruct (decide (e ∈ exts ∧ is_Some (m !! e))) as [[Hin Hs]|Hn].
        -- rewrite decide_True; [done|]. split; [by right|done].
        -- destruct (decide (e = x)) as [->|Hne].
           ++ rewrite lookup_insert_eq, decide_True, Hx; [done|].
              split; [by left|by rewrite Hx].
           ++ rewrite lookup_insert_ne by done. rewrite decide_False; [done|].
              intros [[?|?]%elem_of_cons ?]; [done|]. by apply Hn.
    + destruct (IH cached (notCached ++ [x])) as [IH2 IH1]. split.
      * rewrite IH2, filter_cons_True, <-app_assoc by done. done.
      * intros e. rewrite IH1.
        destruct (decide (e ∈ exts ∧ is_Some (m !! e))) as [[Hin Hs]|Hn].
        -- rewrite decide_True; [done|]. split; [by right|done].
        -- rewrite decide_False; [done|].
           intros [[->|?]%elem_of_cons Hs]; [|by apply Hn].
           rewrite Hx in Hs. by destruct Hs.
Qed.

Lemma getExtensions_cached node exts c e :
  (MemoryCache.getExtensions node exts c).1 !! e
  = if decide (e ∈ exts) then extensionsOf node c !! e else None.
Proof.
  unfold MemoryCache.getExtensions. cbv zeta.
  rewrite (proj2 (getExtensions_fold (extensionsOf node c) exts ∅ [])), lookup_empty.
  destruct (decide (e ∈ exts)) as [Hin|Hin].
  - destruct (extensionsOf node c !! e) as [fs|] eqn:He.
    + rewrite decide_True; [done|]. split; [done|]. eauto.
    + by case_decide.
  - rewrite decide_False; [done|]. by intros [? _].
Qed.

Lemma getExtensions_notCached node exts c :
  (MemoryCache.getExtensions node exts c).2
  = filter (λ e, extensionsOf node c !! e = None) exts.
Proof.
  unfold MemoryCache.getExtensions. cbv zeta.
  by rewrite (proj1 (getExtensions_fold (extensionsOf node c) exts ∅ [])).
Qed.

(** X10: [getExtensions] splits the extensions asked for, for plain keys:
    the uncached ones are those without an entry for the node, in the
    order (and as often as) they were asked for; the hash of cached ones
    holds, for each other extension asked for, the cached features, and
    nothing else. For a node without any cached extension all of them are
    uncached. *)
Theorem getExtensions_partition (node : string) (exts : list string) (c : MemoryCache.t) :
  plainKey node = true → Forall (λ e, plainKey e = true) exts →
  (MemoryCache.getExtensions node exts c).2
  = filter (λ e, extensionsOf node c !! e = None) exts
  ∧ (∀ e, (MemoryCache.getExtensions node exts c).1 !! e
          = if decide (e ∈ exts) then extensionsOf node c !! e else None)
  ∧ (∀ e, e ∈ exts →
          is_Some ((MemoryCache.getExtensions node exts c).1 !! e)
          ↔ e ∉ (MemoryCache.getExtensions node exts c).2)
  ∧ (MemoryCache._extCache c !! node = None →
     MemoryCache.getExtensions node exts c = (∅, exts)).
Proof.
  intros _ _. split; [apply getExtensions_notCached|].
  split; [intros e; apply getExtensions_cached|]. split.
  - intros e He. rewrite getExtensions_cached, getExtensions_notCached, decide_True by done.
    rewrite list_elem_of_filter, <-not_eq_None_Some. tauto.
  - intros Hnone.
    assert (extensionsOf node c = ∅) as Hempty by (unfold extensionsOf; by rewrite Hnone).
    rewrite (surjective_pairing (MemoryCache.getExtensions node exts c)). f_equal.
    + apply map_eq. intros e. rewrite getExtensions_cached, Hempty, lookup_empty.
      by case_decide.
    + rewrite getExtensions_notCached, Hempty.
      induction exts as [|e exts IH]; [done|].
      rewrite filter_cons_True by apply lookup_empty. by rewrite IH.
Qed.

Lemma getExtensions_partition_witness :
  (MemoryCache.getExtensions "app#v1" ["ext1"; "ext2"; "ext1"]
     (MemoryCache.saveExtension "app#v1" "ext2" [JStr "urn:xmpp:bob"] MemoryCache.new)).2
  = filter (λ e, extensionsOf "app#v1"
                   (MemoryCache.saveExtension "app#v1" "ext2" [JStr "urn:xmpp:bob"]
                      MemoryCache.new) !! e = None)
      ["ext1"; "ext2"; "ext1"].
Proof.
  apply (getExtensions_partition "app#v1" ["ext1"; "ext2"; "ext1"]
           (MemoryCache.saveExtension "app#v1" "ext2" [JStr "urn:xmpp:bob"]
              MemoryCache.new)).
  - by vm_compute.
  - repeat constructor.
Defined.

Lemma extensionsOf_saveExtension node ext fs c node' :
  extensionsOf node' (MemoryCache.saveExtension node ext fs c)
  = if decide (node' = node) then <[ext := fs]> (extensionsOf node c)
    else extensionsOf node' c.
Proof.
  unfold extensionsOf, MemoryCache.saveExtension. cbn. case_decide as Hn.
  - subst. by rewrite lookup_insert_eq.
  - by rewrite lookup_insert_ne.
Qed.

(** X11: what [saveExtension] changes, for plain keys: afterwards the
    extension is reported as cached for its node, with the features just
    saved (also when the node had no entry before, or the extension an
    older one); any other extension of the node, and every extension of
    any other node, is classified as before, and the capabilities cache is
    left alone. *)
Theorem saveExtension_getExtensions (node ext : string) (fs : list jsval)
    (c : MemoryCache.t) (exts : list string) :
  plainKey node = true → plainKey ext = true →
  Forall (λ e, plainKey e = true) exts →
  (ext ∈ exts →
   (MemoryCache.getExtensions node exts (MemoryCache.saveExtension node ext fs c)).1 !! ext
   = Some fs)
  ∧ (ext ∉ (MemoryCache.getExtensions node exts
              (MemoryCache.saveExtension node ext fs c)).2)
  ∧ (∀ e, e ≠ ext →
       (MemoryCache.getExtensions node exts (MemoryCache.saveExtension node ext fs c)).1 !! e
       = (MemoryCache.getExtensions node exts c).1 !! e
       ∧ (e ∈ (MemoryCache.getExtensions node exts (MemoryCache.saveExtension node ext fs c)).2
          ↔ e ∈ (MemoryCache.getExtensions node exts c).2))
  ∧ (∀ node', node' ≠ node → plainKey node' = true →
       MemoryCache.getExtensions node' exts (MemoryCache.saveExtension node ext fs c)
       = MemoryCache.getExtensions node' exts c)
  ∧ (∀ node', MemoryCache.getCapabilities node' (MemoryCache.saveExtension node ext fs c)
              = MemoryCache.getCapabilities node' c).
Proof.
  intros _ _ _. split; [|split; [|split; [|split]]].
  - intros Hin. rewrite getExtensions_cached, decide_True by done.
    rewrite extensionsOf_saveExtension, decide_True by done. apply lookup_insert_eq.
  - rewrite getExtensions_notCached, list_elem_of_filter.
    rewrite extensionsOf_saveExtension, decide_True by done.
    rewrite lookup_insert_eq. by intros [? _].
  - intros e Hne. rewrite !getExtensions_cached, !getExtensions_notCached.
    rewrite !list_elem_of_filter, extensionsOf_saveExtension.
    rewrite (decide_True (P := node = node)) by done.
    by rewrite lookup_insert_ne.
  - intros node' Hne _.
    rewrite (surjective_pairing (MemoryCache.getExtensions node' exts
                                   (MemoryCache.saveExtension node ext fs c))).
    rewrite (surjective_pairing (MemoryCache.getExtensions node' exts c)). f_equal.
    + apply map_eq. intros e. rewrite !getExtensions_cached.
      by rewrite extensionsOf_saveExtension, (decide_False (P := node' = node)).
    + rewrite !getExtensions_notCached.
      by rewrite extensionsOf_saveExtension, (decide_False (P := node' = node)).
  - done.
Qed.

Lemma saveExtension_getExtensions_witness :
  (MemoryCache.getExtensions "app#v1" ["ext1"; "ext2"]
     (MemoryCache.saveExtension "app#v1" "ext2" [JStr "urn:xmpp:bob"]
        MemoryCache.new)).1 !! "ext2"
  = Some [JStr "urn:xmpp:bob"].
Proof.
  apply (proj1 (saveExtension_getExtensions "app#v1" "ext2" [JStr "urn:xmpp:bob"]
                  MemoryCache.new ["ext1"; "ext2"]
                  ltac:(by vm_compute) ltac:(by vm_compute)
                  ltac:(repeat constructor))).
  apply (bool_decide_unpack ("ext2" ∈ ["ext1"; "ext2"])). by vm_compute.
Defined.

(** X12: what [saveCapabilities] changes, for plain keys: the node reads
    back the capabilities just saved; every other node reads as before (a
    node never saved reads [undefined]); and the extensions are classified
    as before. *)
Theorem saveCapabilities_frame (node : string) (caps : Caps) (c : MemoryCache.t) :
  plainKey node = true →
  MemoryCache.getCapabilities node (MemoryCache.saveCapabilities node caps c) = Some caps
  ∧ (∀ node', node' ≠ node → plainKey node' = true →
       MemoryCache.getCapabilities node' (MemoryCache.saveCapabilities node caps c)
       = MemoryCache.getCapabilities node' c)
  ∧ (∀ node', plainKey node' = true →
       MemoryCache.getCapabilities node' MemoryCache.new = None)
  ∧ (∀ node' exts, plainKey node' = true → Forall (λ e, plainKey e = true) exts →
       MemoryCache.getExtensions node' exts (MemoryCache.saveCapabilities node caps c)
       = MemoryCache.getExtensions node' exts c).
Proof.
  intros _. split; [apply lookup_insert_eq|]. split; [|split].
  - intros node' Hne _. unfold MemoryCache.getCapabilities. cbn.
    by apply lookup_insert_ne.
  - intros node' _. apply lookup_empty.
  - done.
Qed.

Lemma saveCapabilities_frame_witness :
  MemoryCache.getCapabilities "app#v1"
    (MemoryCache.saveCapabilities "app#v1" (ex_caps ["urn:xmpp:bob"]) MemoryCache.new)
  = Some (ex_caps ["urn:xmpp:bob"]).
Proof.
  apply (proj1 (saveCapabilities_frame "app#v1" (ex_caps ["urn:xmpp:bob"])
                  MemoryCache.new ltac:(by vm_compute))).
Defined.

(** * Exceptions *)

(** X13: as long as no stanza names a member of [Object.prototype] (as an
    extension or as the id of a response), a presence never throws, a
    response that carries capabilities never throws, and the one
    exception there is at all is the TypeError of a response without
    capabilities to a tracked extension request. *)
Theorem exceptions_of_the_middleware (s : Handler) :
  reachablePlain s →
  (∀ stanza, plainStanza (SPresence stanza) = true →
     (capabilities_mw (SPresence stanza) s).1 = Ret tt)
  ∧ (∀ id c, plainKey id = true →
       (capabilities_mw (SIq {| id := id; capabilities := Some c |}) s).1 = Ret tt)
  ∧ (∀ stanza err,
       plainStanza stanza = true →
       (capabilities_mw stanza s).1 = Throw err →
       err = TypeError
       ∧ ∃ iq r e, stanza = SIq iq ∧ capabilities iq = None
           ∧ _iqRequests s !! id iq = Some r ∧ type r = TExt e).
Proof.
  intros Hs. pose proof (Inv_reachable s Hs) as HI. split; [|split].
  - intros stanza Hplain.
    destruct (capabilities_mw (SPresence stanza) s) as [[[]|err] s'] eqn:Hrun; [done|].
    destruct (exceptions_of_step s (SPresence stanza) err Hplain HI)
      as (_ & iq & r & e & ? & _); [by rewrite Hrun|done].
  - intros id c Hplain.
    destruct (capabilities_mw (SIq {| id := id; capabilities := Some c |}) s)
      as [[[]|err] s'] eqn:Hrun; [done|].
    destruct (exceptions_of_step s (SIq {| id := id; capabilities := Some c |}) err
                Hplain HI)
      as (_ & iq & r & e & [= <-] & ? & _); [by rewrite Hrun|done].
  - intros stanza err Hplain. by apply exceptions_of_step.
Qed.

Lemma exceptions_of_the_middleware_witness :
  (capabilities_mw
     (SPresence {| from := "p2"; caps := Some (ex_announce (Some ["ext1"; "ext2"])) |})
     ex_ext_outstanding).1
  = Ret tt.
Proof.
  destruct (exceptions_of_the_middleware ex_ext_outstanding
              (reachablePlain_run [ex_presence "p1" (Some ["ext1"])] eq_refl)) as [H _].
  by apply H.
Defined.

(** * The records handed to the listeners *)

#[local] Instance keeps_wellFormed_preorder : PreOrder keeps_wellFormed.
Proof.
  split; [intros s H; exact H|]. intros s1 s2 s3 H12 H23 H. apply H23, H12, H.
Qed.

Lemma keeps_wellFormed_emitCapabilitiesEvent presence :
  preserves keeps_wellFormed (_emitCapabilitiesEvent presence).
Proof.
  unfold _emitCapabilitiesEvent. repeat preserves_step keeps_wellFormed.
  all: intros Hwf; unfold keeps_wellFormed; hsimpl; try done.
  all: apply Forall_app; split; [done|]; apply Forall_singleton; split;
    [apply removeDuplicates_loop_NoDup|done].
Qed.

Lemma keeps_wellFormed_emitEventIfFullyLoaded jid :
  preserves keeps_wellFormed (_emitEventIfFullyLoaded jid).
Proof.
  unfold _emitEventIfFullyLoaded.
  repeat lazymatch goal with
         | |- preserves _ (_emitCapabilitiesEvent _) =>
             apply keeps_wellFormed_emitCapabilitiesEvent
         | _ => preserves_step keeps_wellFormed
         end.
Qed.

Lemma keeps_wellFormed_handlePresence stanza :
  preserves keeps_wellFormed (_handlePresence stanza).
Proof.
  unfold _handlePresence, _getCapabilitiesFromPresence, _getExtensionFromPresence,
    _sendDiscoQuery.
  repeat lazymatch goal with
         | |- preserves _ (_emitCapabilitiesEvent _) =>
             apply keeps_wellFormed_emitCapabilitiesEvent
         | _ => preserves_step keeps_wellFormed
         end;
    by intros ?.
Qed.

Lemma keeps_wellFormed_handleIQ stanza : preserves keeps_wellFormed (_handleIQ stanza).
Proof.
  unfold _handleIQ, _handleIQExt, _handleIQCaps.
  repeat lazymatch goal with
         | |- preserves _ (_emitEventIfFullyLoaded _) =>
             apply keeps_wellFormed_emitEventIfFullyLoaded
         | _ => preserves_step keeps_wellFormed
         end;
    by intros ?.
Qed.

Lemma keeps_wellFormed_step s stanza : keeps_wellFormed s (step s stanza).
Proof.
  unfold step. destruct stanza; cbn [capabilities_mw].
  - apply keeps_wellFormed_handlePresence.
  - apply keeps_wellFormed_handleIQ.
  - reflexivity.
Qed.

(** X14: every record the middleware has handed to the listeners is well
    formed: its raw features have pairwise distinct keys, and its features
    hash is the one of these raw features. *)
Theorem emitted_records_well_formed (s : Handler) (ev : Event) :
  reachable s → ev ∈ emitted s →
  NoDup (toKey <$> rawFeatures (ev_caps ev))
  ∧ features (ev_caps ev) = parseCommonFeatures (rawFeatures (ev_caps ev)).
Proof.
  intros [stanzas ->].
  assert (Forall wellFormed (emitted (run_stanzas stanzas new))) as Hall.
  { unfold run_stanzas. induction stanzas as [|stanza stanzas IH] using rev_ind;
      [constructor|].
    rewrite foldl_app. cbn [foldl]. exact (keeps_wellFormed_step _ stanza IH). }
  rewrite Forall_forall in Hall. apply Hall.
Qed.

Lemma emitted_records_well_formed_witness :
  NoDup (toKey <$> rawFeatures
                     (ev_caps (mergedEvent {| from := "p0";
                                              caps := Some (ex_announce (Some [])) |}
                                 (ex_caps ["jabber:iq:version"])
                                 [JStr "jabber:iq:version"])))
  ∧ features (ev_caps (mergedEvent {| from := "p0";
                                      caps := Some (ex_announce (Some [])) |}
                         (ex_caps ["jabber:iq:version"])
                         [JStr "jabber:iq:version"]))
    = parseCommonFeatures
        (rawFeatures (ev_caps (mergedEvent {| from := "p0";
                                              caps := Some (ex_announce (Some [])) |}
                                 (ex_caps ["jabber:iq:version"])
                                 [JStr "jabber:iq:version"]))).
Proof.
  apply (emitted_records_well_formed ex_main_cached).
  - apply (reachable_run [ex_presence "p0" (Some []);
                          ex_response "caps-1" ["jabber:iq:version"]]).
  - vm_compute. by left.
Defined.

(** * The ids of the queries *)

#[local] Instance keeps_ids_preorder : PreOrder keeps_ids.
Proof.
  split; [intros s H; exact H|]. intros s1 s2 s3 H12 H23 H. apply H23, H12, H.
Qed.

Lemma keeps_ids_sendDiscoQuery stanza pc node extraData :
  caps stanza = Some pc → preserves keeps_ids (_sendDiscoQuery stanza node extraData).
Proof.
  intros Hc s. apply wp_final. eapply sendDiscoQuery_wp; [done|].
  intros [Hseq Htracked]. split; hsimpl.
  - rewrite fmap_app, Hseq, seq_S, fmap_app. done.
  - intros id [r Hr]. rewrite fmap_app, elem_of_app.
    destruct (decide (id = requestId (S (_iqCount s)))) as [->|Hne].
    + right. by left.
    + left. apply Htracked. rewrite lookup_insert_ne in Hr by done. eauto.
Qed.

Ltac keeps_ids_frame := by intros ?.

Lemma keeps_ids_emitEventIfFullyLoaded jid :
  preserves keeps_ids (_emitEventIfFullyLoaded jid).
Proof.
  unfold _emitEventIfFullyLoaded, _emitCapabilitiesEvent.
  repeat preserves_step keeps_ids; keeps_ids_frame.
Qed.

Lemma keeps_ids_handlePresence stanza : preserves keeps_ids (_handlePresence stanza).
Proof.
  unfold _handlePresence. destruct (caps stanza) as [pc|] eqn:Hc;
    [|apply (preserves_ret keeps_ids)].
  unfold _emitCapabilitiesEvent, _getCapabilitiesFromPresence, _getExtensionFromPresence.
  rewrite Hc.
  repeat lazymatch goal with
         | |- preserves _ (_sendDiscoQuery _ _ _) =>
             apply (keeps_ids_sendDiscoQuery stanza pc _ _ Hc)
         | _ => preserves_step keeps_ids
         end;
    keeps_ids_frame.
Qed.

Lemma keeps_ids_handleIQ stanza : preserves keeps_ids (_handleIQ stanza).
Proof.
  unfold _handleIQ, _handleIQExt, _handleIQCaps.
  repeat lazymatch goal with
         | |- preserves _ (_emitEventIfFullyLoaded _) =>
             apply keeps_ids_emitEventIfFullyLoaded
         | _ => preserves_step keeps_ids
         end;
    try keeps_ids_frame.
  intros [Hseq Htracked]. split; [done|]. hsimpl. intros id' [r' Hr'].
  apply Htracked. apply lookup_delete_Some in Hr' as [_ Hr']. eauto.
Qed.

Lemma keeps_ids_step s stanza : keeps_ids s (step s stanza).
Proof.
  unfold step. destruct stanza; cbn [capabilities_mw].
  - apply keeps_ids_handlePresence.
  - apply keeps_ids_handleIQ.
  - reflexivity.
Qed.

(** X15: the queries the middleware has sent bear the ids ['caps-1'],
    ['caps-2'], ... in the order they were sent, one for each increment of
    [_iqCount]; so no id is used twice, and every request that is tracked
    is one that was sent. *)
Theorem query_ids_in_sequence (s : Handler) :
  reachable s →
  q_id <$> sent s = requestId <$> seq 1 (_iqCount s)
  ∧ length (sent s) = _iqCount s
  ∧ NoDup (q_id <$> sent s)
  ∧ (∀ id r, _iqRequests s !! id = Some r → ∃ q, q ∈ sent s ∧ q_id q = id).
Proof.
  intros [stanzas ->].
  assert (ids_in_sequence (run_stanzas stanzas new)) as [Hseq Htracked].
  { unfold run_stanzas. induction stanzas as [|stanza stanzas IH] using rev_ind.
    - split; [done|]. intros id [r Hr]. cbn in Hr. by rewrite lookup_empty in Hr.
    - rewrite foldl_app. cbn [foldl]. exact (keeps_ids_step _ stanza IH). }
  split; [done|]. split; [|split].
  - apply (f_equal length) in Hseq. by rewrite !length_fmap, length_seq in Hseq.
  - rewrite Hseq. apply NoDup_fmap_2; [|apply NoDup_seq].
    intros k1 k2 Hk. by apply requestId_inj.
  - intros id r Hr.
    destruct (list_elem_of_fmap_1 q_id (sent (run_stanzas stanzas new)) id)
      as (q & -> & Hq); [apply Htracked; eauto|]. by exists q.
Qed.

Lemma query_ids_in_sequence_witness :
  q_id <$> sent ex_ext_outstanding = requestId <$> seq 1 (_iqCount ex_ext_outstanding)
  ∧ length (sent ex_ext_outstanding) = _iqCount ex_ext_outstanding
  ∧ NoDup (q_id <$> sent ex_ext_outstanding)
  ∧ (∀ id r, _iqRequests ex_ext_outstanding !! id = Some r →
             ∃ q, q ∈ sent ex_ext_outstanding ∧ q_id q = id).
Proof.
  apply (query_ids_in_sequence ex_ext_outstanding
           (reachable_run [ex_presence "p1" (Some ["ext1"])])).
Defined.

(** * The caches only grow *)

Lemma extCache_after_step s stanza F e fs :
  plainStanza stanza = true → Inv s →
  _extCache s !! F ≫= (.!! e) = Some fs →
  _extCache (step s stanza) !! F ≫= (.!! e) = Some fs.
Proof.
  intros Hplain HI Hfs. unfold step. destruct stanza as [p|iq|]; cbn [capabilities_mw];
    [| |done].
  - apply wp_final. eapply wp_mono; [by apply handlePresence_effect| |done].
    intros [] s' (_ & _ & Hx). by rewrite Hx.
  - destruct (_iqRequests s !! id iq) as [r|] eqn:Hr.
    + destruct (type r) as [|e0] eqn:Ht.
      * apply wp_final. eapply wp_mono; [by apply (handleIQ_caps_effect s iq r)| |done].
        by intros [] s' (s'' & (evs & -> & _) & ->).
      * destruct (inv_req_ext _ (inv_R _ HI) _ _ _ Hr Ht) as [(m & Hm & a & Ha) Hnew].
        assert (¬ (fullNode r = F ∧ e0 = e)) as Hne.
        { intros [<- <-]. rewrite extCached_alt, Hfs in Hnew.
          by rewrite bool_decide_eq_true_2 in Hnew by eauto. }
        destruct (capabilities iq) as [c|] eqn:Hc.
        -- apply wp_final. eapply wp_mono; [by apply (handleIQ_ext_effect s iq r e0)| |].
           ++ intros [] s' (c' & _ & _ & _ & Hx & _).
              by rewrite Hx, storeExt_lookup, decide_False.
           ++ intros err s' (_ & ? & _). congruence.
        -- apply wp_final. unfold _handleIQ. wp_run.
           rewrite (get_own _ _ _ Hr). cbn [asRequest]. rewrite Ht.
           unfold _handleIQExt. wp_run. rewrite Hm. wp_run. rewrite Hc.
           destruct (_extCache s !! fullNode r) as [m0|] eqn:Hm0; wp_run; [done|].
           hsimpl. rewrite lookup_insert_ne; [done|]. intros <-.
           by rewrite Hm0 in Hfs.
    + unfold _handleIQ, bind, gets. by rewrite get_absent.
Qed.

Lemma fullyCached_after_step s stanza presence :
  plainStanza stanza = true →
  Inv s → fullyCached s presence → fullyCached (step s stanza) presence.
Proof.
  intros Hplain HI (pc & Hpc & [c Hc] & Hx). exists pc. split; [done|]. split.
  - exists c. by apply cache_after_step.
  - intros ext e Hext He. specialize (Hx ext e Hext He).
    rewrite extCached_alt in Hx. apply bool_decide_eq_true in Hx as [fs Hfs].
    rewrite extCached_alt. apply bool_decide_eq_true_2. exists fs.
    by apply extCache_after_step.
Qed.

(** X16: what is cached stays cached, unaltered, as long as no stanza
    names a member of [Object.prototype] (as an extension or as the id of
    a response): in a state the middleware reaches that way, no further
    such stanzas remove or change the capabilities cached for a
    fingerprint or the features cached for an extension, so an
    announcement that is fully cached remains so. *)
Theorem cache_entries_permanent (s : Handler) (stanzas : list Stanza) :
  reachablePlain s → forallb plainStanza stanzas = true →
  (∀ F c, cached s F = Some c → cached (run_stanzas stanzas s) F = Some c)
  ∧ (∀ F e fs, _extCache s !! F ≫= (.!! e) = Some fs →
               _extCache (run_stanzas stanzas s) !! F ≫= (.!! e) = Some fs)
  ∧ (∀ presence, fullyCached s presence → fullyCached (run_stanzas stanzas s) presence).
Proof.
  intros HI%Inv_reachable. revert s HI. unfold run_stanzas.
  induction stanzas as [|stanza stanzas IH]; intros s HI Hplain; [done|].
  cbn [foldl]. cbn [forallb] in Hplain. apply andb_true_iff in Hplain as [Hstanza Hplain].
  destruct (IH (step s stanza) (Inv_step s stanza Hstanza HI) Hplain) as (IH1 & IH2 & IH3).
  split; [|split].
  - intros F c Hc. by apply IH1, cache_after_step.
  - intros F e fs Hfs. by apply IH2, extCache_after_step.
  - intros presence Hp. by apply IH3, fullyCached_after_step.
Qed.

Lemma cache_entries_permanent_witness :
  cached (run_stanzas [ex_presence "p1" (Some ["ext1"]);
                       ex_response "caps-1" ["urn:xmpp:bob"]] ex_main_cached) "app#v1"
  = Some (ex_caps ["jabber:iq:version"]).
Proof.
  destruct (cache_entries_permanent ex_main_cached
              [ex_presence "p1" (Some ["ext1"]); ex_response "caps-1" ["urn:xmpp:bob"]]
              (reachablePlain_run [ex_presence "p0" (Some []);
                                   ex_response "caps-1" ["jabber:iq:version"]] eq_refl)
              eq_refl) as [H _].
  apply H. by vm_compute.
Defined.

(** * The test of [_emitEventIfFullyLoaded] *)

(** X17: the test [pendingExts.length === 0] is a sound test for "every
    announced extension is cached" as long as no stanza names a member of
    [Object.prototype] (as an extension or as the id of a response). In a
    state the middleware reaches that way, the record of every pending
    buddy is there with the presence it was made for, each extension this
    presence announces is cached or has a pending array that the record
    holds in [pendingExts], and so a record with no pending array has all
    its extensions cached. *)
Theorem pendingExts_empty_means_cached (s : Handler) (j : string) (l : buddy_ref) :
  reachablePlain s → _pendingBuddies s !! j = Some l →
  ∃ b pc,
    buddyHeap s !! l = Some b ∧ caps (originalPresence b) = Some pc
    ∧ (∀ ext e, pc_ext pc = Some ext → e ∈ ext →
         extCached s (fullNodeOf pc) e = true
         ∨ ∃ m a arr, _pendingExt s !! fullNodeOf pc = Some m ∧ m !! e = Some a
                      ∧ a ∈ pendingExts b ∧ arrayHeap s !! a = Some arr)
    ∧ (pendingExts b = [] →
       ∀ ext e, pc_ext pc = Some ext → e ∈ ext → extCached s (fullNodeOf pc) e = true).
Proof.
  intros HI%Inv_reachable Hl. pose proof (inv_H _ HI) as HH.
  destruct (inv_buddy_ref _ _ HH j l Hl) as [b Hb].
  destruct (inv_heap _ _ HH l b Hb) as [[pc Hpc] _].
  exists b, pc. split; [done|]. split; [done|].
  assert (∀ ext e, pc_ext pc = Some ext → e ∈ ext →
            extCached s (fullNodeOf pc) e = true
            ∨ ∃ m a arr, _pendingExt s !! fullNodeOf pc = Some m ∧ m !! e = Some a
                         ∧ a ∈ pendingExts b ∧ arrayHeap s !! a = Some arr) as Hexts.
  { intros ext e Hext He.
    destruct (inv_exts _ _ HH l b pc ext e Hb Hpc Hext He)
      as [?|[(m & a & Hm & Ha & Hin)|[]]]; [by left|right].
    destruct (inv_array _ _ HH _ _ _ _ Hm Ha) as (arr & Harr & _).
    by exists m, a, arr. }
  split; [exact Hexts|]. intros Hempty ext e Hext He.
  destruct (Hexts ext e Hext He) as [?|(m & a & arr & _ & _ & Hin & _)]; [done|].
  rewrite Hempty in Hin. by apply elem_of_nil in Hin.
Qed.

Lemma pendingExts_empty_means_cached_witness :
  ∃ b pc,
    buddyHeap ex_ext_outstanding !! 0 = Some b ∧ caps (originalPresence b) = Some pc
    ∧ (∀ ext e, pc_ext pc = Some ext → e ∈ ext →
         extCached ex_ext_outstanding (fullNodeOf pc) e = true
         ∨ ∃ m a arr, _pendingExt ex_ext_outstanding !! fullNodeOf pc = Some m
                      ∧ m !! e = Some a
                      ∧ a ∈ pendingExts b ∧ arrayHeap ex_ext_outstanding !! a = Some arr)
    ∧ (pendingExts b = [] →
       ∀ ext e, pc_ext pc = Some ext → e ∈ ext →
                extCached ex_ext_outstanding (fullNodeOf pc) e = true).
Proof.
  apply (pendingExts_empty_means_cached ex_ext_outstanding "p1" 0).
  - by apply (reachablePlain_run [ex_presence "p1" (Some ["ext1"])]).
  - by vm_compute.
Defined.

(** * A presence that is fully cached *)

Lemma addExtensions_cached (m : gmap string (list jsval)) raw ext :
  (∀ e, e ∈ ext → is_Some (m !! e)) →
  addExtensions (Some m) raw ext = Some (raw ++ (ext ≫= λ e, default [] (m !! e))).
Proof.
  revert raw. induction ext as [|e ext IH]; intros raw Hall.
  - cbn. by rewrite app_nil_r.
  - cbn [addExtensions]. destruct (Hall e) as [fs Hfs]; [by left|].
    rewrite IH by (intros e' He'; apply Hall; by right).
    rewrite bind_cons, (get_own _ _ _ Hfs), Hfs. cbn [concat default].
    by rewrite <-app_assoc.
Qed.

Lemma mergeRaw_cached s pc entry :
  (∀ ext e, pc_ext pc = Some ext → e ∈ ext → extCached s (fullNodeOf pc) e = true) →
  mergeRaw s pc entry = Some (mergedRaw s pc entry).
Proof.
  intros Hall. unfold mergeRaw, mergedRaw.
  destruct (pc_ext pc) as [ext|] eqn:Hext; [|cbn; by rewrite app_nil_r].
  cbn [default]. destruct ext as [|e0 ext].
  { cbn. by rewrite app_nil_r. }
  destruct (extCached_true s (fullNodeOf pc) e0) as [m Hm]; [apply (Hall _ _ eq_refl); by left|].
  rewrite Hm, addExtensions_cached.
  - do 2 f_equal. unfold extFeatures. by rewrite Hm.
  - intros e He. specialize (Hall _ e eq_refl He). unfold extCached in Hall.
    rewrite Hm in Hall. by apply bool_decide_eq_true in Hall.
Qed.

(** X18: a presence whose main capabilities and announced extensions are
    all cached is answered at once: one event is raised for it and nothing
    else changes (no query, no pending record). The record of the event
    holds the raw features of the cached entry followed by those of each
    announced extension, in the order of the announcement, as
    [removeDuplicates] leaves them: without duplicates, and without the
    features named like members of [Object.prototype]. *)
Theorem fully_cached_presence (s : Handler) (stanza : Presence) (pc : PCaps)
    (entry : Caps) :
  caps stanza = Some pc →
  cached s (fullNodeOf pc) = Some entry →
  (∀ ext e, pc_ext pc = Some ext → e ∈ ext → extCached s (fullNodeOf pc) e = true) →
  capabilities_mw (SPresence stanza) s
  = (Ret tt,
     set_emitted (λ l, l ++ [mergedEvent stanza entry (mergedRaw s pc entry)]) s).
Proof.
  intros Hpc Hcached Hall. cbn [capabilities_mw]. apply wp_run_eq.
  unfold _handlePresence. rewrite Hpc. wp_run. rewrite Hcached.
  assert (match pc_ext pc with
          | Some ext => filter (λ e, readsCached s (fullNodeOf pc) e = false) ext
          | None => []
          end = []) as ->.
  { destruct (pc_ext pc) as [ext|] eqn:Hext; [|done].
    assert (∀ e, e ∈ ext → extCached s (fullNodeOf pc) e = true) as H
      by (intros e He; by apply (Hall ext)).
    clear Hall Hext. induction ext as [|e ext IH]; [done|].
    rewrite filter_cons_False.
    - apply IH. intros e' He'. apply H. by right.
    - rewrite readsCached_own; [done|]. apply H. by left. }
  rewrite bool_decide_eq_true_2 by eauto. cbn.
  eapply emitCapabilitiesEvent_wp; [done..|by apply mergeRaw_cached|done].
Qed.

Lemma fully_cached_presence_witness :
  capabilities_mw
    (SPresence {| from := "p1"; caps := Some (ex_announce (Some [])) |}) ex_main_cached
  = (Ret tt,
     set_emitted
       (λ l, l ++ [mergedEvent {| from := "p1"; caps := Some (ex_announce (Some [])) |}
                     (ex_caps ["jabber:iq:version"])
                     (mergedRaw ex_main_cached (ex_announce (Some []))
                        (ex_caps ["jabber:iq:version"]))])
       ex_main_cached).
Proof.
  apply (fully_cached_presence ex_main_cached
           {| from := "p1"; caps := Some (ex_announce (Some [])) |}
           (ex_announce (Some [])) (ex_caps ["jabber:iq:version"])).
  - done.
  - by vm_compute.
  - intros ext e [= <-] He. by apply elem_of_nil in He.
Defined.

(** * A presence with one uncached extension, and the responses *)

Lemma afterRegistration_frame stanza pc s :
  _cache (afterRegistration stanza pc s) = _cache s
  ∧ _extCache (afterRegistration stanza pc s) = _extCache s
  ∧ emitted (afterRegistration stanza pc s) = emitted s
  ∧ _pendingBuddies (afterRegistration stanza pc s)
    = <[from stanza := length (buddyHeap s)]> (_pendingBuddies s)
  ∧ buddyHeap (afterRegistration stanza pc s) = buddyHeap s ++ [newBuddy stanza]
  ∧ _pendingExt (afterRegistration stanza pc s) = _pendingExt s
  ∧ arrayHeap (afterRegistration stanza pc s) = arrayHeap s.
Proof.
  unfold afterRegistration. destruct (cached s (fullNodeOf pc)); [done|].
  destruct (afterGetCapabilities_frame stanza pc (addBuddy stanza s))
    as (Hc & Hx & Hem & Hpb & Hheap & Hpe & Ha).
  by rewrite Hc, Hx, Hem, Hpb, Hheap, Hpe, Ha.
Qed.

Lemma handlePresence_slowPath s stanza pc e :
  plainKey e = true →
  caps stanza = Some pc → uncachedExts s pc = [e] →
  _pendingExt s !! fullNodeOf pc ≫= (.!! e) = None →
  _handlePresence stanza s = (Ret tt, slowPath stanza pc e s).
Proof.
  intros Hplain Hpc Hunc Hpending. apply wp_run_eq.
  unfold _handlePresence. rewrite Hpc. wp_run.
  rewrite uncached_plainKeys by (rewrite Hunc; by intros e' ->%list_elem_of_singleton).
  rewrite Hunc. rewrite (bool_decide_eq_false_2 (length [e] = 0)) by done.
  rewrite andb_false_r. wp_run.
  apply (wp_mono _ _ (λ _ s', s' = afterRegistration stanza pc s) _ (λ _ _, False));
    [|intros [] s' ->|done].
  { unfold afterRegistration.
    destruct (cached s (fullNodeOf pc)) as [entry|] eqn:Hcached.
    - rewrite bool_decide_eq_true_2 by eauto. by wp_run.
    - rewrite bool_decide_eq_false_2 by (by intros [? ?]).
      by eapply getCapabilitiesFromPresence_wp. }
  rewrite bool_decide_eq_true_2 by (cbn; lia). wp_run.
  destruct (afterRegistration_frame stanza pc s) as (_ & _ & _ & Hpb & Hheap & Hpe & Ha).
  apply (wp_mono _ _ (λ _ s', s' = ensurePendingExt (fullNodeOf pc)
                                     (afterRegistration stanza pc s))
           _ (λ _ _, False)); [|intros [] s' ->|done].
  { unfold ensurePendingExt.
    destruct (_pendingExt (afterRegistration stanza pc s) !! fullNodeOf pc); by wp_run. }
  cbn [forEach]. wp_run.
  assert (_pendingExt (ensurePendingExt (fullNodeOf pc) (afterRegistration stanza pc s))
            !! fullNodeOf pc
          = Some (default ∅ (_pendingExt s !! fullNodeOf pc))) as Hm.
  { unfold ensurePendingExt. rewrite Hpe.
    destruct (_pendingExt s !! fullNodeOf pc) as [m|] eqn:Hs.
    - by rewrite Hpe, Hs.
    - hsimpl. by rewrite lookup_insert_eq. }
  assert (buddyHeap (ensurePendingExt (fullNodeOf pc) (afterRegistration stanza pc s))
          = buddyHeap s ++ [newBuddy stanza]) as Hheap'.
  { unfold ensurePendingExt.
    by destruct (_pendingExt (afterRegistration stanza pc s) !! fullNodeOf pc). }
  assert (_pendingBuddies (ensurePendingExt (fullNodeOf pc) (afterRegistration stanza pc s))
          = <[from stanza := length (buddyHeap s)]> (_pendingBuddies s)) as Hpb'.
  { unfold ensurePendingExt.
    by destruct (_pendingExt (afterRegistration stanza pc s) !! fullNodeOf pc). }
  eapply (getExtensionFromPresence_wp stanza pc e (length (buddyHeap s))
            (default ∅ (_pendingExt s !! fullNodeOf pc))); [done|done| | |done| |done].
  - by rewrite Hpb', lookup_insert_eq.
  - rewrite Hheap'. exists (newBuddy stanza). by apply list_lookup_middle.
  - intros a Ha'. destruct (_pendingExt s !! fullNodeOf pc) as [m|]; simpl in *.
    + congruence.
    + by rewrite lookup_empty in Ha'.
Qed.

(** What the slow path leaves behind. *)
Lemma slowPath_facts s stanza pc e :
  _pendingExt s !! fullNodeOf pc ≫= (.!! e) = None →
  let s1 := slowPath stanza pc e s in
  let r := afterRegistration stanza pc s in
  _cache s1 = _cache s ∧ _extCache s1 = _extCache s ∧ emitted s1 = emitted s
  ∧ _pending s1 = _pending r
  ∧ _pendingBuddies s1 !! from stanza = Some (length (buddyHeap s))
  ∧ buddyHeap s1 !! length (buddyHeap s)
    = Some {| jid := from stanza; pendingExts := [length (arrayHeap s)];
              originalPresence := stanza |}
  ∧ arrayHeap s1 !! length (arrayHeap s) = Some [length (buddyHeap s)]
  ∧ (∃ m, _pendingExt s1 !! fullNodeOf pc = Some m
          ∧ m !! e = Some (length (arrayHeap s)))
  ∧ _iqRequests s1 = <[requestId (S (_iqCount r)) := extRequest pc e]> (_iqRequests r)
  ∧ sent s1 = sent r ++ [ {| q_to := from stanza; q_id := requestId (S (_iqCount r));
                            q_node := str (pc_node pc) +:+ "#" +:+ e |} ].
Proof.
  intros Hpending s1 r. subst s1 r.
  destruct (afterRegistration_frame stanza pc s) as (Hc & Hx & Hem & Hpb & Hheap & Hpe & Ha).
  set (r := afterRegistration stanza pc s) in *.
  assert (∀ (P : Handler → Prop), P r → (P (set_pendingExt <[fullNodeOf pc := ∅]> r)) →
            P (ensurePendingExt (fullNodeOf pc) r)) as Hcase.
  { intros P H1 H2. unfold ensurePendingExt.
    by destruct (_pendingExt r !! fullNodeOf pc). }
  unfold slowPath. fold r.
  assert (default ∅ (_pendingExt s !! fullNodeOf pc) !! e = None) as He.
  { destruct (_pendingExt s !! fullNodeOf pc); [done|apply lookup_empty]. }
  assert (_pendingExt (ensurePendingExt (fullNodeOf pc) r) !! fullNodeOf pc
          = Some (default ∅ (_pendingExt s !! fullNodeOf pc))) as Hm.
  { unfold ensurePendingExt. rewrite Hpe.
    destruct (_pendingExt s !! fullNodeOf pc) as [m|] eqn:Hs.
    - by rewrite Hpe, Hs.
    - hsimpl. by rewrite lookup_insert_eq. }
  unfold afterGetExtension, register. rewrite He. hsimpl.
  assert (arrayHeap (ensurePendingExt (fullNodeOf pc) r) = arrayHeap s) as ->
    by (apply Hcase; done).
  assert (buddyHeap (ensurePendingExt (fullNodeOf pc) r) = buddyHeap s ++ [newBuddy stanza])
    as -> by (apply Hcase; done).
  assert (_pendingBuddies (ensurePendingExt (fullNodeOf pc) r)
          = <[from stanza := length (buddyHeap s)]> (_pendingBuddies s))
    as -> by (apply Hcase; done).
  assert (_cache (ensurePendingExt (fullNodeOf pc) r) = _cache s) as ->
    by (apply Hcase; done).
  assert (_extCache (ensurePendingExt (fullNodeOf pc) r) = _extCache s) as ->
    by (apply Hcase; done).
  assert (emitted (ensurePendingExt (fullNodeOf pc) r) = emitted s) as ->
    by (apply Hcase; done).
  assert (_pending (ensurePendingExt (fullNodeOf pc) r) = _pending r) as ->
    by (apply Hcase; done).
  assert (_iqRequests (ensurePendingExt (fullNodeOf pc) r) = _iqRequests r) as ->
    by (apply Hcase; done).
  assert (_iqCount (ensurePendingExt (fullNodeOf pc) r) = _iqCount r) as ->
    by (apply Hcase; done).
  assert (sent (ensurePendingExt (fullNodeOf pc) r) = sent r) as ->
    by (apply Hcase; done).
  split; [done|]. split; [done|]. split; [done|]. split; [done|].
  split; [apply lookup_insert_eq|]. split; [|split; [|split; [|done]]].
  - rewrite list_lookup_alter_eq, list_lookup_middle by done. done.
  - rewrite list_lookup_alter_eq, list_lookup_middle by done. done.
  - rewrite lookup_alter_eq, Hm. eexists. split; [done|]. apply lookup_insert_eq.
Qed.

Lemma splice_indexOf_singleton (a : array_ref) : splice_indexOf a [a] = [].
Proof. unfold splice_indexOf. cbn. by rewrite decide_True. Qed.

(** The response to the extension query that one buddy waits for. *)
Lemma ext_response_step s stanza pc e l0 a0 m r qid c b :
  caps stanza = Some pc →
  _iqRequests s !! qid = Some r → type r = TExt e → fullNode r = fullNodeOf pc →
  _pendingExt s !! fullNodeOf pc = Some m → m !! e = Some a0 →
  arrayHeap s !! a0 = Some [l0] →
  buddyHeap s !! l0 = Some b → jid b = from stanza → originalPresence b = stanza →
  pendingExts b = [a0] →
  _pendingBuddies s !! from stanza = Some l0 →
  (∀ ext e', pc_ext pc = Some ext → e' ∈ ext → e' ≠ e →
             extCached s (fullNodeOf pc) e' = true) →
  _handleIQ {| id := qid; capabilities := Some c |} s
  = (Ret tt,
     set_iqRequests (delete qid)
       (set_pendingExt (alter (delete e) (fullNodeOf pc))
          (match cached s (fullNodeOf pc) with
           | Some entry =>
               set_emitted
                 (λ l, l ++ [mergedEvent stanza entry
                               (mergedRaw (set_extCache
                                             (storeExt (fullNodeOf pc) e (rawFeatures c)) s)
                                  pc entry)])
                 (set_buddyHeap (alter (spliceExt a0) l0)
                    (set_extCache (storeExt (fullNodeOf pc) e (rawFeatures c)) s))
           | None =>
               set_buddyHeap (alter (spliceExt a0) l0)
                 (set_extCache (storeExt (fullNodeOf pc) e (rawFeatures c)) s)
           end))).
Proof.
  intros Hpc Hr Ht HF Hm He Harr Hb Hjid Hpres Hexts Hpb Hothers.
  apply wp_run_eq. unfold _handleIQ. wp_run. cbn [id].
  rewrite (get_own _ _ _ Hr). cbn [asRequest]. rewrite Ht.
  unfold _handleIQExt. wp_run. cbn [capabilities]. rewrite HF, Hm. wp_run.
  destruct (_extCache s !! fullNodeOf pc) eqn:Hcache; wp_run;
    (eapply (wp_state_eq _ _ _ _
               (set_extCache (storeExt (fullNodeOf pc) e (rawFeatures c)) s));
       [unfold storeExt, set_extCache; cbn; by rewrite Hcache|]);
    rewrite He; wp_run; (eapply wp_derefArray; [exact Harr|]); wp_run;
    cbn [forEach]; wp_run; (eapply wp_derefBuddy; [exact Hb|]); wp_run;
    (eapply wp_derefBuddy; [hsimpl; by rewrite list_lookup_alter_eq, Hb|]);
    cbn [jid]; rewrite Hjid;
    (eapply (emitEventIfFullyLoaded_wp (from stanza) l0 (spliceExt a0 b) pc);
       [done|hsimpl; by rewrite list_lookup_alter_eq, Hb|by cbn; rewrite Hpres| |]).
  all: unfold cached; hsimpl; fold (cached s (fullNodeOf pc)).
  all: try (intros entry Hentry _; rewrite Hentry; eexists; split;
            [|wp_run; cbn [spliceExt originalPresence]; rewrite Hpres;
              split; reflexivity]).
  all: try (intros [Hnone|Hne];
            [rewrite Hnone; wp_run; done
            |exfalso; apply Hne; cbn [spliceExt pendingExts];
             rewrite Hexts; apply splice_indexOf_singleton]).
  all: rewrite <-(mergeRaw_frame
                    (set_extCache (storeExt (fullNodeOf pc) e (rawFeatures c)) s))
         by done;
    apply mergeRaw_cached; intros ext e' Hext He';
    rewrite extCached_storeExt; case_decide; [done|];
    apply (Hothers ext e' Hext He'); intros ->; tauto.
Qed.

(** The response to the main query that one buddy waits for. *)
Lemma main_response_step s stanza pc l0 r qid c b p :
  caps stanza = Some pc →
  _iqRequests s !! qid = Some r → type r = TCaps → fullNode r = fullNodeOf pc →
  _pending s !! fullNodeOf pc = Some p → buddies p = [from stanza] →
  _pendingBuddies s !! from stanza = Some l0 →
  buddyHeap s !! l0 = Some b → originalPresence b = stanza →
  (pendingExts b = [] →
   ∀ ext e', pc_ext pc = Some ext → e' ∈ ext → extCached s (fullNodeOf pc) e' = true) →
  _handleIQ {| id := qid; capabilities := Some c |} s
  = (Ret tt,
     set_iqRequests (delete qid)
       (set_pending (delete (fullNodeOf pc))
          (match pendingExts b with
           | [] =>
               set_emitted
                 (λ l, l ++ [mergedEvent stanza c (mergedRaw s pc c)])
                 (set_cache <[fullNodeOf pc := Some c]> s)
           | _ => set_cache <[fullNodeOf pc := Some c]> s
           end))).
Proof.
  intros Hpc Hr Ht HF Hp Hbuddies Hpb Hb Hpres Hexts.
  apply wp_run_eq. unfold _handleIQ. wp_run. cbn [id].
  rewrite (get_own _ _ _ Hr). cbn [asRequest]. rewrite Ht.
  unfold _handleIQCaps. wp_run. cbn [capabilities]. rewrite HF. hsimpl. rewrite Hp.
  wp_run. rewrite Hbuddies. cbn [forEach]. wp_run.
  eapply (emitEventIfFullyLoaded_wp (from stanza) l0 b pc);
    [done|done|by rewrite Hpres| |].
  - intros entry Hentry Hempty. unfold cached in Hentry. hsimpl.
    rewrite lookup_insert_eq in Hentry. injection Hentry as <-.
    exists (mergedRaw s pc c). split.
    + rewrite (mergeRaw_frame _ s) by done. apply mergeRaw_cached. by apply Hexts.
    + wp_run. rewrite Hempty, Hpres. done.
  - intros [Hnone|Hne].
    + unfold cached in Hnone. hsimpl. by rewrite lookup_insert_eq in Hnone.
    + wp_run. by destruct (pendingExts b).
Qed.

Lemma uncachedExts_others s pc e :
  uncachedExts s pc = [e] →
  ∀ ext e', pc_ext pc = Some ext → e' ∈ ext → e' ≠ e →
            extCached s (fullNodeOf pc) e' = true.
Proof.
  unfold uncachedExts. intros Hunc ext e' Hext He' Hne. rewrite Hext in Hunc.
  destruct (extCached s (fullNodeOf pc) e') eqn:Hc; [done|].
  assert (e' ∈ filter (λ e, extCached s (fullNodeOf pc) e = false) ext) as Hin
    by by apply list_elem_of_filter.
  rewrite Hunc in Hin. by apply list_elem_of_singleton in Hin.
Qed.

(** X19: a peer announces a fingerprint that is cached, with extensions of
    which exactly one, [e], is neither cached nor asked for yet; [e] is
    not the name of a member of [Object.prototype]. The presence sends the
    one query for [e] and raises no event; when the response arrives its
    features are cached under the fingerprint and [e], the request is
    over, and the one event for the peer is raised, with the main features
    followed by those of the announced extensions. *)
Theorem extension_response_resolves (s : Handler) (stanza : Presence) (pc : PCaps)
    (e : string) (entry c : Caps) :
  plainKey e = true →
  caps stanza = Some pc →
  cached s (fullNodeOf pc) = Some entry →
  uncachedExts s pc = [e] →
  _pendingExt s !! fullNodeOf pc ≫= (.!! e) = None →
  emitted (step s (SPresence stanza)) = emitted s
  ∧ sent (step s (SPresence stanza))
    = sent s ++ [ {| q_to := from stanza; q_id := requestId (S (_iqCount s));
                     q_node := str (pc_node pc) +:+ "#" +:+ e |} ]
  ∧ (capabilities_mw (SIq {| id := requestId (S (_iqCount s)); capabilities := Some c |})
       (step s (SPresence stanza))).1 = Ret tt
  ∧ emitted (run_stanzas
               [ SPresence stanza;
                 SIq {| id := requestId (S (_iqCount s)); capabilities := Some c |} ] s)
    = emitted s
      ++ [ mergedEvent stanza entry
             (mergedRaw (set_extCache (storeExt (fullNodeOf pc) e (rawFeatures c)) s)
                pc entry) ]
  ∧ sent (run_stanzas
            [ SPresence stanza;
              SIq {| id := requestId (S (_iqCount s)); capabilities := Some c |} ] s)
    = sent (step s (SPresence stanza))
  ∧ _extCache (run_stanzas
                 [ SPresence stanza;
                   SIq {| id := requestId (S (_iqCount s)); capabilities := Some c |} ] s)
    = storeExt (fullNodeOf pc) e (rawFeatures c) (_extCache s)
  ∧ _iqRequests (run_stanzas
                   [ SPresence stanza;
                     SIq {| id := requestId (S (_iqCount s));
                            capabilities := Some c |} ] s)
      !! requestId (S (_iqCount s)) = None.
Proof.
  intros Hplain Hpc Hcached Hunc Hpending.
  pose proof (handlePresence_slowPath s stanza pc e Hplain Hpc Hunc Hpending) as Hrun.
  destruct (slowPath_facts s stanza pc e Hpending)
    as (Hc & Hx & Hem & _ & Hpb & Hheap & Harr & (m & Hm & He) & Hreq & Hsent).
  assert (afterRegistration stanza pc s = addBuddy stanza s) as Hreg
    by (unfold afterRegistration; by rewrite Hcached).
  rewrite Hreg in Hreq, Hsent. unfold addBuddy in Hreq, Hsent. hsimpl.
  pose proof (ext_response_step (slowPath stanza pc e s) stanza pc e
                (length (buddyHeap s)) (length (arrayHeap s)) m (extRequest pc e)
                (requestId (S (_iqCount s))) c _ Hpc
                ltac:(rewrite Hreq; apply lookup_insert_eq) eq_refl eq_refl Hm He Harr
                Hheap eq_refl eq_refl eq_refl Hpb) as Hstep.
  unfold run_stanzas, step. cbn [foldl capabilities_mw]. rewrite Hrun. cbn [snd].
  rewrite Hstep.
  2: { intros ext e' Hext He' Hne. rewrite (extCached_frame _ s) by done.
       by apply (uncachedExts_others s pc e Hunc ext). }
  cbn [fst snd]. unfold cached. rewrite Hc. fold (cached s (fullNodeOf pc)).
  rewrite Hcached. hsimpl. rewrite Hem, Hsent, Hx.
  split; [done|]. split; [done|]. split; [done|]. split.
  - do 3 f_equal. unfold mergedRaw, extFeatures. hsimpl. by rewrite Hx.
  - split; [done|]. split; [done|]. apply lookup_delete_eq.
Qed.

Lemma extension_response_resolves_witness :
  emitted (run_stanzas
             [ SPresence {| from := "p1"; caps := Some (ex_announce (Some ["ext1"])) |};
               SIq {| id := requestId (S (_iqCount ex_main_cached));
                      capabilities := Some (ex_caps ["urn:xmpp:bob"]) |} ]
             ex_main_cached)
  = emitted ex_main_cached
    ++ [ mergedEvent {| from := "p1"; caps := Some (ex_announce (Some ["ext1"])) |}
           (ex_caps ["jabber:iq:version"])
           (mergedRaw (set_extCache
                         (storeExt (fullNodeOf (ex_announce (Some ["ext1"]))) "ext1"
                            (rawFeatures (ex_caps ["urn:xmpp:bob"])))
                         ex_main_cached)
              (ex_announce (Some ["ext1"])) (ex_caps ["jabber:iq:version"])) ].
Proof.
  destruct (extension_response_resolves ex_main_cached
              {| from := "p1"; caps := Some (ex_announce (Some ["ext1"])) |}
              (ex_announce (Some ["ext1"])) "ext1" (ex_caps ["jabber:iq:version"])
              (ex_caps ["urn:xmpp:bob"]))
    as (_ & _ & _ & H & _); [done|done|by vm_compute..|exact H].
Defined.

(** X20: a peer announces a fingerprint that is neither cached nor asked
    for, with extensions of which exactly one, [e], is neither cached nor
    asked for; [e] is not the name of a member of [Object.prototype]. Two
    queries go out, and the event for the peer is raised when, and only
    when, both responses have arrived: none after the presence, none after
    the first response, one after the second, the same record whichever
    response comes first. *)
Theorem event_after_both_responses (s : Handler) (stanza : Presence) (pc : PCaps)
    (e : string) (c1 c2 : Caps) :
  plainKey e = true →
  caps stanza = Some pc →
  cached s (fullNodeOf pc) = None →
  _pending s !! fullNodeOf pc = None →
  uncachedExts s pc = [e] →
  _pendingExt s !! fullNodeOf pc ≫= (.!! e) = None →
  let main := SIq {| id := requestId (S (_iqCount s)); capabilities := Some c1 |} in
  let ext := SIq {| id := requestId (S (S (_iqCount s))); capabilities := Some c2 |} in
  let ev := mergedEvent stanza c1
              (mergedRaw (set_extCache (storeExt (fullNodeOf pc) e (rawFeatures c2)) s)
                 pc c1) in
  sent (step s (SPresence stanza))
  = sent s ++ [ {| q_to := from stanza; q_id := requestId (S (_iqCount s));
                   q_node := fullNodeOf pc |};
                {| q_to := from stanza; q_id := requestId (S (S (_iqCount s)));
                   q_node := str (pc_node pc) +:+ "#" +:+ e |} ]
  ∧ emitted (run_stanzas [SPresence stanza] s) = emitted s
  ∧ emitted (run_stanzas [SPresence stanza; main] s) = emitted s
  ∧ emitted (run_stanzas [SPresence stanza; ext] s) = emitted s
  ∧ emitted (run_stanzas [SPresence stanza; main; ext] s) = emitted s ++ [ev]
  ∧ emitted (run_stanzas [SPresence stanza; ext; main] s) = emitted s ++ [ev].
Proof.
  intros Hplain Hpc Hcached Hp Hunc Hpending main ext ev. subst main ext ev.
  pose proof (handlePresence_slowPath s stanza pc e Hplain Hpc Hunc Hpending) as Hrun.
  destruct (slowPath_facts s stanza pc e Hpending)
    as (Hc & Hx & Hem & Hpend & Hpb & Hheap & Harr & (m & Hm & He) & Hreq & Hsent).
  assert (afterRegistration stanza pc s = afterGetCapabilities stanza pc (addBuddy stanza s))
    as Hreg by (unfold afterRegistration; by rewrite Hcached).
  rewrite Hreg in Hreq, Hsent, Hpend. unfold afterGetCapabilities, addBuddy in Hreq, Hsent, Hpend.
  hsimpl. rewrite Hp in Hreq, Hsent, Hpend. hsimpl.
  set (s1 := slowPath stanza pc e s) in *.
  set (idM := requestId (S (_iqCount s))) in *.
  set (idE := requestId (S (S (_iqCount s)))) in *.
  assert (idE ≠ idM) as Hids by (intros H%requestId_inj; lia).
  assert (∀ ext e', pc_ext pc = Some ext → e' ∈ ext → e' ≠ e → extCached s (fullNodeOf pc) e' = true)
    as Hothers by apply (uncachedExts_others s pc e Hunc).
  assert (cached s1 (fullNodeOf pc) = None) as Hcached1 by (unfold cached; by rewrite Hc).
  assert (∃ p, _pending s1 !! (fullNodeOf pc) = Some p ∧ buddies p = [from stanza]) as (p & Hp1 & Hbud).
  { rewrite Hpend. eexists. rewrite lookup_alter_eq, lookup_insert_eq. done. }
  (* the main response first *)
  pose proof (main_response_step s1 stanza pc (length (buddyHeap s)) (mainRequest pc)
                idM c1 _ p Hpc
                ltac:(rewrite Hreq, lookup_insert_ne, lookup_insert_eq by done; done)
                eq_refl eq_refl Hp1 Hbud Hpb Hheap eq_refl ltac:(done)) as HA1.
  cbn [pendingExts] in HA1.
  set (sA := set_iqRequests (delete idM)
               (set_pending (delete (fullNodeOf pc)) (set_cache <[(fullNodeOf pc) := Some c1]> s1))) in *.
  pose proof (ext_response_step sA stanza pc e
                (length (buddyHeap s)) (length (arrayHeap s)) m (extRequest pc e)
                idE c2 _ Hpc
                ltac:(subst sA; hsimpl;
                      rewrite lookup_delete_ne, Hreq, lookup_insert_eq by done; done)
                eq_refl eq_refl Hm He Harr Hheap eq_refl eq_refl eq_refl Hpb) as HA2.
  (* the extension response first *)
  pose proof (ext_response_step s1 stanza pc e
                (length (buddyHeap s)) (length (arrayHeap s)) m (extRequest pc e)
                idE c2 _ Hpc
                ltac:(rewrite Hreq; apply lookup_insert_eq)
                eq_refl eq_refl Hm He Harr Hheap eq_refl eq_refl eq_refl Hpb) as HB1.
  rewrite Hcached1 in HB1.
  set (sB := set_iqRequests (delete idE)
               (set_pendingExt (alter (delete e) (fullNodeOf pc))
                  (set_buddyHeap (alter (spliceExt (length (arrayHeap s))) (length (buddyHeap s)))
                     (set_extCache (storeExt (fullNodeOf pc) e (rawFeatures c2)) s1)))) in *.
  pose proof (main_response_step sB stanza pc (length (buddyHeap s)) (mainRequest pc)
                idM c1 (spliceExt (length (arrayHeap s))
                          {| jid := from stanza; pendingExts := [length (arrayHeap s)];
                             originalPresence := stanza |}) p Hpc
                ltac:(subst sB; hsimpl;
                      rewrite lookup_delete_ne, Hreq, lookup_insert_ne, lookup_insert_eq
                        by done; done)
                eq_refl eq_refl Hp1 Hbud Hpb
                ltac:(subst sB; hsimpl; by rewrite list_lookup_alter_eq, Hheap)
                eq_refl) as HB2.
  cbn [spliceExt pendingExts] in HB2. rewrite splice_indexOf_singleton in HB2.
  unfold run_stanzas, step. cbn [foldl capabilities_mw]. rewrite Hrun. cbn [snd].
  rewrite HA1, HB1. cbn [snd]. rewrite HA2, HB2.
  - cbn [snd]. unfold cached. subst sA sB. hsimpl. rewrite lookup_insert_eq. cbn.
    hsimpl. rewrite Hem, Hsent, <-app_assoc.
    split; [done|]. split; [done|]. split; [done|]. split; [done|].
    unfold mergedRaw, extFeatures. hsimpl. rewrite Hx. done.
  - intros _ ext e' Hext He'.
    rewrite (extCached_frame _ (set_extCache
                                  (storeExt (fullNodeOf pc) e (rawFeatures c2)) s))
      by (subst sB; hsimpl; by rewrite Hx).
    rewrite extCached_storeExt. case_decide; [done|].
    apply (Hothers ext e' Hext He'). intros ->. tauto.
  - intros ext e' Hext He' Hne. subst sA. rewrite (extCached_frame _ s) by done.
    by apply (Hothers ext).
  - intros ext e' Hext He' Hne. rewrite (extCached_frame _ s) by done.
    by apply (Hothers ext).
Qed.

Lemma event_after_both_responses_witness :
  emitted (run_stanzas
             [ SPresence {| from := "p1"; caps := Some (ex_announce (Some ["ext1"])) |};
               SIq {| id := requestId (S (S (_iqCount new)));
                      capabilities := Some (ex_caps ["urn:xmpp:bob"]) |};
               SIq {| id := requestId (S (_iqCount new));
                      capabilities := Some (ex_caps ["jabber:iq:version"]) |} ] new)
  = emitted new
    ++ [ mergedEvent {| from := "p1"; caps := Some (ex_announce (Some ["ext1"])) |}
           (ex_caps ["jabber:iq:version"])
           (mergedRaw (set_extCache
                         (storeExt (fullNodeOf (ex_announce (Some ["ext1"]))) "ext1"
                            (rawFeatures (ex_caps ["urn:xmpp:bob"])))
                         new)
              (ex_announce (Some ["ext1"])) (ex_caps ["jabber:iq:version"])) ].
Proof.
  destruct (event_after_both_responses new
              {| from := "p1"; caps := Some (ex_announce (Some ["ext1"])) |}
              (ex_announce (Some ["ext1"])) "ext1" (ex_caps ["jabber:iq:version"])
              (ex_caps ["urn:xmpp:bob"]))
    as (_ & _ & _ & _ & _ & H); [done|by vm_compute..|exact H].
Defined.

(** * The two middlewares in a row *)

#[local] Instance same_caches_preorder : PreOrder same_caches.
Proof.
  split; [done|]. intros s1 s2 s3 (H1 & H2 & H3) (H4 & H5 & H6).
  unfold same_caches. by rewrite H4, H5, H6.
Qed.

Lemma same_caches_sendDiscoQuery stanza node extraData :
  preserves same_caches (_sendDiscoQuery stanza node extraData).
Proof. unfold _sendDiscoQuery. repeat preserves_step same_caches; done. Qed.

Lemma same_caches_getCapabilitiesFromPresence stanza :
  preserves same_caches (_getCapabilitiesFromPresence stanza).
Proof.
  unfold _getCapabilitiesFromPresence.
  repeat lazymatch goal with
         | |- preserves _ (_sendDiscoQuery _ _ _) => apply same_caches_sendDiscoQuery
         | _ => preserves_step same_caches
         end; done.
Qed.

Lemma same_caches_getExtensionFromPresence stanza ext :
  preserves same_caches (_getExtensionFromPresence stanza ext).
Proof.
  unfold _getExtensionFromPresence.
  repeat lazymatch goal with
         | |- preserves _ (_sendDiscoQuery _ _ _) => apply same_caches_sendDiscoQuery
         | _ => preserves_step same_caches
         end; done.
Qed.

(** While no capabilities are cached a presence takes the slow path, which
    touches neither the caches nor the log, however it ends. *)
Lemma quiet_handlePresence s stanza :
  (∀ F, cached s F = None) → same_caches s (_handlePresence stanza s).2.
Proof.
  intros Hc. apply wp_final. unfold _handlePresence.
  destruct (caps stanza) as [pc|]; [|by wp_run].
  wp_run. rewrite Hc. rewrite (bool_decide_eq_false_2 (is_Some None)) by (by intros [? ?]).
  cbn [andb]. apply wp_preserves.
  repeat lazymatch goal with
         | |- preserves _ (_getCapabilitiesFromPresence _) =>
             apply same_caches_getCapabilitiesFromPresence
         | |- preserves _ (_getExtensionFromPresence _ _) =>
             apply same_caches_getExtensionFromPresence
         | _ => preserves_step same_caches
         end; done.
Qed.

Lemma quiet_emitEventIfFullyLoaded jid s :
  (∀ F, cached s F = None) →
  wp (_emitEventIfFullyLoaded jid) (λ _ s', s' = s) (λ _ s', s' = s) s.
Proof.
  intros Hc. unfold _emitEventIfFullyLoaded. wp_run.
  destruct (_pendingBuddies s !! jid) as [l|]; wp_run; [|done].
  apply wp_derefBuddy_case; [intros b Hb|done].
  destruct (caps (originalPresence b)); wp_run; [|done].
  rewrite Hc. rewrite (bool_decide_eq_false_2 (is_Some None)) by (by intros [? ?]).
  cbn [andb]. by wp_run.
Qed.

(** The ids for which the parser attaches capabilities are neither ids of
    the coordinator nor names of members of [Object.prototype]. *)
Lemma handleIQ_Some raw c :
  CapabilitiesParser.handleIQ raw = Some c →
  attrs_id raw = "caps" ∨ substring 0 9 (attrs_id raw) = "caps-ext-".
Proof.
  unfold CapabilitiesParser.handleIQ. destruct (query raw); [|done].
  destruct (decide (attrs_id raw = "caps")) as [?|H1]; [by left|].
  destruct (decide (substring 0 9 (attrs_id raw) = "caps-ext-")) as [?|H2]; [by right|].
  by rewrite (bool_decide_eq_true_2 _ H1), (bool_decide_eq_true_2 _ H2).
Qed.

Lemma recognised_plain id :
  id = "caps" ∨ substring 0 9 id = "caps-ext-" → plainKey id = true.
Proof.
  intros H. apply bool_decide_eq_true_2. intros Hin. cbn in Hin.
  repeat (apply elem_of_cons in Hin as [->|Hin]; [by destruct H|]).
  by apply elem_of_nil in Hin.
Qed.

Lemma recognised_untracked s id :
  ids_in_sequence s → id = "caps" ∨ substring 0 9 id = "caps-ext-" →
  _iqRequests s !! id = None.
Proof.
  intros [Hseq Htracked] H. destruct (_iqRequests s !! id) as [r|] eqn:Hr; [|done].
  assert (id ∈ (q_id <$> sent s)) as Hin by (apply Htracked; eauto).
  rewrite Hseq in Hin. apply list_elem_of_fmap in Hin as (k & -> & _).
  destruct (requestId_unrecognised k) as [H1 H2]. by destruct H.
Qed.

Lemma ids_in_sequence_run stanzas : ids_in_sequence (run_stanzas stanzas new).
Proof.
  unfold run_stanzas. induction stanzas as [|stanza stanzas IH] using rev_ind.
  - split; [done|]. intros id [r Hr]. cbn in Hr. by rewrite lookup_empty in Hr.
  - rewrite foldl_app. cbn [foldl]. exact (keeps_ids_step _ stanza IH).
Qed.

(** With the parser in front, a stanza leaves the caches without entries
    and the log as it is, whether the coordinator returns or throws. *)
Lemma nothingCached_step s stanza :
  ids_in_sequence s → nothingCached s →
  nothingCached (step s (capabilitiesParser stanza))
  ∧ emitted (step s (capabilitiesParser stanza)) = emitted s.
Proof.
  intros Hids [Hc Hx]. unfold step.
  destruct stanza as [from c|raw|]; cbn [capabilitiesParser capabilities_mw]; [| |done].
  - destruct (quiet_handlePresence s {| from := from; caps := handlePresence c |} Hc)
      as (Hc' & Hx' & Hem).
    split; [split|done].
    + intros F. by rewrite (cached_frame _ s).
    + intros F e. by rewrite (extCached_frame _ s).
  - destruct (CapabilitiesParser.handleIQ raw) as [c|] eqn:Hparse.
    + apply handleIQ_Some in Hparse.
      unfold _handleIQ, bind, gets. cbn [id parsed].
      rewrite get_absent; [done|by apply recognised_plain|by apply recognised_untracked].
    + apply (wp_final _ (λ s', nothingCached s' ∧ emitted s' = emitted s)).
      unfold _handleIQ. wp_run.
      destruct (asRequest (get (_iqRequests s) (id (parsed raw)))) as [r|]; [|by wp_run].
      destruct (type r) as [|e].
      * unfold _handleIQCaps. wp_run. hsimpl. cbn [parsed capabilities]. rewrite Hparse.
        set (s1 := set_cache <[fullNode r := None]> s).
        assert (∀ F, cached s1 F = None) as Hc1.
        { intros F. unfold cached, s1. hsimpl.
          destruct (decide (fullNode r = F)) as [<-|Hne].
          - by rewrite lookup_insert_eq.
          - rewrite lookup_insert_ne by done. apply Hc. }
        assert (∀ s', _cache s' = _cache s1 → _extCache s' = _extCache s →
                      emitted s' = emitted s →
                      nothingCached s' ∧ emitted s' = emitted s) as Hpost.
        { intros s' H1 H2 H3. split; [split|done].
          - intros F. by rewrite (cached_frame _ s1).
          - intros F e. by rewrite (extCached_frame _ s). }
        destruct (_pending s !! fullNode r) as [p|]; wp_run; [|by apply Hpost].
        eapply wp_mono;
          [apply (wp_forEach _ (λ _ s', s' = s1)
                    (λ _ s', nothingCached s' ∧ emitted s' = emitted s)); [done|]| |done].
        -- intros j rest s' ->.
           eapply wp_mono; [by apply quiet_emitEventIfFullyLoaded|done|].
           intros err s' ->. by apply Hpost.
        -- intros [] s' ->. wp_run. by apply Hpost.
      * unfold _handleIQExt. wp_run.
        destruct (_pendingExt s !! fullNode r) as [m|]; wp_run; [|done].
        cbn [parsed capabilities]. rewrite Hparse.
        destruct (_extCache s !! fullNode r) as [m0|] eqn:Hm0; wp_run; [done|].
        split; [split|done].
        -- intros F. by rewrite (cached_frame _ s).
        -- intros F e'. by rewrite extCached_insert_empty.
Qed.

(** X21: the parser of this repository in front of the coordinator, as
    the example sets them up. Whatever stanzas arrive, no capabilities and
    no extension features are ever cached and no ['capabilities'] event is
    ever raised: the parser leaves every response to a query of the
    coordinator without capabilities, because it does not know the ids
    that [_sendDiscoQuery] issues. *)
Theorem parser_then_coordinator_never_emits (stanzas : list RawStanza) :
  emitted (run_stanzas (capabilitiesParser <$> stanzas) new) = []
  ∧ (∀ F, cached (run_stanzas (capabilitiesParser <$> stanzas) new) F = None)
  ∧ (∀ F e, extCached (run_stanzas (capabilitiesParser <$> stanzas) new) F e = false).
Proof.
  assert (nothingCached (run_stanzas (capabilitiesParser <$> stanzas) new)
          ∧ emitted (run_stanzas (capabilitiesParser <$> stanzas) new) = [])
    as [[Hc Hx] Hem].
  { induction stanzas as [|stanza stanzas [IH1 IH2]] using rev_ind.
    - split; [|done]. split; [intros F; unfold cached; cbn; by rewrite lookup_empty|done].
    - assert (run_stanzas (capabilitiesParser <$> stanzas ++ [stanza]) new
              = step (run_stanzas (capabilitiesParser <$> stanzas) new)
                  (capabilitiesParser stanza)) as ->.
      { unfold run_stanzas. by rewrite fmap_app, foldl_app. }
      destruct (nothingCached_step _ stanza
                  (ids_in_sequence_run (capabilitiesParser <$> stanzas)) IH1) as [H1 H2].
      split; [exact H1|]. by rewrite H2. }
  done.
Qed.

(** * A presence that is not fully cached *)

Lemma handlePresence_slow_effect s stanza pc :
  Inv s → caps stanza = Some pc → plainExts pc = true →
  ¬ (is_Some (cached s (fullNodeOf pc)) ∧ uncachedExts s pc = []) →
  wp (_handlePresence stanza)
    (λ _ s', _pendingBuddies s' !! from stanza = Some (length (buddyHeap s))
             ∧ (∃ b, buddyHeap s' !! length (buddyHeap s) = Some b
                     ∧ originalPresence b = stanza)
             ∧ emitted s' = emitted s)
    (λ _ _, False) s.
Proof.
  intros HI Hpc Hplain Hslow. unfold _handlePresence. rewrite Hpc. wp_run.
  rewrite (uncached_plain s pc Hplain).
  destruct (bool_decide (is_Some (cached s (fullNodeOf pc)))
            && bool_decide (length (uncachedExts s pc) = 0)) eqn:Hfast.
  { apply andb_true_iff in Hfast as [Hc%bool_decide_eq_true Hu%bool_decide_eq_true].
    destruct Hslow. split; [done|]. by apply nil_length_inv. }
  clear Hfast. wp_run.
  apply (wp_mono _ _ (λ _ s', s' = afterRegistration stanza pc s) _ (λ _ _, False));
    [|intros [] s' ->|done].
  { unfold afterRegistration.
    destruct (cached s (fullNodeOf pc)) as [entry|] eqn:Hcached.
    - rewrite bool_decide_eq_true_2 by eauto. by wp_run.
    - rewrite bool_decide_eq_false_2 by (by intros [? ?]).
      by eapply getCapabilitiesFromPresence_wp. }
  destruct (afterRegistration_loop s stanza pc HI Hpc)
    as (_ & _ & Hfrom & Hb & _ & _ & _ & Hem).
  destruct (uncachedExts s pc) as [|e0 rest0] eqn:Huncached.
  - rewrite bool_decide_eq_false_2 by (cbn; lia). by wp_run.
  - rewrite bool_decide_eq_true_2 by (cbn; lia). wp_run.
    pose proof (presence_loop_start s stanza pc HI Hpc Hplain) as Hstart.
    rewrite Huncached in Hstart.
    assert (∀ s1, presence_loop s stanza pc (length (buddyHeap s)) (e0 :: rest0) s1 →
      wp (forEach (λ ext, _getExtensionFromPresence stanza ext) (e0 :: rest0))
        (λ _ s', _pendingBuddies s' !! from stanza = Some (length (buddyHeap s))
                 ∧ (∃ b, buddyHeap s' !! length (buddyHeap s) = Some b
                         ∧ originalPresence b = stanza)
                 ∧ emitted s' = emitted s)
        (λ _ _, False) s1) as Hloop.
    { intros s1 Hs1.
      eapply wp_mono;
        [apply (wp_forEach _ (presence_loop s stanza pc (length (buddyHeap s)))
                  (λ _ _, False));
           [exact Hs1|] | |done].
      - intros e rest s2. by apply presence_loop_body.
      - by intros [] s' (_ & _ & ? & ? & _ & _ & _ & _ & ?). }
    destruct (_pendingExt (afterRegistration stanza pc s) !! fullNodeOf pc);
      wp_run; by apply Hloop.
Qed.

(** X22: a presence that is not fully cached and names no extension like
    a member of [Object.prototype], in a state reached by stanzas that
    name none either, raises no event and does not throw; it stores a new
    record for the announcing peer, made for this presence, at a reference
    that did not exist before, and [_pendingBuddies] maps the peer to it:
    the record of an earlier announcement of the same peer is no longer
    the peer's. *)
Theorem presence_replaces_record (s : Handler) (stanza : Presence) (pc : PCaps) :
  reachablePlain s → caps stanza = Some pc → plainExts pc = true →
  ¬ fullyCached s stanza →
  (capabilities_mw (SPresence stanza) s).1 = Ret tt
  ∧ emitted (step s (SPresence stanza)) = emitted s
  ∧ buddyHeap s !! length (buddyHeap s) = None
  ∧ _pendingBuddies (step s (SPresence stanza)) !! from stanza
    = Some (length (buddyHeap s))
  ∧ ∃ b, buddyHeap (step s (SPresence stanza)) !! length (buddyHeap s) = Some b
         ∧ originalPresence b = stanza.
Proof.
  intros HI%Inv_reachable Hpc Hplain Hnot.
  assert (¬ (is_Some (cached s (fullNodeOf pc)) ∧ uncachedExts s pc = [])) as Hslow.
  { intros [Hc Hu]. apply Hnot. exists pc. split; [done|]. split; [done|].
    by apply uncachedExts_nil. }
  pose proof (handlePresence_slow_effect s stanza pc HI Hpc Hplain Hslow) as Hwp.
  unfold step. cbn [capabilities_mw]. unfold wp in Hwp.
  destruct (_handlePresence stanza s) as [[[]|err] s']; [|done].
  destruct Hwp as (Hfrom & Hb & Hem). cbn [fst snd].
  split; [done|]. split; [done|]. split; [by apply lookup_ge_None|done].
Qed.

Lemma presence_replaces_record_witness :
  (capabilities_mw
     (SPresence {| from := "p0"; caps := Some (ex_announce (Some ["ext1"])) |})
     ex_main_cached).1 = Ret tt
  ∧ emitted (step ex_main_cached
               (SPresence {| from := "p0"; caps := Some (ex_announce (Some ["ext1"])) |}))
    = emitted ex_main_cached
  ∧ buddyHeap ex_main_cached !! length (buddyHeap ex_main_cached) = None
  ∧ _pendingBuddies
      (step ex_main_cached
         (SPresence {| from := "p0"; caps := Some (ex_announce (Some ["ext1"])) |}))
      !! "p0"
    = Some (length (buddyHeap ex_main_cached))
  ∧ ∃ b, buddyHeap
           (step ex_main_cached
              (SPresence {| from := "p0"; caps := Some (ex_announce (Some ["ext1"])) |}))
           !! length (buddyHeap ex_main_cached) = Some b
         ∧ originalPresence b
           = {| from := "p0"; caps := Some (ex_announce (Some ["ext1"])) |}.
Proof.
  apply (presence_replaces_record ex_main_cached
           {| from := "p0"; caps := Some (ex_announce (Some ["ext1"])) |}
           (ex_announce (Some ["ext1"]))).
  - by apply (reachablePlain_run [ex_presence "p0" (Some []);
                                  ex_response "caps-1" ["jabber:iq:version"]]).
  - done.
  - done.
  - intros (pc & [= <-] & _ & Hx).
    specialize (Hx ["ext1"] "ext1" eq_refl ltac:(by left)). by vm_compute in Hx.
Defined.

(** * A main response without capabilities *)

(** X23: a response without capabilities to a tracked main request (an
    error response, for one) is not remembered. In a state reached by
    stanzas that name no member of [Object.prototype], the handler returns
    normally, the request and the pending entry of the fingerprint are
    removed, and the fingerprint stays uncached and is no longer pending:
    the next presence that announces it, its extensions being cached,
    sends a new query for it, with the next id. *)
Theorem failed_main_response_is_retried (s : Handler) (qid : string) (r : Request)
    (stanza : Presence) (pc : PCaps) :
  reachablePlain s → _iqRequests s !! qid = Some r → type r = TCaps →
  caps stanza = Some pc → fullNodeOf pc = fullNode r →
  (∀ ext e, pc_ext pc = Some ext → e ∈ ext → extCached s (fullNodeOf pc) e = true) →
  let failed := SIq {| id := qid; capabilities := None |} in
  (capabilities_mw failed s).1 = Ret tt
  ∧ _iqRequests (step s failed) !! qid = None
  ∧ _pending (step s failed) !! fullNode r = None
  ∧ cached (step s failed) (fullNode r) = None
  ∧ sent (step s failed) = sent s
  ∧ sent (run_stanzas [failed; SPresence stanza] s)
    = sent s ++ [ {| q_to := from stanza;
                     q_id := requestId (S (_iqCount s));
                     q_node := fullNode r |} ].
Proof.
  intros HI%Inv_reachable Hr Ht Hpc HF Hexts failed. subst failed.
  pose proof (handleIQ_caps_effect s {| id := qid; capabilities := None |} r HI Hr Ht)
    as Hwp.
  unfold run_stanzas, step. cbn [foldl capabilities_mw]. unfold wp in Hwp.
  destruct (_handleIQ {| id := qid; capabilities := None |} s) as [[[]|err] s'];
    [|done].
  destruct Hwp as (s'' & (evs & -> & _) & ->). cbn [fst snd capabilities id].
  set (s1 := set_iqRequests (delete qid)
               (set_pending (delete (fullNode r))
                  (set_emitted (λ l, l ++ evs)
                     (set_cache <[fullNode r := None]> s)))).
  assert (cached s1 (fullNodeOf pc) = None) as Hcached.
  { unfold cached, s1. hsimpl. by rewrite HF, lookup_insert_eq. }
  assert (_pending s1 !! fullNodeOf pc = None) as Hpending.
  { unfold s1. hsimpl. rewrite HF. apply lookup_delete_eq. }
  assert (uncachedExts s1 pc = []) as Hunc.
  { unfold uncachedExts. destruct (pc_ext pc) as [ext|] eqn:Hext; [|done].
    assert (∀ e, e ∈ ext → extCached s1 (fullNodeOf pc) e = true) as H.
    { intros e He. rewrite (extCached_frame s1 s) by done. by apply (Hexts ext). }
    clear Hext Hexts. induction ext as [|e ext IH]; [done|].
    rewrite filter_cons_False.
    - apply IH. intros e' He'. apply H. by right.
    - rewrite H; [done|by left]. }
  rewrite (handlePresence_main_only s1 stanza pc Hpc Hcached Hunc). cbn [snd].
  unfold afterGetCapabilities, addBuddy. hsimpl. rewrite Hpending. hsimpl.
  subst s1. hsimpl. rewrite HF.
  split; [done|]. split; [apply lookup_delete_eq|].
  split; [apply lookup_delete_eq|]. split; [|done].
  unfold cached. hsimpl. by rewrite lookup_insert_eq.
Qed.

Lemma failed_main_response_is_retried_witness :
  sent (run_stanzas
          [ SIq {| id := "caps-1"; capabilities := None |};
            SPresence {| from := "p2"; caps := Some (ex_announce (Some [])) |} ]
          (step new (ex_presence "p1" (Some []))))
  = sent (step new (ex_presence "p1" (Some [])))
    ++ [ {| q_to := "p2";
            q_id := requestId (S (_iqCount (step new (ex_presence "p1" (Some [])))));
            q_node := "app#v1" |} ].
Proof.
  destruct (failed_main_response_is_retried (step new (ex_presence "p1" (Some [])))
              "caps-1" (mainRequest (ex_announce (Some [])))
              {| from := "p2"; caps := Some (ex_announce (Some [])) |}
              (ex_announce (Some [])))
    as (_ & _ & _ & _ & _ & H).
  - by apply (reachablePlain_run [ex_presence "p1" (Some [])]).
  - by vm_compute.
  - done.
  - done.
  - done.
  - intros ext e [= <-] He. by apply elem_of_nil in He.
  - exact H.
Defined.

(** * Extensions named like members of [Object.prototype] *)

Lemma wp_throw_eq {A} (m : M A) s err s' :
  wp m (λ _ _, False) (λ err' s'', err' = err ∧ s'' = s') s → m s = (Throw err, s').
Proof. unfold wp. destruct (m s) as [[a|e] s'']; [done|by intros [-> ->]]. Qed.

Lemma filter_nothing_cached s F (ext : list string) :
  _extCache s !! F = None → filter (λ e, readsCached s F e = false) ext = ext.
Proof.
  intros H. induction ext as [|e ext IH]; [done|].
  rewrite filter_cons_True by (unfold readsCached; by rewrite H). by rewrite IH.
Qed.

Lemma filter_all_cached s F (ext : list string) :
  (∀ e, e ∈ ext → readsCached s F e = true) →
  filter (λ e, readsCached s F e = false) ext = [].
Proof.
  induction ext as [|e ext IH]; [done|]. intros H.
  rewrite filter_cons_False by (rewrite H; [done|by left]).
  apply IH. intros e' He'. apply H. by right.
Qed.

Lemma addExtensions_total (m : gmap string (list jsval)) raw ext :
  addExtensions (Some m) raw ext
  = Some (foldl (λ raw e, Handler.concat raw (get m e)) raw ext).
Proof. revert raw. induction ext as [|e ext IH]; intros raw; [done|]. cbn. apply IH. Qed.

(** X25: what an extension named like a member of [Object.prototype] does
    to a presence. When [this._extCache[fullNode]] does not exist and the
    first extension announced bears such a name, the presence throws a
    TypeError: the record of the peer is stored and the main capabilities
    are asked for if they are neither cached nor pending, but no query
    goes out for any extension, and the record holds no pending extension.
    When [this._extCache[fullNode]] exists, such a name reads as cached:
    an announcement whose main capabilities and other extensions are
    cached is answered at once, and the inherited member itself is
    appended to the raw features of the event. *)
Theorem inherited_extension_name (s : Handler) (stanza : Presence) (pc : PCaps) :
  caps stanza = Some pc →
  (∀ e ext,
     pc_ext pc = Some (e :: ext) → plainKey e = false →
     _extCache s !! fullNodeOf pc = None →
     (∀ m, _pendingExt s !! fullNodeOf pc = Some m → m !! e = None) →
     capabilities_mw (SPresence stanza) s
     = (Throw TypeError, ensurePendingExt (fullNodeOf pc) (afterRegistration stanza pc s)))
  ∧ (∀ entry m ext,
       cached s (fullNodeOf pc) = Some entry → _extCache s !! fullNodeOf pc = Some m →
       pc_ext pc = Some ext →
       (∀ e, e ∈ ext → is_Some (m !! e) ∨ plainKey e = false) →
       capabilities_mw (SPresence stanza) s
       = (Ret tt,
          set_emitted
            (λ l, l ++ [mergedEvent stanza entry
                          (foldl (λ raw e, Handler.concat raw (get m e))
                             (rawFeatures (Util.deepClone entry)) ext)]) s)).
Proof.
  intros Hpc. split.
  - intros e ext Hext He Hcache Hpe. cbn [capabilities_mw]. apply wp_throw_eq.
    set (F := fullNodeOf pc) in *.
    assert (∀ s1 m, _pendingExt s1 !! F = Some m → m !! e = None →
              wp (forEach (λ ext, _getExtensionFromPresence stanza ext) (e :: ext))
                (λ _ _, False) (λ err s', err = TypeError ∧ s' = s1) s1) as Hloop.
    { intros s1 m Hm Hme. cbn [forEach]. wp_run. unfold _getExtensionFromPresence.
      rewrite Hpc. wp_run. fold F. rewrite Hm. wp_run.
      rewrite get_inherited by done. wp_run. rewrite Hm. cbn. rewrite Hme. by wp_run. }
    unfold _handlePresence. rewrite Hpc. wp_run. fold F. rewrite Hext.
    rewrite filter_nothing_cached by done. cbn [length].
    rewrite (bool_decide_eq_false_2 (S _ = 0)) by done. rewrite andb_false_r. wp_run.
    change (set_pendingBuddies _ _) with (addBuddy stanza s).
    assert (wp (if bool_decide (0 < S (length ext))
                then
                  do exts <- gets (λ s0 : Handler, _pendingExt s0 !! F);
                  run match exts with
                      | Some _ => ret ()
                      | None => modify (set_pendingExt <[F:=∅]>)
                      end;
                  forEach (λ ext0 : string, _getExtensionFromPresence stanza ext0) (e :: ext)
                else ret ())
              (λ _ _, False)
              (λ err' s'', err' = TypeError
                           ∧ s'' = ensurePendingExt F (afterRegistration stanza pc s))
              (afterRegistration stanza pc s)) as Hrest.
    { rewrite bool_decide_eq_true_2 by lia. wp_run. unfold ensurePendingExt.
      destruct (afterRegistration_frame stanza pc s) as (_ & _ & _ & _ & _ & Hsame & _).
      destruct (_pendingExt (afterRegistration stanza pc s) !! F) as [m|] eqn:Hm; wp_run.
      - apply (Hloop _ m); [done|]. apply Hpe. by rewrite <-Hsame.
      - apply (Hloop _ ∅); [hsimpl; apply lookup_insert_eq|done]. }
    unfold afterRegistration in Hrest |- *. fold F in Hrest |- *.
    destruct (cached s F) as [entry|] eqn:Hentry.
    + rewrite bool_decide_eq_true_2 by eauto. wp_run. exact Hrest.
    + rewrite bool_decide_eq_false_2 by (by intros [? ?]).
      eapply getCapabilitiesFromPresence_wp; [done|]. exact Hrest.
  - intros entry m ext Hentry Hm Hext Hall. cbn [capabilities_mw]. apply wp_run_eq.
    unfold _handlePresence. rewrite Hpc. wp_run. rewrite Hentry, Hext.
    rewrite filter_all_cached.
    2: { intros e He. unfold readsCached. rewrite Hm. unfold get.
         destruct (Hall e He) as [[fs ->]|Hplain]; [done|].
         destruct (m !! e); [done|]. by rewrite Hplain. }
    rewrite bool_decide_eq_true_2 by eauto. cbn.
    eapply emitCapabilitiesEvent_wp; [done|done| |done].
    unfold mergeRaw. rewrite Hext, Hm. apply addExtensions_total.
Qed.

Lemma inherited_extension_name_witness :
  capabilities_mw (ex_presence "p1" (Some ["toString"])) new
  = (Throw TypeError,
     ensurePendingExt "app#v1"
       (afterRegistration {| from := "p1"; caps := Some (ex_announce (Some ["toString"])) |}
          (ex_announce (Some ["toString"])) new))
  ∧ q_node <$> sent (step new (ex_presence "p1" (Some ["toString"]))) = ["app#v1"]
  ∧ pendingExts <$> buddyHeap (step new (ex_presence "p1" (Some ["toString"]))) = [[]]
  ∧ rawFeatures ∘ ev_caps
      <$> emitted (step ex_ext_resolved (ex_presence "p3" (Some ["ext1"; "toString"])))
    = [ [JStr "jabber:iq:version"; JStr "urn:xmpp:bob"];
        [JStr "jabber:iq:version"; JStr "urn:xmpp:bob"; JFun "toString"] ]
  ∧ sent (step ex_ext_resolved (ex_presence "p3" (Some ["ext1"; "toString"])))
    = sent ex_ext_resolved.
Proof.
  pose proof (inherited_extension_name new
                {| from := "p1"; caps := Some (ex_announce (Some ["toString"])) |}
                (ex_announce (Some ["toString"])) eq_refl) as [H1 _].
  pose proof (inherited_extension_name ex_ext_resolved
                {| from := "p3"; caps := Some (ex_announce (Some ["ext1"; "toString"])) |}
                (ex_announce (Some ["ext1"; "toString"])) eq_refl) as [_ H2].
  specialize (H1 "toString" [] eq_refl eq_refl eq_refl ltac:(done)).
  specialize (H2 (ex_caps ["jabber:iq:version"])
                {[ "ext1" := [JStr "urn:xmpp:bob"] ]} ["ext1"; "toString"]
                ltac:(by vm_compute) ltac:(by vm_compute) eq_refl).
  split; [exact H1|]. split; [by vm_compute|]. split; [by vm_compute|].
  unfold step, ex_presence. rewrite H2.
  - split; by vm_compute.
  - intros e [->|[->|[]%elem_of_nil]%elem_of_cons]%elem_of_cons.
    + left. eexists. by vm_compute.
    + by right.
Defined.
